(** * git-remote-gittuf: the curl (HTTP) transport handler

    A shallow embedding of [handleCurl]
    (internal/git-remote-gittuf/curl.go) and the properties of its
    protocol state machine.

    Go byte slices and Go strings are both sequences of bytes; both are
    represented by [string] (a list of 8-bit characters).  The function reads
    two token streams, the controller's stdin and the child helper's stdout,
    each through a [bufio.Scanner]; a stream is represented by the list of
    tokens its scanner yields, and [Scan() == false] by the empty list.  The
    scanner wrappers ([logScanner], [logReadCloser]) and the split functions
    are declared outside the files at hand: a token is taken as a value, which
    later scans do not change, and the scanners that are made one after the
    other on the child's stdout are taken to read one stream, nothing lost
    between them.  The calls of [log] only write diagnostics and are left out.
    Every other interaction with the outside world (writes, subprocesses,
    closing and waiting) is recorded in a trace, and whether it fails is
    decided by an environment that sees the history. *)

From Stdlib Require Import Ascii String ZArith Lia.
From stdpp Require Import base tactics option list strings gmap.

Local Open Scope Z_scope.
Local Open Scope nat_scope.

(** ** The Go standard-library functions the handler calls *)

Module Go.

(** [bytes.HasPrefix] / [strings.HasPrefix]. *)
Fixpoint HasPrefix (s prefix : string) : bool :=
  match prefix with
  | EmptyString => true
  | String p prefix' =>
      match s with
      | EmptyString => false
      | String c s' => if Ascii.eqb c p then HasPrefix s' prefix' else false
      end
  end.

(** [bytes.Contains]: [sub] occurs somewhere in [s]. *)
Fixpoint Contains (s sub : string) : bool :=
  HasPrefix s sub ||
  match s with
  | EmptyString => false
  | String _ s' => Contains s' sub
  end.

(** [bytes.Equal]. *)
Definition Equal (a b : string) : bool := bool_decide (a = b).

(** [bytes.Split] / [strings.Split] at a one-byte separator: the pieces
    between the separators, one more than there are separators. *)
Fixpoint Split (s : string) (sep : ascii) : list string :=
  match s with
  | EmptyString => [EmptyString]
  | String c s' =>
      if Ascii.eqb c sep then EmptyString :: Split s' sep
      else match Split s' sep with
           | [] => [String c EmptyString]
           | piece :: pieces => String c piece :: pieces
           end
  end.

(** [strings.IndexByte]: index of the first [c] in [s], or -1. *)
Fixpoint IndexByte (s : string) (c : ascii) : Z :=
  match s with
  | EmptyString => (-1)%Z
  | String x s' =>
      if Ascii.eqb x c then 0%Z
      else let i := IndexByte s' c in
           if (i <? 0)%Z then (-1)%Z else (i + 1)%Z
  end.

(** The slice expression [s[n:]]; out of range ([None]) when [n > len(s)]. *)
Fixpoint sliceFrom (n : nat) (s : string) : option string :=
  match n with
  | O => Some s
  | S n' => match s with
            | EmptyString => None
            | String _ s' => sliceFrom n' s'
            end
  end.

(** The slice expression [s[:n]]; out of range ([None]) when [n > len(s)]. *)
Fixpoint sliceTo (n : nat) (s : string) : option string :=
  match n with
  | O => Some EmptyString
  | S n' => match s with
            | EmptyString => None
            | String c s' => String c <$> sliceTo n' s'
            end
  end.

(** White space as [unicode.IsSpace] sees it in UTF-8 encoded text:
    the six ASCII characters, and the encodings of U+0085, U+00A0, U+1680,
    U+2000..U+200A, U+2028, U+2029, U+202F, U+205F and U+3000. *)
Definition asciiSpace (c : ascii) : bool :=
  let n := nat_of_ascii c in
  ((9 <=? n) && (n <=? 13)) || (n =? 32).

Definition space2 (c1 c2 : ascii) : bool :=
  let a := nat_of_ascii c1 in
  let b := nat_of_ascii c2 in
  (a =? 194) && ((b =? 133) || (b =? 160)).

Definition space3 (c1 c2 c3 : ascii) : bool :=
  let a := nat_of_ascii c1 in
  let b := nat_of_ascii c2 in
  let c := nat_of_ascii c3 in
  ((a =? 225) && (b =? 154) && (c =? 128))
  || ((a =? 226) && (b =? 128)
      && (((128 <=? c) && (c <=? 138)) || (c =? 168) || (c =? 169) || (c =? 175)))
  || ((a =? 226) && (b =? 129) && (c =? 159))
  || ((a =? 227) && (b =? 128) && (c =? 128)).

(** Drop leading white space, one rune at a time. *)
Fixpoint trimLeft (s : string) : string :=
  match s with
  | EmptyString => EmptyString
  | String c1 s1 =>
      if asciiSpace c1 then trimLeft s1
      else match s1 with
           | EmptyString => s
           | String c2 s2 =>
               if space2 c1 c2 then trimLeft s2
               else match s2 with
                    | EmptyString => s
                    | String c3 s3 =>
                        if space3 c1 c2 c3 then trimLeft s3 else s
                    end
           end
  end.

(** The same from the end, on the reversed text: the bytes of a rune are
    met last byte first. *)
Fixpoint trimLeftRev (s : string) : string :=
  match s with
  | EmptyString => EmptyString
  | String c1 s1 =>
      if asciiSpace c1 then trimLeftRev s1
      else match s1 with
           | EmptyString => s
           | String c2 s2 =>
               if space2 c2 c1 then trimLeftRev s2
               else match s2 with
                    | EmptyString => s
                    | String c3 s3 =>
                        if space3 c3 c2 c1 then trimLeftRev s3 else s
                    end
           end
  end.

(** [bytes.TrimSpace] / [strings.TrimSpace]. *)
Definition TrimSpace (s : string) : string :=
  String.rev (trimLeftRev (String.rev (trimLeft s))).

End Go.

(** ** Constants of the package *)

(** The line feed, [\n]. *)
Definition LF : string := String "010"%char EmptyString.

(** Modelled from the spec: the declaration of [gittufRefPrefix] is outside
    the files at hand; the spec gives the literal ([refs/gittuf/]). *)
Definition gittufRefPrefix : string := "refs/gittuf/".

(** Modelled from the spec: [rsl.Ref], the reference state log
    ([refs/gittuf/reference-state-log]). *)
Definition rslRef : string := "refs/gittuf/reference-state-log".

(** Modelled from the spec: the sentinel packets [flushPkt] ([0000]) and
    [endOfReadPkt] (response-end, [0002]). *)
Definition flushPkt : string := "0000".
Definition endOfReadPkt : string := "0002".

(** Modelled from the spec: [gitUploadPack], the one service that is
    specialised. *)
Definition gitUploadPack : string := "git-upload-pack".

(** Modelled from the spec: the states of the protocol state machine. *)
Inductive state :=
| start | serviceRouter | lsRefs | lsRefsResponse
| requestingWants | packfileIncoming | packfileDone.

#[global] Instance state_eq_dec : EqDecision state.
Proof. solve_decision. Defined.

(** ** The outside world *)

(** A Go [error] value. *)
Definition error := string.

(** What the handler does to the outside world.  Reading a token is not an
    action: the streams are arguments. *)
Inductive action :=
| HelperStdoutPipe
| HelperStdinPipe
| HelperStart (remoteName url : string)
| HelperStdInWrite (p : string)
| StdoutWrite (p : string)
| RslRecord (dstRef srcRef : string)
| HelperStdInClose
| HelperStdOutClose
| HelperWait.

#[global] Instance action_eq_dec : EqDecision action.
Proof. solve_decision. Defined.

(** An action together with how it went: [None] when it succeeded. *)
Record event := Event { act : action; failure : option error }.

#[global] Instance event_eq_dec : EqDecision event.
Proof. solve_decision. Defined.

(** A computation runs on the history so far, and either yields a value,
    returns an error ([return nil, false, err]) or panics (an index or a slice
    bound out of range); each time with the history it leaves. *)
Inductive result (A : Type) :=
| Ok (a : A) (tr : list event)
| Err (e : error) (tr : list event)
| Panic (tr : list event).
Arguments Ok {A} a tr.
Arguments Err {A} e tr.
Arguments Panic {A} tr.

Definition M (A : Type) : Type := list event → result A.

#[global] Instance M_ret : MRet M := λ A a tr, Ok a tr.
#[global] Instance M_bind : MBind M := λ A B f m tr,
  match m tr with
  | Ok a tr' => f a tr'
  | Err e tr' => Err e tr'
  | Panic tr' => Panic tr'
  end.

Definition panic {A : Type} : M A := λ tr, Panic tr.

(** The history a computation leaves. *)
Definition history {A : Type} (r : result A) : list event :=
  match r with Ok _ tr | Err _ tr | Panic tr => tr end.

(** An indexing expression [l[i]], bounds-checked as in Go. *)
Definition index (l : list string) (i : nat) : M string :=
  match l !! i with
  | Some x => mret x
  | None => panic
  end.

(** A slice expression whose bounds may be out of range. *)
Definition slice (o : option string) : M string :=
  match o with
  | Some x => mret x
  | None => panic
  end.

(** ** The session state: the variables of [handleCurl] *)

Record session := Session {
  currentState : state;
  gittufRefsTips : gmap string string;
  pushCommands : list string;
  service : string;
  isPush : bool;
  isPacketMode : bool
}.

Definition withState (st : state) (s : session) : session :=
  Session st (gittufRefsTips s) (pushCommands s) (service s) (isPush s) (isPacketMode s).
Definition withTips (tips : gmap string string) (s : session) : session :=
  Session (currentState s) tips (pushCommands s) (service s) (isPush s) (isPacketMode s).
Definition withPushCommands (cmds : list string) (s : session) : session :=
  Session (currentState s) (gittufRefsTips s) cmds (service s) (isPush s) (isPacketMode s).
Definition withService (svc : string) (s : session) : session :=
  Session (currentState s) (gittufRefsTips s) (pushCommands s) svc (isPush s) (isPacketMode s).
Definition withIsPush (b : bool) (s : session) : session :=
  Session (currentState s) (gittufRefsTips s) (pushCommands s) (service s) b (isPacketMode s).
Definition withPacketMode (b : bool) (s : session) : session :=
  Session (currentState s) (gittufRefsTips s) (pushCommands s) (service s) (isPush s) b.

(** The declarations at the top of [handleCurl]. *)
Definition initialSession : session :=
  Session start ∅ [] "" false false.

(** How one pass through the [switch] ends: at the bottom of the loop body, or
    by [goto alreadyScanned] with a command that was read inside the pass.
    Both carry what is left of the two streams. *)
Inductive step :=
| Next (s : session) (stdin helperOut : list string)
| Rescan (s : session) (command : string) (stdin helperOut : list string).

(** ** The handler *)

Section Handler.

(** The environment decides, from the history, whether an action fails. *)
Variable env : list event → action → option error.

(** The order in which [range] visits a map is not specified and may change
    from one loop to the next. *)
Variable mapRange : list event → gmap string string → list (string * string).

(** [packetEncode] is declared outside the files at hand; the handler is
    embedded for any encoder. *)
Variable packetEncode : string → string.

Definition perform (a : action) : M unit := λ tr,
  let r := env tr a in
  let tr' := tr ++ [Event a r] in
  match r with
  | None => Ok () tr'
  | Some e => Err e tr'
  end.

Definition rangeMap (m : gmap string string) : M (list (string * string)) :=
  λ tr, Ok (mapRange tr m) tr.

(** [len(gittufRefsTips) != 0]: the remote is gittuf-enabled. *)
Definition gittufEnabled (tips : gmap string string) : bool :=
  negb (size tips =? 0).

(** Lines 76-86 and 230-240: the child's answer is copied to the controller
    up to and including the first flush-pkt.  Returns what is left of the
    child's output. *)
Fixpoint forwardUntilFlush (helperOut : list string) : M (list string) :=
  match helperOut with
  | [] => mret []
  | output :: helperOut' =>
      _ ← perform (StdoutWrite output);
      if Go.Equal output flushPkt then mret helperOut'
      else forwardUntilFlush helperOut'
  end.

(** Lines 101-106: a line of the [list for-push] answer. *)
Definition recordListedRef (output : string) (tips : gmap string string)
  : gmap string string :=
  let refAdSplit := Go.Split (Go.TrimSpace output) " " in
  if 2 <=? length refAdSplit then
    match refAdSplit !! 1, refAdSplit !! 0 with
    | Some refName, Some oid =>
        if Go.HasPrefix refName gittufRefPrefix then <[refName := oid]> tips
        else tips
    | _, _ => tips
    end
  else tips.

(** Lines 98-115. *)
Fixpoint listForPushResponse (helperOut : list string) (tips : gmap string string)
  : M (gmap string string * list string) :=
  match helperOut with
  | [] => mret (tips, [])
  | output :: helperOut' =>
      let tips' := recordListedRef output tips in
      _ ← perform (StdoutWrite output);
      if Go.Equal output flushPkt then mret (tips', helperOut')
      else listForPushResponse helperOut' tips'
  end.

(** Lines 145-163: the body of the loop over the buffered push commands. *)
Definition recordAndForward (tips : gmap string string) (pushCommand : string)
  : M unit :=
  _ ← (if gittufEnabled tips then
         refSpec ← index (Go.Split (Go.TrimSpace pushCommand) " ") 1;
         let refSpecSplit := Go.Split refSpec ":" in
         srcRef ← index refSpecSplit 0;
         dstRef ← index refSpecSplit 1;
         if negb (Go.HasPrefix dstRef gittufRefPrefix)
         then perform (RslRecord dstRef srcRef)
         else mret ()
       else mret ());
  perform (HelperStdInWrite pushCommand).

(** Lines 144-164. *)
Fixpoint forwardPushCommands (tips : gmap string string) (cmds : list string)
  : M unit :=
  match cmds with
  | [] => mret ()
  | pushCommand :: cmds' =>
      _ ← recordAndForward tips pushCommand;
      forwardPushCommands tips cmds'
  end.

(** The push of the reference state log, line 168. *)
Definition rslPushCommand : string :=
  "push " +:+ rslRef +:+ ":" +:+ rslRef +:+ LF.

(** Lines 144-176: what is done when the blank line that ends a push batch
    has been read. *)
Definition endPushBatch (tips : gmap string string) (cmds : list string)
  : M unit :=
  _ ← forwardPushCommands tips cmds;
  _ ← (if gittufEnabled tips then perform (HelperStdInWrite rslPushCommand)
       else mret ());
  perform (HelperStdInWrite LF).

(** Lines 121-190: buffer the push commands up to the blank line.  Returns
    the buffer and what is left of stdin. *)
Fixpoint pushBatch (tips : gmap string string) (cmds : list string)
    (command : string) (stdin : list string) {struct stdin}
  : M (list string * list string) :=
  if Go.Equal command LF then
    _ ← endPushBatch tips cmds;
    mret (cmds, stdin)
  else
    let cmds' := cmds ++ [command] in
    match stdin with
    | [] => mret (cmds', [])
    | command' :: stdin' => pushBatch tips cmds' command' stdin'
    end.

(** Lines 195-217: the child's push report, without the lines that mention
    a gittuf ref. *)
Fixpoint pushReport (helperOut : list string) : M (list string) :=
  match helperOut with
  | [] => mret []
  | output :: helperOut' =>
      _ ← (if negb (Go.Contains output gittufRefPrefix)
           then perform (StdoutWrite output)
           else mret ());
      if Go.Equal output flushPkt then mret helperOut'
      else pushReport helperOut'
  end.

(** Lines 289-301: a packet of the ls-refs answer. *)
Definition recordAdvertisedRef (output : string) (tips : gmap string string)
  : M (gmap string string) :=
  if negb (Go.Equal output flushPkt) && negb (Go.Equal output endOfReadPkt) then
    payload ← slice (Go.sliceFrom 4 output);
    let refAd := Go.TrimSpace payload in
    let i := Go.IndexByte refAd "000"%char in
    refAd ← (if (0 <? i)%Z then slice (Go.sliceTo (Z.to_nat i) refAd)
             else mret refAd);
    let refAdSplit := Go.Split refAd " " in
    refName ← index refAdSplit 1;
    if Go.HasPrefix refName gittufRefPrefix then
      oid ← index refAdSplit 0;
      mret (<[refName := oid]> tips)
    else mret tips
  else mret tips.

(** Lines 286-310. *)
Fixpoint lsRefsResponseDrain (helperOut : list string) (tips : gmap string string)
  : M (gmap string string * list string) :=
  match helperOut with
  | [] => mret (tips, [])
  | output :: helperOut' =>
      tips' ← recordAdvertisedRef output tips;
      _ ← perform (StdoutWrite output);
      if Go.Equal output endOfReadPkt then mret (tips', helperOut')
      else lsRefsResponseDrain helperOut' tips'
  end.

(** Lines 322-327: one want per entry of the map. *)
Fixpoint writeWants (entries : list (string * string)) : M unit :=
  match entries with
  | [] => mret ()
  | (_, tip) :: entries' =>
      _ ← perform (HelperStdInWrite (packetEncode ("want " +:+ tip +:+ LF)));
      writeWants entries'
  end.

(** How the loop over the packfile packets is left. *)
Inductive packfileExit :=
| PackfileBreak (stdin helperOut : list string)
| PackfileGoto (command : string) (stdin helperOut : list string).

(** Lines 345-364. *)
Fixpoint packfileDrain (stdin helperOut : list string) : M packfileExit :=
  match helperOut with
  | [] => mret (PackfileBreak stdin [])
  | output :: helperOut' =>
      _ ← perform (StdoutWrite output);
      if Go.Equal output endOfReadPkt then
        match stdin with
        | [] => mret (PackfileBreak [] helperOut')
        | command :: stdin' =>
            if String.length command =? 0
            then mret (PackfileBreak stdin' helperOut')
            else mret (PackfileGoto command stdin' helperOut')
        end
      else packfileDrain stdin helperOut'
  end.

(** The injected ls-refs argument, line 269. *)
Definition gittufRefPrefixCommand : string :=
  "ref-prefix " +:+ gittufRefPrefix +:+ LF.

(** Lines 57-241, [case start]: the top-level menu of the helper. *)
Definition dispatchStart (s : session) (command : string)
    (stdin helperOut : list string) : M step :=
  if Go.HasPrefix command "stateless-connect" then
    svc ← index (Go.Split (Go.TrimSpace command) " ") 1;
    let s := withState serviceRouter (withService svc s) in
    _ ← perform (HelperStdInWrite command);
    helperOut' ← forwardUntilFlush helperOut;
    mret (Next s stdin helperOut')
  else if Go.HasPrefix command "list for-push" then
    _ ← perform (HelperStdInWrite command);
    r ← listForPushResponse helperOut (gittufRefsTips s);
    mret (Next (withTips r.1 s) stdin r.2)
  else if Go.HasPrefix command "push" then
    let s := withIsPush true s in
    r ← pushBatch (gittufRefsTips s) (pushCommands s) command stdin;
    helperOut' ← pushReport helperOut;
    mret (Next (withPushCommands r.1 s) r.2 helperOut')
  else
    _ ← perform (HelperStdInWrite command);
    helperOut' ← forwardUntilFlush helperOut;
    mret (Next s stdin helperOut').

(** Lines 243-258, [case serviceRouter]. *)
Definition dispatchServiceRouter (s : session) (command : string)
    (stdin helperOut : list string) : M step :=
  let s := withPacketMode true s in
  let s :=
    if Go.Equal (service s) gitUploadPack then
      if Go.Contains command "command=ls-refs" then withState lsRefs s
      else if Go.Contains command "command=fetch" then withState requestingWants s
      else s
    else s in
  _ ← perform (HelperStdInWrite command);
  mret (Next s stdin helperOut).

(** Lines 264-313, [case lsRefs]. *)
Definition dispatchLsRefs (s : session) (command : string)
    (stdin helperOut : list string) : M step :=
  s ← (if Go.Equal command flushPkt then
         _ ← perform (HelperStdInWrite (packetEncode gittufRefPrefixCommand));
         mret (withState lsRefsResponse s)
       else mret s);
  _ ← perform (HelperStdInWrite command);
  if decide (currentState s = lsRefsResponse) then
    r ← lsRefsResponseDrain helperOut (gittufRefsTips s);
    mret (Next (withState serviceRouter (withTips r.1 s)) stdin r.2)
  else mret (Next s stdin helperOut).

(** Lines 315-368, [case requestingWants]. *)
Definition dispatchRequestingWants (s : session) (command : string)
    (stdin helperOut : list string) : M step :=
  let wantsDone := false in
  s ← (if Go.Equal command flushPkt then
         if negb wantsDone then
           entries ← rangeMap (gittufRefsTips s);
           _ ← writeWants entries;
           mret (withState packfileIncoming s)
         else mret s
       else mret s);
  _ ← perform (HelperStdInWrite command);
  if decide (currentState s = packfileIncoming) then
    exit ← packfileDrain stdin helperOut;
    match exit with
    | PackfileGoto command' stdin' helperOut' =>
        mret (Rescan (withState requestingWants s) command' stdin' helperOut')
    | PackfileBreak stdin' helperOut' =>
        mret (Next (withState packfileDone s) stdin' helperOut')
    end
  else mret (Next s stdin helperOut).

(** Lines 56-369: the [switch] on the current state.  The states without a
    case fall through it. *)
Definition dispatch (s : session) (command : string)
    (stdin helperOut : list string) : M step :=
  match currentState s with
  | start => dispatchStart s command stdin helperOut
  | serviceRouter => dispatchServiceRouter s command stdin helperOut
  | lsRefs => dispatchLsRefs s command stdin helperOut
  | requestingWants => dispatchRequestingWants s command stdin helperOut
  | lsRefsResponse | packfileIncoming | packfileDone =>
      mret (Next s stdin helperOut)
  end.

(** The command of a pass: the one already scanned, or the next token. *)
Definition scan (scanned : option string) (stdin : list string)
  : option (string * list string) :=
  match scanned with
  | Some command => Some (command, stdin)
  | None => match stdin with
            | [] => None
            | command :: stdin' => Some (command, stdin')
            end
  end.

(** Lines 51-373: the main loop.  It yields the session it ends in, or
    [None] when [fuel] passes did not reach the end. *)
Fixpoint mainLoop (fuel : nat) (s : session) (scanned : option string)
    (stdin helperOut : list string) : M (option session) :=
  match fuel with
  | O => mret None
  | S fuel' =>
      match scan scanned stdin with
      | None => mret (Some s)
      | Some (command, stdin) =>
          st ← dispatch s command stdin helperOut;
          match st with
          | Rescan s' command' stdin' helperOut' =>
              mainLoop fuel' s' (Some command') stdin' helperOut'
          | Next s' stdin' helperOut' =>
              if decide (currentState s' = packfileDone) then mret (Some s')
              else mainLoop fuel' s' None stdin' helperOut'
          end
      end
  end.

(** Lines 17-38: the child helper is set up and started. *)
Definition startHelper (remoteName url : string) : M unit :=
  _ ← perform HelperStdoutPipe;
  _ ← perform HelperStdinPipe;
  perform (HelperStart remoteName url).

(** Lines 375-387. *)
Definition shutdown (s : session) : M (gmap string string * bool) :=
  _ ← perform HelperStdInClose;
  _ ← perform HelperStdOutClose;
  _ ← perform HelperWait;
  mret (gittufRefsTips s, isPush s).

(** Everything before the shutdown. *)
Definition translate (remoteName url : string) (stdin helperOut : list string)
  : M (option session) :=
  _ ← startHelper remoteName url;
  mainLoop (S (length stdin)) initialSession None stdin helperOut.

(** [handleCurl], on the two token streams it reads.  [Ok None] stands for a
    main loop that did not end, and is shown below not to occur. *)
Definition handleCurl (remoteName url : string) (stdin helperOut : list string)
  : M (option (gmap string string * bool)) :=
  end_ ← translate remoteName url stdin helperOut;
  match end_ with
  | None => mret None
  | Some s => r ← shutdown s; mret (Some r)
  end.

End Handler.

(** ** Concrete environments, to run the handler *)

(** Nothing fails. *)
Definition quiet : list event → action → option error := λ _ _, None.

(** A [range] in the order of the map's list of entries. *)
Definition rangeSorted : list event → gmap string string → list (string * string) :=
  λ _ m, map_to_list m.

(** The actions in [bad] fail with [e], the others succeed. *)
Definition failing (bad : action → bool) (e : error)
  : list event → action → option error :=
  λ _ a, if bad a then Some e else None.

Definition isRslRecord (a : action) : bool :=
  match a with RslRecord _ _ => true | _ => false end.

Definition isHelperStdInWrite (a : action) : bool :=
  match a with HelperStdInWrite _ => true | _ => false end.

(** Modelled from the spec: [packetEncode] prepends the length of the packet,
    payload and header, as four lowercase hexadecimal digits.  The rejection
    of payloads of more than 0xFFFB bytes is not represented: the digits are
    those of the length modulo 0x10000. *)
Definition hexDigit (n : nat) : ascii :=
  if n <? 10 then ascii_of_nat (48 + n) else ascii_of_nat (87 + n).

Definition hex4 (n : nat) : string :=
  String (hexDigit (n / 4096 mod 16))
    (String (hexDigit (n / 256 mod 16))
       (String (hexDigit (n / 16 mod 16))
          (String (hexDigit (n mod 16)) EmptyString))).

Definition pktLine (payload : string) : string :=
  hex4 (String.length payload + 4) +:+ payload.

(** The events of a history that are writes to the child's stdin, and to the
    controller. *)
Definition childWrites (tr : list event) : list string :=
  omap (λ ev, match act ev with HelperStdInWrite p => Some p | _ => None end) tr.

Definition stdoutWrites (tr : list event) : list string :=
  omap (λ ev, match act ev with StdoutWrite p => Some p | _ => None end) tr.

(** A successful write to the child, and to the controller. *)
Definition toChild (p : string) : event := Event (HelperStdInWrite p) None.
Definition toController (p : string) : event := Event (StdoutWrite p) None.

(** The actions of the shutdown. *)
Definition isShutdown (a : action) : bool :=
  match a with
  | HelperStdInClose | HelperStdOutClose | HelperWait => true
  | _ => false
  end.

(** No event of the list failed. *)
Definition clean (evs : list event) : Prop :=
  Forall (λ ev, failure ev = None) evs.

(** The discipline of errors: a computation adds events to the history; its
    actions are in [P]; none of them failed, except the last one when the
    computation returns an error, and then the error is that failure. *)
Inductive follows {A : Type} (P : action → Prop) (tr : list event)
  : result A → Prop :=
| follows_ok a evs :
    clean evs → Forall (λ ev, P (act ev)) evs →
    follows P tr (Ok a (tr ++ evs))
| follows_panic evs :
    clean evs → Forall (λ ev, P (act ev)) evs →
    follows P tr (Panic (tr ++ evs))
| follows_err e evs a :
    clean evs → Forall (λ ev, P (act ev)) evs → P a →
    follows P tr (Err e (tr ++ evs ++ [Event a (Some e)])).

Definition disciplined {A : Type} (P : action → Prop) (f : M A) : Prop :=
  ∀ tr, follows P tr (f tr).

(** The part of a stream up to and including the first flush-pkt, and the
    part after it. *)
Fixpoint throughFlush (packets : list string) : list string :=
  match packets with
  | [] => []
  | p :: packets' =>
      if Go.Equal p flushPkt then [p] else p :: throughFlush packets'
  end.

Fixpoint afterFlush (packets : list string) : list string :=
  match packets with
  | [] => []
  | p :: packets' =>
      if Go.Equal p flushPkt then packets' else afterFlush packets'
  end.

(** Lines 146-149 as a function: the source and the destination of the
    refspec of a push command, when both indexing expressions are in range. *)
Definition pushRefSpec (pushCommand : string) : option (string * string) :=
  refSpec ← Go.Split (Go.TrimSpace pushCommand) " " !! 1;
  let refSpecSplit := Go.Split refSpec ":" in
  srcRef ← refSpecSplit !! 0;
  dstRef ← refSpecSplit !! 1;
  Some (srcRef, dstRef).

(** The bytes of a string. *)
Fixpoint chars (s : string) : list ascii :=
  match s with
  | EmptyString => []
  | String c s' => c :: chars s'
  end.

(** A push command the loop over the batch can take apart: after trimming
    there is a second space-separated token, and it has a colon. *)
Definition wellShaped (pushCommand : string) : Prop :=
  ∃ refSpec, Go.Split (Go.TrimSpace pushCommand) " " !! 1 = Some refSpec
             ∧ ":"%char ∈ chars refSpec.

(** Every key of the map is the name of a gittuf ref. *)
Definition gittufKeys (tips : gmap string string) : Prop :=
  map_Forall (λ refName _, Go.HasPrefix refName gittufRefPrefix = true) tips.

(** The session a pass through the switch ends in. *)
Definition stepSession (st : step) : session :=
  match st with
  | Next s _ _ | Rescan s _ _ _ => s
  end.

(** The tokens before the main loop: the scanned command, if any, then
    stdin. *)
Definition pending (scanned : option string) (stdin : list string) : list string :=
  match scanned with
  | Some command => command :: stdin
  | None => stdin
  end.

(** The packets of a push report that are handed on (line 198). *)
Definition reported (p : string) : bool := negb (Go.Contains p gittufRefPrefix).

(** The actions before the shutdown are not those of the shutdown. *)
Definition translating (a : action) : Prop := isShutdown a = false.

(** The want line for a tip (line 323), as the packet that is written. *)
Definition wantPacket (packetEncode : string → string) (tip : string) : string :=
  packetEncode ("want " +:+ tip +:+ LF).

(** A session in the middle of a fetch from a gittuf-enabled remote, for the
    examples. *)
Definition fetchSession : session :=
  Session requestingWants {["refs/gittuf/policy" := "beef"]} [] gitUploadPack
    false true.

(** A write to the child of a push command whose destination is not a gittuf
    ref comes, when the remote is gittuf-enabled, right after the successful
    [gittuf rsl record] for that destination and source. *)
Definition recordedFirst (tips : gmap string string) (evs : list event) : Prop :=
  ∀ pre pushCommand f post srcRef dstRef,
    evs = pre ++ Event (HelperStdInWrite pushCommand) f :: post →
    tips ≠ ∅ →
    pushRefSpec pushCommand = Some (srcRef, dstRef) →
    Go.HasPrefix dstRef gittufRefPrefix = false →
    ∃ pre', pre = pre' ++ [Event (RslRecord dstRef srcRef) None].

(** The map only grows: its keys stay, and stay names of gittuf refs. *)
Definition grows (tips tips' : gmap string string) : Prop :=
  (gittufKeys tips → gittufKeys tips') ∧ dom tips ⊆ dom tips'.

(** The writes to the child that are not wants: the command of the pass, a
    token of stdin or a buffered push command, handed on; the ref-prefix
    packet; the push of the reference state log; the line feed.  Any other
    action is let through. *)
Definition handedOn (packetEncode : string → string) (s : session)
    (command : string) (stdin : list string) (a : action) : Prop :=
  ∀ p, a = HelperStdInWrite p →
       p ∈ command :: stdin ++ pushCommands s
       ∨ p = packetEncode gittufRefPrefixCommand
       ∨ p = rslPushCommand
       ∨ p = LF.

(** Lines 290-295 as a function: the text of an advertisement that is split
    at the spaces, when the slice expressions are in range. *)
Definition advertisedText (output : string) : option string :=
  payload ← Go.sliceFrom 4 output;
  let refAd := Go.TrimSpace payload in
  let i := Go.IndexByte refAd "000"%char in
  if (0 <? i)%Z then Go.sliceTo (Z.to_nat i) refAd else Some refAd.

(** What is left of the child's output at the end of a pass, and of the loop
    over the packfile packets. *)
Definition stepOut (st : step) : list string :=
  match st with
  | Next _ _ helperOut | Rescan _ _ _ helperOut => helperOut
  end.

Definition exitOut (exit : packfileExit) : list string :=
  match exit with
  | PackfileBreak _ helperOut | PackfileGoto _ _ helperOut => helperOut
  end.

(** A computation on the child's output [out] that leaves [rest a] of it
    unread copies from the child: what it writes to the controller, failed
    writes too, is in order among the packets it read. *)
Definition copiesFrom {A : Type} (out : list string) (rest : A → list string)
    (f : M A) : Prop :=
  ∀ tr, ∃ evs,
    history (f tr) = tr ++ evs
    ∧ match f tr with
      | Ok a _ => ∃ used, out = used ++ rest a
                          ∧ stdoutWrites evs `sublist_of` used
      | _ => stdoutWrites evs `sublist_of` out
      end.

(** The tokens of the controller a pass leaves to the passes after it: the
    command it scanned ahead, if any, what is left of stdin, and the buffered
    push commands. *)
Definition stepTokens (st : step) : list string :=
  match st with
  | Next s stdin _ => stdin ++ pushCommands s
  | Rescan s command stdin _ => command :: stdin ++ pushCommands s
  end.

(** The writes to the child in a run on the tokens [tokens]: a token handed
    on, the ref-prefix packet, the push of the reference state log, or a want.
    Any other action is let through. *)
Definition fromTokens (packetEncode : string → string) (tokens : list string)
    (a : action) : Prop :=
  ∀ p, a = HelperStdInWrite p →
       p ∈ tokens
       ∨ p = packetEncode gittufRefPrefixCommand
       ∨ p = rslPushCommand
       ∨ ∃ tip, p = wantPacket packetEncode tip.

(** A computation that does not panic, whatever the history. *)
Definition safe {A : Type} (f : M A) : Prop := ∀ tr tr', f tr ≠ Panic tr'.

(** A line of the [list for-push] answer that advertises a gittuf ref: its
    second space-separated part, after trimming, is under the prefix (lines
    101-103). *)
Definition listsGittufRef (output : string) : bool :=
  match Go.Split (Go.TrimSpace output) " " !! 1 with
  | Some refName => Go.HasPrefix refName gittufRefPrefix
  | None => false
  end.

(** A packet that the service router sends on to a wire command (lines
    246-254): the service is git-upload-pack and the packet names ls-refs or
    fetch. *)
Definition routed (s : session) (command : string) : bool :=
  Go.Equal (service s) gitUploadPack
  && (Go.Contains command "command=ls-refs" || Go.Contains command "command=fetch").

(** How the loop over the packfile packets is left at a response-end-pkt
    (lines 353-362), by what is left of stdin. *)
Definition afterResponseEnd (stdin rest : list string) : packfileExit :=
  match stdin with
  | [] => PackfileBreak [] rest
  | command :: stdin' =>
      if String.length command =? 0 then PackfileBreak stdin' rest
      else PackfileGoto command stdin' rest
  end.

(** A packet that the drain of the ls-refs answer can take: one of the two
    sentinels it tests for, or a packet whose text is there and has a
    space. *)
Definition advertises (output : string) : Prop :=
  output = flushPkt ∨ output = endOfReadPkt
  ∨ ∃ refAd, advertisedText output = Some refAd ∧ " "%char ∈ chars refAd.

(** A pair of a ref name and an oid as both loops record it: the second
    and the first space-separated part of one text. *)
Definition advertisedPair (refName oid : string) : Prop :=
  ∃ text, Go.Split text " " !! 1 = Some refName
          ∧ Go.Split text " " !! 0 = Some oid.

(** Lines 290-299 as a function: the ref name and the oid of an
    advertisement, when the slice and index expressions are in range. *)
Definition advertisedRef (output : string) : option (string * string) :=
  refAd ← advertisedText output;
  refName ← Go.Split refAd " " !! 1;
  oid ← Go.Split refAd " " !! 0;
  Some (refName, oid).

(** The actions of a run that hands the tokens [tokens] on and adds nothing
    of its own: no rsl record, and no write to the child but of a token. *)
Definition plain (tokens : list string) (a : action) : Prop :=
  match a with
  | RslRecord _ _ => False
  | HelperStdInWrite p => p ∈ tokens
  | _ => True
  end.

(** ** Basic facts of the monad *)

Lemma bind_run {A B : Type} (m : M A) (f : A → M B) (tr : list event) :
  (m ≫= f) tr = match m tr with
                 | Ok a tr' => f a tr'
                 | Err e tr' => Err e tr'
                 | Panic tr' => Panic tr'
                 end.
Proof. reflexivity. Qed.

Lemma ret_run {A : Type} (a : A) (tr : list event) :
  (mret a : M A) tr = Ok a tr.
Proof. reflexivity. Qed.

Lemma bind_ok_inv {A B : Type} (m : M A) (f : A → M B) tr b tr' :
  (m ≫= f) tr = Ok b tr' →
  ∃ a tr1, m tr = Ok a tr1 ∧ f a tr1 = Ok b tr'.
Proof.
  rewrite bind_run. destruct (m tr) as [a tr1|e tr1|tr1]; [eauto|done|done].
Qed.

Lemma perform_quiet (a : action) (tr : list event) :
  perform quiet a tr = Ok () (tr ++ [Event a None]).
Proof. reflexivity. Qed.

Lemma perform_ok_inv env a tr u tr' :
  perform env a tr = Ok u tr' → tr' = tr ++ [Event a None].
Proof.
  unfold perform. destruct (env tr a) eqn:E; [done|]. by intros [= <-].
Qed.

Lemma perform_cases env a tr :
  (env tr a = None ∧ perform env a tr = Ok () (tr ++ [Event a None]))
  ∨ (∃ e, env tr a = Some e ∧ perform env a tr = Err e (tr ++ [Event a (Some e)])).
Proof. unfold perform. destruct (env tr a); eauto. Qed.

Lemma Equal_true (a b : string) : Go.Equal a b = true ↔ a = b.
Proof. unfold Go.Equal. apply bool_decide_eq_true. Qed.

Lemma Equal_false (a b : string) : Go.Equal a b = false ↔ a ≠ b.
Proof. unfold Go.Equal. apply bool_decide_eq_false. Qed.

Lemma gittufEnabled_true (tips : gmap string string) :
  gittufEnabled tips = true ↔ tips ≠ ∅.
Proof.
  unfold gittufEnabled. rewrite negb_true_iff, Nat.eqb_neq.
  by rewrite map_size_empty_iff.
Qed.

Lemma gittufEnabled_false (tips : gmap string string) :
  gittufEnabled tips = false ↔ tips = ∅.
Proof.
  unfold gittufEnabled. rewrite negb_false_iff, Nat.eqb_eq.
  by rewrite map_size_empty_iff.
Qed.

(** ** The discipline of errors holds of every part of the handler *)

Lemma follows_ok_eq {A : Type} (P : action → Prop) tr tr' (a : A) evs :
  tr' = tr ++ evs → clean evs → Forall (λ ev, P (act ev)) evs →
  follows P tr (Ok a tr').
Proof. intros ->. apply follows_ok. Qed.

Lemma disciplined_ret {A : Type} (P : action → Prop) (a : A) :
  disciplined P (mret a).
Proof.
  intros tr. apply (follows_ok_eq P tr tr a []); [by rewrite app_nil_r|..];
    by constructor.
Qed.

Lemma disciplined_panic {A : Type} (P : action → Prop) :
  disciplined P (@panic A).
Proof.
  intros tr. unfold panic. rewrite <-(app_nil_r tr) at 2.
  apply follows_panic; by constructor.
Qed.

Lemma disciplined_bind {A B : Type} (P : action → Prop) (m : M A) (f : A → M B) :
  disciplined P m → (∀ a, disciplined P (f a)) → disciplined P (m ≫= f).
Proof.
  intros Hm Hf tr. rewrite bind_run.
  destruct (Hm tr) as [a evs Hc HP|evs Hc HP|e evs a Hc HP Ha].
  - destruct (Hf a (tr ++ evs)) as [b evs' Hc' HP'|evs' Hc' HP'|e evs' a' Hc' HP' Ha'];
      rewrite <-?app_assoc.
    + apply follows_ok; by apply Forall_app.
    + apply follows_panic; by apply Forall_app.
    + rewrite (app_assoc evs). apply follows_err; [by apply Forall_app..|done].
  - by apply follows_panic.
  - by apply follows_err.
Qed.

Lemma disciplined_weaken {A : Type} (P Q : action → Prop) (f : M A) :
  (∀ a, P a → Q a) → disciplined P f → disciplined Q f.
Proof.
  intros HPQ Hf tr.
  assert (∀ evs, Forall (λ ev, P (act ev)) evs → Forall (λ ev, Q (act ev)) evs)
    as Hall by (intros evs H; eapply Forall_impl; [exact H|]; simpl; auto).
  destruct (Hf tr); [apply follows_ok|apply follows_panic|apply follows_err]; auto.
Qed.

Section Discipline.

Variable env : list event → action → option error.
Variable mapRange : list event → gmap string string → list (string * string).
Variable packetEncode : string → string.
Variable P : action → Prop.

Lemma disciplined_perform (a : action) : P a → disciplined P (perform env a).
Proof.
  intros Ha tr. destruct (perform_cases env a tr) as [[_ ->]|(e & _ & ->)].
  - apply follows_ok; repeat constructor; done.
  - apply (follows_err P tr e [] a); [by constructor..|done].
Qed.

Lemma disciplined_index (l : list string) (i : nat) : disciplined P (index l i).
Proof.
  unfold index. destruct (l !! i);
    [apply disciplined_ret|apply disciplined_panic].
Qed.

Lemma disciplined_slice (o : option string) : disciplined P (slice o).
Proof.
  unfold slice. destruct o; [apply disciplined_ret|apply disciplined_panic].
Qed.

Lemma disciplined_rangeMap (m : gmap string string) :
  disciplined P (rangeMap mapRange m).
Proof.
  intros tr. unfold rangeMap.
  apply (follows_ok_eq P tr tr _ []); [by rewrite app_nil_r|..];
    by constructor.
Qed.

End Discipline.

(** One step of a proof of discipline: use what is known of a part, or take
    the computation apart. *)
Create HintDb discipline.

Ltac discipline_step :=
  first
    [ assumption
    | solve [auto 1 with discipline nocore]
    | apply disciplined_ret
    | apply disciplined_panic
    | apply disciplined_index
    | apply disciplined_slice
    | apply disciplined_rangeMap
    | apply disciplined_perform; first [reflexivity | exact I | solve [auto]]
    | apply disciplined_bind; [|intros ?]
    | match goal with
      | |- disciplined _ (if ?b then _ else _) => destruct b
      | |- disciplined _ (match ?x with _ => _ end) => destruct x
      end ].

Ltac discipline := repeat discipline_step.

Section PartsDiscipline.

Variable env : list event → action → option error.
Variable mapRange : list event → gmap string string → list (string * string).
Variable packetEncode : string → string.

(** The actions that are allowed: writes to the controller and records
    always, writes to the child as each part says. *)
Variable P : action → Prop.
Hypothesis P_controller : ∀ p, P (StdoutWrite p).
Hypothesis P_record : ∀ dstRef srcRef, P (RslRecord dstRef srcRef).

Lemma forwardUntilFlush_disciplined out :
  disciplined P (forwardUntilFlush env out).
Proof. induction out as [|o out IH]; cbn [forwardUntilFlush]; discipline. Qed.

Lemma listForPushResponse_disciplined out tips :
  disciplined P (listForPushResponse env out tips).
Proof.
  revert tips. induction out as [|o out IH]; intros tips;
    cbn [listForPushResponse]; discipline.
Qed.

Lemma recordAndForward_disciplined tips c :
  P (HelperStdInWrite c) → disciplined P (recordAndForward env tips c).
Proof. intros Hc. unfold recordAndForward. discipline. Qed.

Lemma forwardPushCommands_disciplined tips cmds :
  (∀ c, c ∈ cmds → P (HelperStdInWrite c)) →
  disciplined P (forwardPushCommands env tips cmds).
Proof.
  induction cmds as [|c cmds IH]; intros Hcmds; cbn [forwardPushCommands].
  - discipline.
  - apply disciplined_bind.
    + apply recordAndForward_disciplined, Hcmds. set_solver.
    + intros _. apply IH. intros c' Hc'. apply Hcmds. set_solver.
Qed.

Lemma endPushBatch_disciplined tips cmds :
  (∀ c, c ∈ cmds → P (HelperStdInWrite c)) →
  P (HelperStdInWrite rslPushCommand) → P (HelperStdInWrite LF) →
  disciplined P (endPushBatch env tips cmds).
Proof.
  intros Hcmds Hrsl Hlf. unfold endPushBatch.
  apply disciplined_bind; [by apply forwardPushCommands_disciplined|].
  intros _. discipline.
Qed.

Lemma pushBatch_disciplined tips cmds command stdin :
  (∀ c, c ∈ cmds ++ command :: stdin → P (HelperStdInWrite c)) →
  P (HelperStdInWrite rslPushCommand) → P (HelperStdInWrite LF) →
  disciplined P (pushBatch env tips cmds command stdin).
Proof.
  intros Hcmds Hrsl Hlf. revert cmds command Hcmds.
  induction stdin as [|c stdin IH]; intros cmds command Hcmds; cbn [pushBatch];
    (destruct (Go.Equal command LF);
     [apply disciplined_bind;
      [apply endPushBatch_disciplined; [|done..];
       intros c' Hc'; apply Hcmds; set_solver
      |intros _; discipline]|]).
  - discipline.
  - apply IH. intros c' Hc'. apply Hcmds. rewrite <-app_assoc in Hc'. done.
Qed.

Lemma pushReport_disciplined out : disciplined P (pushReport env out).
Proof. induction out as [|o out IH]; cbn [pushReport]; discipline. Qed.

Lemma recordAdvertisedRef_disciplined output tips :
  disciplined P (recordAdvertisedRef output tips).
Proof. unfold recordAdvertisedRef. discipline. Qed.

Lemma lsRefsResponseDrain_disciplined out tips :
  disciplined P (lsRefsResponseDrain env out tips).
Proof.
  revert tips. induction out as [|o out IH]; intros tips;
    cbn [lsRefsResponseDrain];
    [discipline|apply disciplined_bind;
                 [apply recordAdvertisedRef_disciplined|intros ?; discipline]].
Qed.

Lemma writeWants_disciplined entries :
  (∀ tip, P (HelperStdInWrite (wantPacket packetEncode tip))) →
  disciplined P (writeWants env packetEncode entries).
Proof.
  intros Hwant.
  induction entries as [|[k v] entries IH]; cbn [writeWants]; [discipline|].
  apply disciplined_bind; [|by intros _].
  apply disciplined_perform, (Hwant v).
Qed.

Lemma packfileDrain_disciplined stdin out :
  disciplined P (packfileDrain env stdin out).
Proof. induction out as [|o out IH]; cbn [packfileDrain]; discipline. Qed.

(** A pass through the switch writes to the child: the command, tokens of
    stdin and buffered push commands; the ref-prefix packet, the push of the
    reference state log and the line feed; and wants, on a flush-pkt in the
    state requestingWants only. *)
Lemma dispatch_disciplined s command stdin out :
  (∀ c, c ∈ command :: stdin ++ pushCommands s → P (HelperStdInWrite c)) →
  P (HelperStdInWrite (packetEncode gittufRefPrefixCommand)) →
  P (HelperStdInWrite rslPushCommand) → P (HelperStdInWrite LF) →
  (currentState s = requestingWants → command = flushPkt →
   ∀ tip, P (HelperStdInWrite (wantPacket packetEncode tip))) →
  disciplined P (dispatch env mapRange packetEncode s command stdin out).
Proof.
  intros Htokens Hprefix Hrsl Hlf Hwants.
  assert (P (HelperStdInWrite command)) as Hcommand
    by (apply Htokens; set_solver).
  pose proof forwardUntilFlush_disciplined.
  pose proof listForPushResponse_disciplined.
  pose proof pushReport_disciplined.
  pose proof lsRefsResponseDrain_disciplined.
  pose proof packfileDrain_disciplined.
  unfold dispatch. destruct (currentState s) eqn:Hst.
  - unfold dispatchStart.
    destruct (Go.HasPrefix command "stateless-connect"); [discipline|].
    destruct (Go.HasPrefix command "list for-push"); [discipline|].
    destruct (Go.HasPrefix command "push"); [|discipline].
    apply disciplined_bind; [|intros ?; discipline].
    apply pushBatch_disciplined; [|done..].
    intros c Hc. apply Htokens. cbn [pushCommands withIsPush] in Hc.
    rewrite app_comm_cons. apply elem_of_app.
    apply elem_of_app in Hc as [Hc|Hc]; auto.
  - unfold dispatchServiceRouter. discipline.
  - unfold dispatchLsRefs. discipline.
  - discipline.
  - unfold dispatchRequestingWants.
    destruct (Go.Equal command flushPkt) eqn:Hflush; [|discipline].
    apply Equal_true in Hflush.
    apply disciplined_bind; [|intros ?; discipline].
    cbn [negb]. apply disciplined_bind; [apply disciplined_rangeMap|].
    intros entries. apply disciplined_bind; [|intros ?; discipline].
    apply writeWants_disciplined. auto.
  - discipline.
  - discipline.
Qed.

End PartsDiscipline.

Section TranslationDiscipline.

Variable env : list event → action → option error.
Variable mapRange : list event → gmap string string → list (string * string).
Variable packetEncode : string → string.

Lemma mainLoop_disciplined fuel s scanned stdin out :
  disciplined translating
    (mainLoop env mapRange packetEncode fuel s scanned stdin out).
Proof.
  revert s scanned stdin out.
  induction fuel as [|fuel IH]; intros s scanned stdin out;
    cbn [mainLoop]; [apply disciplined_ret|].
  destruct (scan scanned stdin) as [[command stdin']|]; [|apply disciplined_ret].
  apply disciplined_bind; [by apply dispatch_disciplined|].
  intros [s' stdin'' out'|s' c' stdin'' out']; [|apply IH].
  destruct (decide _); [apply disciplined_ret|apply IH].
Qed.

Lemma translate_disciplined remoteName url stdin out :
  disciplined translating
    (translate env mapRange packetEncode remoteName url stdin out).
Proof.
  unfold translate, startHelper.
  apply disciplined_bind; [discipline|]. intros _. apply mainLoop_disciplined.
Qed.

Lemma handleCurl_disciplined remoteName url stdin out :
  disciplined (λ _, True)
    (handleCurl env mapRange packetEncode remoteName url stdin out).
Proof.
  unfold handleCurl, shutdown.
  apply disciplined_bind.
  - eapply disciplined_weaken; [|apply translate_disciplined]. done.
  - intros [s|]; discipline.
Qed.

End TranslationDiscipline.

(** ** Streams cut at the first flush-pkt *)

Lemma throughFlush_app (ps rest : list string) :
  flushPkt ∉ ps → throughFlush (ps ++ flushPkt :: rest) = ps ++ [flushPkt].
Proof.
  induction ps as [|p ps IH]; intros Hnot; cbn [throughFlush app].
  - by rewrite (proj2 (Equal_true _ _) eq_refl).
  - apply not_elem_of_cons in Hnot as [Hne Hnot].
    rewrite (proj2 (Equal_false p flushPkt)) by done. by rewrite IH.
Qed.

Lemma afterFlush_app (ps rest : list string) :
  flushPkt ∉ ps → afterFlush (ps ++ flushPkt :: rest) = rest.
Proof.
  induction ps as [|p ps IH]; intros Hnot; cbn [afterFlush app].
  - by rewrite (proj2 (Equal_true _ _) eq_refl).
  - apply not_elem_of_cons in Hnot as [Hne Hnot].
    rewrite (proj2 (Equal_false p flushPkt)) by done. by rewrite IH.
Qed.

(** ** Runs in which nothing fails *)

Lemma forwardUntilFlush_quiet (out : list string) (tr : list event) :
  forwardUntilFlush quiet out tr
  = Ok (afterFlush out) (tr ++ map toController (throughFlush out)).
Proof.
  revert tr. induction out as [|o out IH]; intros tr;
    cbn [forwardUntilFlush throughFlush afterFlush].
  - by rewrite ret_run, app_nil_r.
  - rewrite bind_run, perform_quiet.
    destruct (Go.Equal o flushPkt).
    + by rewrite ret_run.
    + rewrite IH, <-app_assoc. done.
Qed.

Lemma pushReport_quiet (out : list string) (tr : list event) :
  pushReport quiet out tr
  = Ok (afterFlush out)
       (tr ++ map toController (List.filter reported (throughFlush out))).
Proof.
  revert tr. induction out as [|o out IH]; intros tr;
    cbn [pushReport throughFlush afterFlush].
  - by rewrite ret_run, app_nil_r.
  - rewrite bind_run. fold (reported o).
    destruct (reported o) eqn:Hrep.
    + rewrite perform_quiet. destruct (Go.Equal o flushPkt).
      * rewrite ret_run. cbn [List.filter]. by rewrite Hrep.
      * rewrite IH, <-app_assoc. cbn [List.filter]. by rewrite Hrep.
    + rewrite ret_run. destruct (Go.Equal o flushPkt).
      * rewrite ret_run. cbn [List.filter]. by rewrite Hrep, app_nil_r.
      * rewrite IH. cbn [List.filter]. by rewrite Hrep.
Qed.

(** ** Pass-through of the other commands *)

(** C7.  A top-level command that is none of stateless-connect, list for-push
    and push is written to the child as it was received, and the child's
    answer is written to the controller packet by packet, in order, up to and
    including the first flush-pkt; the session and the rest of both streams
    are left as they were. *)
Theorem other_command_passes_through
    (mapRange : list event → gmap string string → list (string * string))
    (packetEncode : string → string)
    (s : session) (command : string) (stdin ps rest : list string)
    (tr : list event) :
  currentState s = start →
  Go.HasPrefix command "stateless-connect" = false →
  Go.HasPrefix command "list for-push" = false →
  Go.HasPrefix command "push" = false →
  flushPkt ∉ ps →
  dispatch quiet mapRange packetEncode s command stdin (ps ++ flushPkt :: rest) tr
  = Ok (Next s stdin rest)
       (tr ++ toChild command :: map toController (ps ++ [flushPkt])).
Proof.
  intros Hst H1 H2 H3 Hps. unfold dispatch, dispatchStart.
  rewrite Hst, H1, H2, H3.
  rewrite bind_run, perform_quiet, bind_run, forwardUntilFlush_quiet, ret_run.
  rewrite throughFlush_app, afterFlush_app by done.
  by rewrite <-app_assoc.
Qed.

Lemma other_command_passes_through_witness :
  dispatch quiet rangeSorted pktLine initialSession ("capabilities" +:+ LF) []
    (["fetch" +:+ LF; "push" +:+ LF] ++ flushPkt :: ["more"]) []
  = Ok (Next initialSession [] ["more"])
       ([] ++ toChild ("capabilities" +:+ LF)
           :: map toController (["fetch" +:+ LF; "push" +:+ LF] ++ [flushPkt])).
Proof.
  apply (other_command_passes_through rangeSorted pktLine initialSession
           ("capabilities" +:+ LF) [] ["fetch" +:+ LF; "push" +:+ LF] ["more"] []);
    try reflexivity.
  intros H. apply list_elem_of_In in H. vm_compute in H. intuition discriminate.
Defined.

(** ** The push report *)

(** C5.  Of the child's push report, the packets that contain [refs/gittuf/]
    are not written to the controller, every other packet is, in the order
    in which the child sent them, and the drain ends with the first flush-pkt:
    the packets after it are left unread. *)
Theorem push_report_suppresses_gittuf_refs (ps rest : list string) (tr : list event) :
  flushPkt ∉ ps →
  pushReport quiet (ps ++ flushPkt :: rest) tr
  = Ok rest (tr ++ map toController (List.filter reported ps ++ [flushPkt])).
Proof.
  intros Hps. rewrite pushReport_quiet, throughFlush_app, afterFlush_app by done.
  by rewrite List.filter_app.
Qed.

Lemma push_report_suppresses_gittuf_refs_witness :
  pushReport quiet
    (["000eok refs/heads/main" +:+ LF;
      "0033ok refs/gittuf/reference-state-log" +:+ LF] ++ flushPkt :: ["0000"]) []
  = Ok ["0000"] [toController ("000eok refs/heads/main" +:+ LF); toController flushPkt].
Proof.
  apply (push_report_suppresses_gittuf_refs
           ["000eok refs/heads/main" +:+ LF;
            "0033ok refs/gittuf/reference-state-log" +:+ LF] ["0000"] []).
  intros H. apply list_elem_of_In in H. vm_compute in H. intuition discriminate.
Defined.

(** Run the next actions of a computation in which nothing fails. *)
Ltac run_quiet :=
  repeat first [rewrite bind_run | rewrite ret_run | rewrite perform_quiet].

(** ** The main loop, pass by pass *)

(** A command that was already scanned is handled as the first token of
    stdin would be. *)
Lemma mainLoop_pending env mapRange packetEncode fuel s scanned stdin out :
  mainLoop env mapRange packetEncode fuel s scanned stdin out
  = mainLoop env mapRange packetEncode fuel s None (pending scanned stdin) out.
Proof. destruct fuel, scanned; reflexivity. Qed.

Lemma mainLoop_step env mapRange packetEncode fuel s command stdin out :
  mainLoop env mapRange packetEncode (S fuel) s None (command :: stdin) out
  = (st ← dispatch env mapRange packetEncode s command stdin out;
     match st with
     | Rescan s' command' stdin' out' =>
         mainLoop env mapRange packetEncode fuel s' (Some command') stdin' out'
     | Next s' stdin' out' =>
         if decide (currentState s' = packfileDone) then mret (Some s')
         else mainLoop env mapRange packetEncode fuel s' None stdin' out'
     end).
Proof. reflexivity. Qed.

Lemma recordAdvertisedRef_history output tips tr :
  history (recordAdvertisedRef output tips tr) = tr.
Proof.
  unfold recordAdvertisedRef, slice, index.
  repeat first
    [ rewrite bind_run
    | rewrite ret_run
    | match goal with
      | |- context [if ?b then _ else _] => destruct b
      | |- context [match ?x with Some _ => _ | None => _ end] => destruct x
      end
    | reflexivity ].
Qed.

Lemma lsRefsResponseDrain_childWrites env out tips tr :
  childWrites (history (lsRefsResponseDrain env out tips tr)) = childWrites tr.
Proof.
  revert tips tr. induction out as [|o out IH]; intros tips tr;
    cbn [lsRefsResponseDrain]; [done|].
  rewrite bind_run.
  pose proof (recordAdvertisedRef_history o tips tr) as Hh.
  destruct (recordAdvertisedRef o tips tr) as [tips' tr1|e tr1|tr1];
    cbn [history] in Hh; subst tr1; [|done..].
  rewrite bind_run.
  destruct (perform_cases env (StdoutWrite o) tr) as [[_ ->]|(e & _ & ->)].
  - destruct (Go.Equal o endOfReadPkt).
    + rewrite ret_run. cbn [history]. unfold childWrites.
      by rewrite omap_app, app_nil_r.
    + rewrite IH. unfold childWrites. by rewrite omap_app, app_nil_r.
  - cbn [history]. unfold childWrites. by rewrite omap_app, app_nil_r.
Qed.

Lemma packfileDrain_childWrites env stdin out tr :
  childWrites (history (packfileDrain env stdin out tr)) = childWrites tr.
Proof.
  revert tr. induction out as [|o out IH]; intros tr;
    cbn [packfileDrain]; [done|].
  rewrite bind_run.
  destruct (perform_cases env (StdoutWrite o) tr) as [[_ ->]|(e & _ & ->)].
  - destruct (Go.Equal o endOfReadPkt).
    + destruct stdin as [|c stdin']; [|destruct (String.length c =? 0)];
        rewrite ret_run; cbn [history]; unfold childWrites;
        by rewrite omap_app, app_nil_r.
    + rewrite IH. unfold childWrites. by rewrite omap_app, app_nil_r.
  - cbn [history]. unfold childWrites. by rewrite omap_app, app_nil_r.
Qed.

(** In the state lsRefs, the packets before the flush-pkt are handed on one
    by one. *)
Lemma mainLoop_lsRefs_forward mapRange packetEncode fuel s ps rest out tr :
  currentState s = lsRefs → flushPkt ∉ ps →
  mainLoop quiet mapRange packetEncode (length ps + fuel) s None (ps ++ rest) out tr
  = mainLoop quiet mapRange packetEncode fuel s None rest out (tr ++ map toChild ps).
Proof.
  intros Hst. revert tr. induction ps as [|p ps IH]; intros tr Hps.
  - by rewrite app_nil_r.
  - apply not_elem_of_cons in Hps as [Hne Hps].
    cbn [length app Nat.add]. rewrite mainLoop_step, bind_run.
    unfold dispatch, dispatchLsRefs. rewrite Hst.
    rewrite (proj2 (Equal_false p flushPkt)) by congruence.
    rewrite bind_run, ret_run, bind_run, perform_quiet.
    destruct (decide (currentState s = lsRefsResponse)); [congruence|].
    rewrite ret_run.
    destruct (decide (currentState s = packfileDone)); [congruence|].
    rewrite IH by done. by rewrite <-app_assoc.
Qed.

(** ** The ls-refs exchange *)

(** C4.  In the state lsRefs nothing failing, the packets of the controller
    up to the flush-pkt are written to the child as they are and in order, one
    more packet, [ref-prefix refs/gittuf/] encoded, is written just before the
    flush-pkt, and then the answer is drained and the loop goes on in the
    service router with the rest of stdin.  The drain writes nothing to the
    child, whatever the environment. *)
Theorem ls_refs_prefix_injected
    (mapRange : list event → gmap string string → list (string * string))
    (packetEncode : string → string)
    (fuel : nat) (s : session) (scanned : option string)
    (stdin ps rest out : list string) (tr : list event) :
  currentState s = lsRefs →
  flushPkt ∉ ps →
  pending scanned stdin = ps ++ flushPkt :: rest →
  mainLoop quiet mapRange packetEncode (length ps + S fuel) s scanned stdin out tr
  = (r ← lsRefsResponseDrain quiet out (gittufRefsTips s);
     mainLoop quiet mapRange packetEncode fuel
       (withState serviceRouter (withTips r.1 s)) None rest r.2)
      (tr ++ map toChild (ps ++ [packetEncode gittufRefPrefixCommand; flushPkt]))
  ∧ ∀ env tips tr0,
      childWrites (history (lsRefsResponseDrain env out tips tr0)) = childWrites tr0.
Proof.
  intros Hst Hps Hpend. split; [|intros; apply lsRefsResponseDrain_childWrites].
  rewrite mainLoop_pending, Hpend, mainLoop_lsRefs_forward by done.
  rewrite mainLoop_step, bind_run.
  unfold dispatch, dispatchLsRefs. rewrite Hst.
  rewrite (proj2 (Equal_true flushPkt flushPkt)) by done.
  run_quiet. cbn [withState currentState gittufRefsTips].
  destruct (decide (lsRefsResponse = lsRefsResponse)) as [_|]; [|done].
  rewrite map_app, <-!app_assoc. cbn [map app]. run_quiet.
  destruct (lsRefsResponseDrain _ _ _ _) as [r tr1|e tr1|tr1]; [|done..].
  run_quiet. cbn [withState withTips currentState gittufRefsTips].
  destruct (decide (serviceRouter = packfileDone)); [done|].
  reflexivity.
Qed.

Lemma ls_refs_prefix_injected_witness :
  mainLoop quiet rangeSorted pktLine (length ["0001"] + 2)
    (withState lsRefs initialSession) None ["0001"; flushPkt] [] []
  = Ok (Some (withState serviceRouter initialSession))
       (map toChild ["0001"; "001cref-prefix refs/gittuf/" +:+ LF; flushPkt]).
Proof.
  pose proof (ls_refs_prefix_injected rangeSorted pktLine 1
                (withState lsRefs initialSession) None ["0001"; flushPkt]
                ["0001"] [] [] []) as H.
  destruct H as [H _].
  - reflexivity.
  - intros H. apply list_elem_of_In in H. vm_compute in H. intuition discriminate.
  - reflexivity.
  - rewrite H. reflexivity.
Defined.

(** ** The wants of a fetch *)

Lemma writeWants_quiet packetEncode (entries : list (string * string)) tr :
  writeWants quiet packetEncode entries tr
  = Ok () (tr ++ map toChild (map (wantPacket packetEncode) entries.*2)).
Proof.
  revert tr. induction entries as [|[k v] entries IH]; intros tr;
    cbn [writeWants].
  - by rewrite ret_run, app_nil_r.
  - run_quiet. rewrite IH, <-app_assoc. reflexivity.
Qed.

(** In the state requestingWants, the packets before the flush-pkt are handed
    on one by one. *)
Lemma mainLoop_requestingWants_forward mapRange packetEncode fuel s ps rest out tr :
  currentState s = requestingWants → flushPkt ∉ ps →
  mainLoop quiet mapRange packetEncode (length ps + fuel) s None (ps ++ rest) out tr
  = mainLoop quiet mapRange packetEncode fuel s None rest out (tr ++ map toChild ps).
Proof.
  intros Hst. revert tr. induction ps as [|p ps IH]; intros tr Hps.
  - by rewrite app_nil_r.
  - apply not_elem_of_cons in Hps as [Hne Hps].
    cbn [length app Nat.add]. rewrite mainLoop_step, bind_run.
    unfold dispatch, dispatchRequestingWants. rewrite Hst.
    rewrite (proj2 (Equal_false p flushPkt)) by congruence.
    run_quiet.
    destruct (decide (currentState s = packfileIncoming)); [congruence|].
    run_quiet.
    destruct (decide (currentState s = packfileDone)); [congruence|].
    rewrite IH by done. by rewrite <-app_assoc.
Qed.

Lemma follows_events {A : Type} (P : action → Prop) tr (r : result A) :
  follows P tr r →
  ∃ evs, history r = tr ++ evs ∧ Forall (λ ev, P (act ev)) evs.
Proof.
  intros [a evs _ HP|evs _ HP|e evs a _ HP Ha]; cbn [history]; [by eauto..|].
  eexists. split; [done|]. apply Forall_app. split; [done|]. by constructor.
Qed.

(** Outside a flush-pkt in the state requestingWants, a pass through the
    switch writes no want of its own to the child. *)
Lemma dispatch_hands_on env mapRange packetEncode s command stdin out tr :
  ¬ (currentState s = requestingWants ∧ command = flushPkt) →
  ∃ evs,
    history (dispatch env mapRange packetEncode s command stdin out tr) = tr ++ evs
    ∧ Forall (λ ev, handedOn packetEncode s command stdin (act ev)) evs.
Proof.
  intros Hnot. apply follows_events. apply dispatch_disciplined.
  - by intros p q.
  - by intros dst src q.
  - intros c Hc q [= <-]. by left.
  - intros q [= <-]. right. by left.
  - intros q [= <-]. right. right. by left.
  - intros q [= <-]. right. right. by right.
  - intros Hst Hflush. by destruct Hnot.
Qed.

(** C3.  In the state requestingWants, nothing failing, the packets of a wants
    batch are written to the child as they are, and just before the flush-pkt
    that ends the batch one want packet is written for every entry of
    gittufRefsTips, with its oid, in the order of the range; then the
    answer is drained.  When the drain ends with a command read after a
    response-end-pkt, the loop takes that command up in the state
    requestingWants again, so the same holds of the follow-up batch.  The
    drain writes nothing to the child, whatever the environment; and a pass
    through the switch that is not for a flush-pkt in the state
    requestingWants writes no want of its own: what it writes to the child is
    handed on from the controller, or the ref-prefix packet, the push of the
    reference state log or the line feed. *)
Theorem gittuf_wants_injected
    (mapRange : list event → gmap string string → list (string * string))
    (packetEncode : string → string)
    (fuel : nat) (s : session) (scanned : option string)
    (stdin ps rest out : list string) (tr : list event) :
  (∀ h m, mapRange h m ≡ₚ map_to_list m) →
  currentState s = requestingWants →
  flushPkt ∉ ps →
  pending scanned stdin = ps ++ flushPkt :: rest →
  ∃ tips : list string,
    tips ≡ₚ (map_to_list (gittufRefsTips s)).*2
    ∧ mainLoop quiet mapRange packetEncode (length ps + S fuel) s scanned stdin out tr
      = (exit ← packfileDrain quiet rest out;
         match exit with
         | PackfileGoto command' stdin' out' =>
             mainLoop quiet mapRange packetEncode fuel
               (withState requestingWants s) (Some command') stdin' out'
         | PackfileBreak _ _ => mret (Some (withState packfileDone s))
         end)
          (tr ++ map toChild (ps ++ map (wantPacket packetEncode) tips ++ [flushPkt]))
    ∧ (∀ env stdin0 out0 tr0,
         childWrites (history (packfileDrain env stdin0 out0 tr0)) = childWrites tr0)
    ∧ ∀ env s0 command0 stdin0 out0 tr0,
        ¬ (currentState s0 = requestingWants ∧ command0 = flushPkt) →
        ∃ evs,
          history (dispatch env mapRange packetEncode s0 command0 stdin0 out0 tr0)
          = tr0 ++ evs
          ∧ Forall (λ ev, handedOn packetEncode s0 command0 stdin0 (act ev)) evs.
Proof.
  intros Hperm Hst Hps Hpend.
  exists (mapRange (tr ++ map toChild ps) (gittufRefsTips s)).*2.
  split; [by rewrite Hperm|].
  split; [|split; [intros; apply packfileDrain_childWrites
                  |intros; by apply dispatch_hands_on]].
  rewrite mainLoop_pending, Hpend, mainLoop_requestingWants_forward by done.
  rewrite mainLoop_step, bind_run.
  unfold dispatch, dispatchRequestingWants. rewrite Hst.
  rewrite (proj2 (Equal_true flushPkt flushPkt)) by done.
  cbn [negb]. unfold rangeMap. run_quiet. rewrite writeWants_quiet. run_quiet.
  cbn [withState currentState].
  destruct (decide (packfileIncoming = packfileIncoming)) as [_|]; [|done].
  rewrite !map_app, <-!app_assoc. cbn [map app]. run_quiet.
  destruct (packfileDrain _ _ _ _) as [[stdin' out'|c' stdin' out'] tr1|e tr1|tr1];
    [| |done..]; run_quiet; cbn [withState currentState]; [|done].
  destruct (decide (packfileDone = packfileDone)); done.
Qed.

Lemma gittuf_wants_injected_witness :
  ∃ tips : list string,
    tips ≡ₚ (map_to_list (gittufRefsTips fetchSession)).*2
    ∧ mainLoop quiet rangeSorted pktLine (length ["000ewant cafe" +:+ LF] + 2)
        fetchSession None ["000ewant cafe" +:+ LF; flushPkt]
        ["PACK"; endOfReadPkt] []
      = (exit ← packfileDrain quiet [] ["PACK"; endOfReadPkt];
         match exit with
         | PackfileGoto command' stdin' out' =>
             mainLoop quiet rangeSorted pktLine 1
               (withState requestingWants fetchSession) (Some command') stdin' out'
         | PackfileBreak _ _ => mret (Some (withState packfileDone fetchSession))
         end)
          ([] ++ map toChild (["000ewant cafe" +:+ LF]
                              ++ map (wantPacket pktLine) tips ++ [flushPkt]))
    ∧ (∀ env stdin0 out0 tr0,
         childWrites (history (packfileDrain env stdin0 out0 tr0)) = childWrites tr0)
    ∧ ∀ env s0 command0 stdin0 out0 tr0,
        ¬ (currentState s0 = requestingWants ∧ command0 = flushPkt) →
        ∃ evs,
          history (dispatch env rangeSorted pktLine s0 command0 stdin0 out0 tr0)
          = tr0 ++ evs
          ∧ Forall (λ ev, handedOn pktLine s0 command0 stdin0 (act ev)) evs.
Proof.
  apply (gittuf_wants_injected rangeSorted pktLine 1 fetchSession
           None ["000ewant cafe" +:+ LF; flushPkt] ["000ewant cafe" +:+ LF] []
           ["PACK"; endOfReadPkt] []).
  - intros h m. reflexivity.
  - reflexivity.
  - intros H. apply list_elem_of_In in H. vm_compute in H. intuition discriminate.
  - reflexivity.
Defined.

(** ** A push batch *)

Lemma Split_nonempty (s : string) (sep : ascii) : Go.Split s sep ≠ [].
Proof.
  destruct s as [|c s]; cbn [Go.Split]; [done|].
  destruct (Ascii.eqb c sep); [done|]. by destruct (Go.Split s sep).
Qed.

Lemma Split_second (s : string) (sep : ascii) :
  is_Some (Go.Split s sep !! 1) ↔ sep ∈ chars s.
Proof.
  induction s as [|c s IH]; cbn [Go.Split chars].
  - split; [by intros [? [=]]|by intros ?%elem_of_nil].
  - destruct (Ascii.eqb_spec c sep) as [->|Hne].
    + split; [intros _; apply elem_of_cons; by left|intros _].
      pose proof (Split_nonempty s sep).
      destruct (Go.Split s sep); [done|]. by eexists.
    + rewrite elem_of_cons, <-IH.
      pose proof (Split_nonempty s sep).
      destruct (Go.Split s sep) as [|piece pieces]; [done|].
      cbn. split; [auto|]. intros [?|?]; [congruence|done].
Qed.

Lemma pushRefSpec_wellShaped (c : string) :
  is_Some (pushRefSpec c) ↔ wellShaped c.
Proof.
  unfold pushRefSpec, wellShaped.
  destruct (Go.Split (Go.TrimSpace c) " " !! 1) as [refSpec|]; cbn.
  - pose proof (Split_second refSpec ":") as Hsecond.
    pose proof (Split_nonempty refSpec ":").
    destruct (Go.Split refSpec ":") as [|src [|dst pieces]]; [done|..]; cbn in *.
    + split; [by intros [? [=]]|].
      intros (? & [= <-] & Hin). apply Hsecond in Hin as [? [=]].
    + split; [intros _; eexists; split; [done|]; apply Hsecond; by eexists
             |by eexists].
  - split; [by intros [? [=]]|by intros (? & [=] & _)].
Qed.

(** The body of the loop over the batch, by the cases of its tests. *)
Lemma recordAndForward_run env tips c tr :
  recordAndForward env tips c tr
  = if gittufEnabled tips then
      match pushRefSpec c with
      | None => Panic tr
      | Some (srcRef, dstRef) =>
          if Go.HasPrefix dstRef gittufRefPrefix
          then perform env (HelperStdInWrite c) tr
          else (_ ← perform env (RslRecord dstRef srcRef);
                perform env (HelperStdInWrite c)) tr
      end
    else perform env (HelperStdInWrite c) tr.
Proof.
  unfold recordAndForward, pushRefSpec, index.
  destruct (gittufEnabled tips); [|by rewrite bind_run, ret_run].
  destruct (Go.Split (Go.TrimSpace c) " " !! 1) as [refSpec|]; cbn [mbind option_bind];
    [|by rewrite !bind_run].
  rewrite !bind_run, ret_run.
  destruct (Go.Split refSpec ":" !! 0) as [src|]; cbn [mbind option_bind];
    [|by rewrite !bind_run].
  rewrite !bind_run, ret_run.
  destruct (Go.Split refSpec ":" !! 1) as [dst|]; cbn [mbind option_bind];
    [|by rewrite !bind_run].
  rewrite !bind_run, ret_run.
  destruct (Go.HasPrefix dst gittufRefPrefix); cbn [negb].
  - by rewrite ret_run.
  - reflexivity.
Qed.

(** The events of a push command that goes through: its record, when one is
    due, and its write. *)
Lemma recordAndForward_ok env tips c tr u tr' :
  recordAndForward env tips c tr = Ok u tr' →
  ∃ evs, tr' = tr ++ evs ∧ childWrites evs = [c] ∧ stdoutWrites evs = []
         ∧ (tips = ∅ → evs = [toChild c]).
Proof.
  rewrite recordAndForward_run.
  destruct (gittufEnabled tips) eqn:Hen.
  - apply gittufEnabled_true in Hen.
    destruct (pushRefSpec c) as [[src dst]|]; [|done].
    destruct (Go.HasPrefix dst gittufRefPrefix).
    + intros ->%perform_ok_inv. by eexists.
    + intros (? & tr1 & ->%perform_ok_inv & ->%perform_ok_inv)%bind_ok_inv.
      rewrite <-app_assoc. by eexists.
  - intros ->%perform_ok_inv. by eexists.
Qed.

Lemma forwardPushCommands_ok env tips cmds tr u tr' :
  forwardPushCommands env tips cmds tr = Ok u tr' →
  ∃ evs, tr' = tr ++ evs ∧ childWrites evs = cmds ∧ stdoutWrites evs = []
         ∧ (tips = ∅ → evs = map toChild cmds).
Proof.
  revert tr. induction cmds as [|c cmds IH]; intros tr; cbn [forwardPushCommands].
  - rewrite ret_run. intros [= <-]. exists []. by rewrite app_nil_r.
  - intros (? & tr1 & H1 & H2)%bind_ok_inv.
    apply recordAndForward_ok in H1 as (evs1 & -> & Hc1 & Ho1 & He1).
    apply IH in H2 as (evs2 & -> & Hc2 & Ho2 & He2).
    exists (evs1 ++ evs2). rewrite <-app_assoc. split; [done|].
    unfold childWrites, stdoutWrites in *. rewrite !omap_app.
    rewrite Hc1, Hc2, Ho1, Ho2. split; [done|]. split; [done|].
    intros Hemp. by rewrite He1, He2.
Qed.

Lemma pushBatch_end env tips cmds stdin :
  pushBatch env tips cmds LF stdin
  = (_ ← endPushBatch env tips cmds; mret (cmds, stdin)).
Proof. destruct stdin; reflexivity. Qed.

Lemma pushBatch_next env tips cmds command c stdin :
  command ≠ LF →
  pushBatch env tips cmds command (c :: stdin)
  = pushBatch env tips (cmds ++ [command]) c stdin.
Proof.
  intros Hne. cbn [pushBatch]. by rewrite (proj2 (Equal_false command LF)).
Qed.

(** C2.  When the blank line that ends a push batch is read, and the batch
    goes through, the child has been written: every buffered push command, in
    the order in which the controller sent them; then the push of the
    reference state log, if and only if gittufRefsTips is not empty; then one
    line feed.  Nothing is written to the controller.  When gittufRefsTips is
    empty these writes are all that happens: no [gittuf rsl record] is run and
    no push is added. *)
Theorem push_batch_forwarded
    (env : list event → action → option error)
    (tips : gmap string string) (buffered : list string) (command : string)
    (cs rest : list string) (tr : list event)
    (r : list string * list string) (tr' : list event) :
  LF ∉ command :: cs →
  pushBatch env tips buffered command (cs ++ LF :: rest) tr = Ok r tr' →
  r = (buffered ++ command :: cs, rest)
  ∧ ∃ evs,
      tr' = tr ++ evs
      ∧ childWrites evs
        = (buffered ++ command :: cs)
            ++ (if decide (tips = ∅) then [] else [rslPushCommand]) ++ [LF]
      ∧ stdoutWrites evs = []
      ∧ (tips = ∅ → evs = map toChild ((buffered ++ command :: cs) ++ [LF])).
Proof.
  revert buffered command tr.
  induction cs as [|c cs IH]; intros buffered command tr Hnot;
    apply not_elem_of_cons in Hnot as [Hne Hnot].
  - cbn [app]. rewrite pushBatch_next, pushBatch_end by congruence.
    intros (? & tr1 & Hend & Hret)%bind_ok_inv.
    rewrite ret_run in Hret. injection Hret as <- <-. split; [done|].
    unfold endPushBatch in Hend.
    apply bind_ok_inv in Hend as (? & tr2 & Hfw & Hend).
    apply bind_ok_inv in Hend as (? & tr3 & Hrsl & Hlf).
    apply forwardPushCommands_ok in Hfw as (evs & -> & Hc & Ho & He).
    apply perform_ok_inv in Hlf as ->.
    destruct (gittufEnabled tips) eqn:Hen.
    + apply gittufEnabled_true in Hen. apply perform_ok_inv in Hrsl as ->.
      exists (evs ++ [toChild rslPushCommand; toChild LF]).
      rewrite <-!app_assoc. split; [done|].
      unfold childWrites, stdoutWrites in *. rewrite !omap_app, Hc, Ho.
      destruct (decide (tips = ∅)); [done|]. simpl.
      rewrite <-app_assoc. done.
    + apply gittufEnabled_false in Hen. rewrite ret_run in Hrsl.
      injection Hrsl as _ <-.
      exists (evs ++ [toChild LF]). rewrite <-!app_assoc. split; [done|].
      unfold childWrites, stdoutWrites in *. rewrite !omap_app, Hc, Ho.
      destruct (decide (tips = ∅)); [|done]. simpl.
      rewrite <-!app_assoc. split; [done|]. split; [done|].
      intros _. rewrite He by done. rewrite !map_app, <-app_assoc. done.
  - cbn [app]. rewrite pushBatch_next by congruence.
    intros Hrun. apply IH in Hrun; [|done].
    replace ((buffered ++ [command]) ++ c :: cs)
      with (buffered ++ command :: c :: cs) in Hrun by (by rewrite <-app_assoc).
    exact Hrun.
Qed.

Lemma push_batch_forwarded_witness :
  (["push a:b" +:+ LF], ["list" +:+ LF])
  = ([] ++ ("push a:b" +:+ LF) :: [], ["list" +:+ LF])
  ∧ ∃ evs,
      [Event (RslRecord "b" "a") None; toChild ("push a:b" +:+ LF);
       toChild rslPushCommand; toChild LF] = [] ++ evs
      ∧ childWrites evs
        = ([] ++ ("push a:b" +:+ LF) :: [])
            ++ (if decide (gittufRefsTips fetchSession = ∅) then []
                else [rslPushCommand]) ++ [LF]
      ∧ stdoutWrites evs = []
      ∧ (gittufRefsTips fetchSession = ∅
         → evs = map toChild (([] ++ ("push a:b" +:+ LF) :: []) ++ [LF])).
Proof.
  apply (push_batch_forwarded quiet (gittufRefsTips fetchSession) []
           ("push a:b" +:+ LF) [] ["list" +:+ LF] []).
  - intros H. apply list_elem_of_In in H. vm_compute in H. intuition discriminate.
  - vm_compute. reflexivity.
Defined.

(** ** Records before pushes *)

Lemma recordedFirst_nil tips : recordedFirst tips [].
Proof. intros pre c f post src dst Heq. by destruct pre. Qed.

Lemma recordedFirst_app tips evs1 evs2 :
  recordedFirst tips evs1 → recordedFirst tips evs2 →
  recordedFirst tips (evs1 ++ evs2).
Proof.
  intros H1 H2 pre c f post src dst Heq Htips Hspec Hdst.
  apply List.app_eq_app in Heq as [l [[-> Hl]|[-> Hl]]].
  - destruct l as [|ev l].
    + cbn [app] in Hl.
      destruct (H2 [] c f post src dst) as [pre' Hpre']; [by rewrite <-Hl|done..|].
      by destruct pre'.
    + cbn [app] in Hl. injection Hl as <- ->.
      by apply (H1 pre c f l src dst).
  - destruct (H2 l c f post src dst) as [pre' ->]; [done..|].
    exists (evs1 ++ pre'). by rewrite app_assoc.
Qed.

(** A failure among events that follow the discipline is the last event, and
    the error that is returned. *)
Lemma follows_failure_last {A : Type} (P : action → Prop) tr (r : result A)
    pre a e post :
  follows P tr r →
  history r = tr ++ pre ++ Event a (Some e) :: post →
  post = [] ∧ r = Err e (tr ++ pre ++ [Event a (Some e)]).
Proof.
  assert (∀ evs post', clean evs → evs ≠ pre ++ Event a (Some e) :: post')
    as Hclean.
  { intros evs post' Hc ->. apply Forall_app in Hc as [_ Hc].
    apply Forall_cons in Hc as [Hc _]. done. }
  intros [b evs Hc _|evs Hc _|e' evs a' Hc _ _]; cbn [history];
    intros Heq%app_inv_head.
  - by destruct (Hclean evs post).
  - by destruct (Hclean evs post).
  - destruct post as [|ev post _] using rev_ind.
    + apply app_inj_tail in Heq. destruct Heq as [Hevs Hev]. by simplify_eq.
    + rewrite app_comm_cons, app_assoc in Heq.
      apply app_inj_tail in Heq as [-> _]. by destruct (Hclean _ post Hc).
Qed.

Lemma recordAndForward_recordedFirst env tips c tr :
  ∃ evs, history (recordAndForward env tips c tr) = tr ++ evs
         ∧ recordedFirst tips evs.
Proof.
  rewrite recordAndForward_run.
  destruct (gittufEnabled tips) eqn:Hen.
  - destruct (pushRefSpec c) as [[src dst]|] eqn:Hspec;
      [|exists []; split; [by rewrite app_nil_r|apply recordedFirst_nil]].
    destruct (Go.HasPrefix dst gittufRefPrefix) eqn:Hdst.
    + exists [Event (HelperStdInWrite c) (env tr (HelperStdInWrite c))].
      split; [unfold perform; by destruct (env tr _)|].
      intros pre c' f post src' dst' Heq _ Hspec' Hdst'.
      destruct pre as [|? [|]]; [|done..]. injection Heq as <- _ _.
      assert (dst' = dst) as -> by congruence. congruence.
    + rewrite bind_run.
      destruct (perform_cases env (RslRecord dst src) tr) as [[_ ->]|(e & _ & ->)].
      * exists [Event (RslRecord dst src) None;
                Event (HelperStdInWrite c)
                  (env (tr ++ [Event (RslRecord dst src) None]) (HelperStdInWrite c))].
        split; [unfold perform; destruct (env _ (HelperStdInWrite c));
                cbn [history]; by rewrite <-app_assoc|].
        intros pre c' f post src' dst' Heq _ Hspec' Hdst'.
        destruct pre as [|? [|? [|]]]; [done| |done..].
        cbn [app] in Heq. injection Heq as <- <- _ _.
        assert (src' = src ∧ dst' = dst) as [-> ->] by (split; congruence).
        by exists [].
      * exists [Event (RslRecord dst src) (Some e)]. split; [done|].
        intros pre c' f post src' dst' Heq. by destruct pre as [|? [|]].
  - apply gittufEnabled_false in Hen.
    exists [Event (HelperStdInWrite c) (env tr (HelperStdInWrite c))].
    split; [unfold perform; by destruct (env tr _)|].
    intros pre c' f post src' dst' _ Htips. done.
Qed.

Lemma forwardPushCommands_recordedFirst env tips cmds tr :
  ∃ evs, history (forwardPushCommands env tips cmds tr) = tr ++ evs
         ∧ recordedFirst tips evs.
Proof.
  revert tr. induction cmds as [|c cmds IH]; intros tr; cbn [forwardPushCommands].
  - exists []. split; [by rewrite app_nil_r|apply recordedFirst_nil].
  - rewrite bind_run.
    destruct (recordAndForward_recordedFirst env tips c tr) as (evs1 & Hh1 & Hr1).
    destruct (recordAndForward env tips c tr) as [u tr1|e tr1|tr1];
      cbn [history] in Hh1; subst tr1; [|by exists evs1..].
    destruct (IH (tr ++ evs1)) as (evs2 & Hh2 & Hr2).
    exists (evs1 ++ evs2). rewrite Hh2, <-app_assoc.
    split; [done|by apply recordedFirst_app].
Qed.

Lemma rslPushCommand_refSpec : pushRefSpec rslPushCommand = Some (rslRef, rslRef).
Proof. reflexivity. Qed.

Lemma endPushBatch_recordedFirst env tips cmds tr :
  ∃ evs, history (endPushBatch env tips cmds tr) = tr ++ evs
         ∧ recordedFirst tips evs.
Proof.
  assert (∀ f, recordedFirst tips [Event (HelperStdInWrite rslPushCommand) f])
    as Hrsl.
  { intros f0 pre c f post src dst Heq _ Hspec Hdst.
    destruct pre as [|? [|]]; [|done..]. injection Heq as <- _ _.
    rewrite rslPushCommand_refSpec in Hspec. injection Hspec as <- <-. done. }
  assert (∀ f, recordedFirst tips [Event (HelperStdInWrite LF) f]) as Hlf.
  { intros f0 pre c f post src dst Heq _ Hspec Hdst.
    destruct pre as [|? [|]]; [|done..]. injection Heq as <- _ _. done. }
  unfold endPushBatch. rewrite bind_run.
  destruct (forwardPushCommands_recordedFirst env tips cmds tr) as (evs1 & Hh1 & Hr1).
  destruct (forwardPushCommands env tips cmds tr) as [u tr1|e tr1|tr1];
    cbn [history] in Hh1; subst tr1; [|by exists evs1..].
  rewrite bind_run.
  destruct (gittufEnabled tips).
  - destruct (perform_cases env (HelperStdInWrite rslPushCommand) (tr ++ evs1))
      as [[_ ->]|(e & _ & ->)].
    + set (tr2 := (tr ++ evs1) ++ _).
      exists (evs1 ++ [Event (HelperStdInWrite rslPushCommand) None]
                   ++ [Event (HelperStdInWrite LF) (env tr2 (HelperStdInWrite LF))]).
      split; [unfold perform; destruct (env tr2 _); cbn [history]; subst tr2;
              by rewrite <-!app_assoc|].
      auto using recordedFirst_app.
    + exists (evs1 ++ [Event (HelperStdInWrite rslPushCommand) (Some e)]).
      cbn [history]. rewrite <-app_assoc. auto using recordedFirst_app.
  - rewrite ret_run.
    exists (evs1 ++ [Event (HelperStdInWrite LF)
                       (env (tr ++ evs1) (HelperStdInWrite LF))]).
    split; [unfold perform; destruct (env _ _); cbn [history];
            by rewrite <-!app_assoc|].
    auto using recordedFirst_app.
Qed.

(** C1.  In the events of the end of a push batch, every write to the child
    of a push command whose destination is not under [refs/gittuf/] comes,
    when gittufRefsTips is not empty, right after a [gittuf rsl record] for
    that destination and source that succeeded.  When a [gittuf rsl record]
    fails it is the last event of the batch, which returns that error: the
    push command it was run for and those after it are not written.  And in a
    whole run of the handler an action that fails is the last event of the
    run, which returns its error. *)
Theorem record_precedes_push
    (env : list event → action → option error)
    (mapRange : list event → gmap string string → list (string * string))
    (packetEncode : string → string)
    (tips : gmap string string) (cmds : list string) (tr : list event) :
  (∃ evs,
     history (endPushBatch env tips cmds tr) = tr ++ evs
     ∧ recordedFirst tips evs
     ∧ ∀ pre dstRef srcRef e post,
         evs = pre ++ Event (RslRecord dstRef srcRef) (Some e) :: post →
         post = [] ∧ endPushBatch env tips cmds tr = Err e (tr ++ evs))
  ∧ ∀ remoteName url stdin out pre a e post,
      history (handleCurl env mapRange packetEncode remoteName url stdin out [])
      = pre ++ Event a (Some e) :: post →
      post = []
      ∧ handleCurl env mapRange packetEncode remoteName url stdin out []
        = Err e (pre ++ [Event a (Some e)]).
Proof.
  split.
  - destruct (endPushBatch_recordedFirst env tips cmds tr) as (evs & Hh & Hrec).
    exists evs. split; [done|]. split; [done|].
    intros pre dst src e post ->.
    destruct (follows_failure_last translating tr (endPushBatch env tips cmds tr)
                pre (RslRecord dst src) e post) as [-> ->];
      [by apply endPushBatch_disciplined|done|done].
  - intros remoteName url stdin out pre a e post Hh.
    apply (follows_failure_last (λ _, True) [] _ pre a e post);
      [apply handleCurl_disciplined|done].
Qed.

(** A run in which the record for the second of two pushes fails: the first
    push was written, the second and the end of the batch were not. *)
Example record_failure_aborts_push :
  handleCurl
    (λ _ a, if decide (a = RslRecord "refs/heads/b" "refs/heads/b")
            then Some "exit status 1" else None)
    rangeSorted pktLine "origin" "https://example.com/repo"
    ["list for-push" +:+ LF;
     "push refs/heads/a:refs/heads/a" +:+ LF;
     "push refs/heads/b:refs/heads/b" +:+ LF;
     LF]
    ["abc refs/gittuf/reference-state-log" +:+ LF; flushPkt] []
  = Err "exit status 1"
      [Event HelperStdoutPipe None;
       Event HelperStdinPipe None;
       Event (HelperStart "origin" "https://example.com/repo") None;
       toChild ("list for-push" +:+ LF);
       toController ("abc refs/gittuf/reference-state-log" +:+ LF);
       toController flushPkt;
       Event (RslRecord "refs/heads/a" "refs/heads/a") None;
       toChild ("push refs/heads/a:refs/heads/a" +:+ LF);
       Event (RslRecord "refs/heads/b" "refs/heads/b") (Some "exit status 1")].
Proof. vm_compute. reflexivity. Qed.

(** ** The shape of the buffered push commands *)

Lemma recordAndForward_wellShaped env tips c tr tr' :
  wellShaped c → recordAndForward env tips c tr ≠ Panic tr'.
Proof.
  intros [[src dst] Hspec]%pushRefSpec_wellShaped.
  rewrite recordAndForward_run, Hspec.
  assert (∀ a h, perform env a h ≠ Panic tr') as Hperf.
  { intros a h. unfold perform. by destruct (env h a). }
  destruct (gittufEnabled tips); [|done].
  destruct (Go.HasPrefix dst gittufRefPrefix); [done|].
  rewrite bind_run.
  destruct (perform_cases env (RslRecord dst src) tr) as [[_ ->]|(e & _ & ->)]; done.
Qed.

Lemma recordAndForward_quiet tips c tr :
  wellShaped c →
  ∃ evs, recordAndForward quiet tips c tr = Ok () (tr ++ evs)
         ∧ childWrites evs = [c].
Proof.
  intros [[src dst] Hspec]%pushRefSpec_wellShaped.
  rewrite recordAndForward_run, Hspec.
  destruct (gittufEnabled tips); [|by eexists [_]].
  destruct (Go.HasPrefix dst gittufRefPrefix); [by eexists [_]|].
  run_quiet. rewrite <-app_assoc. by eexists [_; _].
Qed.

(** C10.  With a gittuf-enabled remote, the loop over the buffered push
    commands takes the second space-separated token of each command apart at
    the colon and reads the part after it.  When every command has such a
    token with a colon in it the loop does not panic, whatever fails.  A
    command without one makes it panic, out of range, once the commands
    before it have been written; a command whose second token has no colon is
    such a command. *)
Theorem push_batch_needs_colon
    (env : list event → action → option error)
    (tips : gmap string string) (cmds : list string) (tr : list event) :
  tips ≠ ∅ →
  (Forall wellShaped cmds →
   ∀ tr', forwardPushCommands env tips cmds tr ≠ Panic tr')
  ∧ (∀ pre c post,
       cmds = pre ++ c :: post → Forall wellShaped pre → ¬ wellShaped c →
       ∃ tr', forwardPushCommands quiet tips cmds tr = Panic tr'
              ∧ childWrites tr' = childWrites tr ++ pre)
  ∧ (∀ c refSpec,
       Go.Split (Go.TrimSpace c) " " !! 1 = Some refSpec →
       ":"%char ∉ chars refSpec → ¬ wellShaped c).
Proof.
  intros Htips. split; [|split].
  - intros Hall. revert tr.
    induction Hall as [|c cmds Hc _ IH]; intros tr tr';
      cbn [forwardPushCommands]; [done|].
    rewrite bind_run.
    pose proof (recordAndForward_wellShaped env tips c tr) as Hblock.
    destruct (recordAndForward env tips c tr) as [u tr1|e tr1|tr1];
      [apply IH|done|].
    intros [= <-]. by apply (Hblock tr1).
  - intros pre c post -> Hpre Hc. revert tr.
    induction Hpre as [|p pre Hp _ IH]; intros tr; cbn [app forwardPushCommands].
    + rewrite bind_run, recordAndForward_run.
      rewrite (proj2 (gittufEnabled_true tips)) by done.
      destruct (pushRefSpec c) eqn:Hspec.
      * destruct Hc. apply pushRefSpec_wellShaped. by rewrite Hspec.
      * exists tr. by rewrite app_nil_r.
    + rewrite bind_run.
      destruct (recordAndForward_quiet tips p tr Hp) as (evs & -> & Hw).
      destruct (IH (tr ++ evs)) as (tr' & -> & Hw').
      exists tr'. split; [done|]. rewrite Hw'. unfold childWrites in *.
      by rewrite omap_app, Hw, <-app_assoc.
  - intros c refSpec Hsecond Hcolon (refSpec' & Hsecond' & Hin). congruence.
Qed.

Lemma push_batch_needs_colon_witness :
  (Forall wellShaped ["push refs/heads/main" +:+ LF] →
   ∀ tr', forwardPushCommands quiet {["refs/gittuf/policy" := "beef"]}
            ["push refs/heads/main" +:+ LF] [] ≠ Panic tr')
  ∧ (∀ pre c post,
       ["push refs/heads/main" +:+ LF] = pre ++ c :: post →
       Forall wellShaped pre → ¬ wellShaped c →
       ∃ tr', forwardPushCommands quiet {["refs/gittuf/policy" := "beef"]}
                ["push refs/heads/main" +:+ LF] [] = Panic tr'
              ∧ childWrites tr' = childWrites [] ++ pre)
  ∧ (∀ c refSpec,
       Go.Split (Go.TrimSpace c) " " !! 1 = Some refSpec →
       ":"%char ∉ chars refSpec → ¬ wellShaped c).
Proof.
  apply (push_batch_needs_colon quiet {["refs/gittuf/policy" := "beef"]}
           ["push refs/heads/main" +:+ LF] []).
  apply insert_non_empty.
Defined.

(** The loop on a push command without a colon in its refspec. *)
Example push_without_colon_panics :
  forwardPushCommands quiet {["refs/gittuf/policy" := "beef"]}
    ["push refs/heads/main" +:+ LF] []
  = Panic [].
Proof. vm_compute. reflexivity. Qed.

(** ** The map of gittuf refs *)

Lemma grows_refl tips : grows tips tips.
Proof. by split. Qed.

Lemma grows_trans tips1 tips2 tips3 :
  grows tips1 tips2 → grows tips2 tips3 → grows tips1 tips3.
Proof. intros [H1 D1] [H2 D2]. split; [auto|set_solver]. Qed.

Lemma grows_insert tips refName oid :
  Go.HasPrefix refName gittufRefPrefix = true →
  grows tips (<[refName := oid]> tips).
Proof.
  intros Hpre. split.
  - intros Hkeys. by apply map_Forall_insert_2.
  - rewrite dom_insert_L. set_solver.
Qed.

Lemma recordListedRef_grows output tips :
  grows tips (recordListedRef output tips).
Proof.
  unfold recordListedRef.
  destruct (2 <=? _); [|apply grows_refl].
  destruct (_ !! 1) as [refName|]; [|apply grows_refl].
  destruct (_ !! 0) as [oid|]; [|apply grows_refl].
  destruct (Go.HasPrefix refName gittufRefPrefix) eqn:Hpre;
    [by apply grows_insert|apply grows_refl].
Qed.

(** Take apart a hypothesis that a computation yields a value. *)
Ltac ok_inv :=
  repeat match goal with
    | H : (_ ≫= _) _ = Ok _ _ |- _ =>
        apply bind_ok_inv in H as (? & ? & ? & H)
    | H : mret _ _ = Ok _ _ |- _ => rewrite ret_run in H
    | H : Ok _ _ = Ok _ _ |- _ => injection H as ? ?; subst
    | H : panic _ = Ok _ _ |- _ => discriminate H
    | H : (if ?b then _ else _) _ = Ok _ _ |- _ => destruct b eqn:?
    | H : index ?l ?i _ = Ok _ _ |- _ =>
        unfold index in H; destruct (l !! i) eqn:?
    | H : slice ?o _ = Ok _ _ |- _ => unfold slice in H; destruct o eqn:?
    end.

Lemma recordAdvertisedRef_grows output tips tr tips' tr' :
  recordAdvertisedRef output tips tr = Ok tips' tr' → grows tips tips'.
Proof.
  unfold recordAdvertisedRef. intros H. ok_inv;
    first [by apply grows_insert | apply grows_refl].
Qed.

Lemma listForPushResponse_grows env out tips tr r tr' :
  listForPushResponse env out tips tr = Ok r tr' → grows tips r.1.
Proof.
  revert tips tr. induction out as [|o out IH]; intros tips tr;
    cbn [listForPushResponse]; intros H; ok_inv.
  - apply grows_refl.
  - apply recordListedRef_grows.
  - eapply grows_trans; [apply recordListedRef_grows|by eapply IH].
Qed.

Lemma lsRefsResponseDrain_grows env out tips tr r tr' :
  lsRefsResponseDrain env out tips tr = Ok r tr' → grows tips r.1.
Proof.
  revert tips tr. induction out as [|o out IH]; intros tips tr;
    cbn [lsRefsResponseDrain]; intros H; ok_inv.
  - apply grows_refl.
  - by eapply recordAdvertisedRef_grows.
  - eapply grows_trans; [by eapply recordAdvertisedRef_grows|by eapply IH].
Qed.

Lemma dispatch_grows env mapRange packetEncode s command stdin out tr st tr' :
  dispatch env mapRange packetEncode s command stdin out tr = Ok st tr' →
  grows (gittufRefsTips s) (gittufRefsTips (stepSession st)).
Proof.
  unfold dispatch, dispatchStart, dispatchServiceRouter, dispatchLsRefs,
    dispatchRequestingWants.
  intros H. destruct (currentState s); ok_inv;
    repeat match goal with
      | H : match ?x with PackfileBreak _ _ => _ | PackfileGoto _ _ _ => _ end _
            = Ok _ _ |- _ => destruct x
      end; ok_inv; cbn;
    try apply grows_refl;
    try (by eapply listForPushResponse_grows);
    try (by eapply lsRefsResponseDrain_grows).
  repeat match goal with |- context [if ?b then _ else _] => destruct b end;
    apply grows_refl.
Qed.

Lemma mainLoop_grows env mapRange packetEncode fuel s scanned stdin out tr s' tr' :
  mainLoop env mapRange packetEncode fuel s scanned stdin out tr = Ok (Some s') tr' →
  grows (gittufRefsTips s) (gittufRefsTips s').
Proof.
  revert s scanned stdin out tr.
  induction fuel as [|fuel IH]; intros s scanned stdin out tr; cbn [mainLoop];
    [by rewrite ret_run|].
  destruct (scan scanned stdin) as [[command stdin1]|];
    [|rewrite ret_run; intros [= <- _]; apply grows_refl].
  intros (st & tr1 & Hstep & Hrest)%bind_ok_inv.
  apply dispatch_grows in Hstep.
  destruct st as [s1 stdin2 out2|s1 c2 stdin2 out2]; cbn [stepSession] in Hstep.
  - destruct (decide (currentState s1 = packfileDone)).
    + rewrite ret_run in Hrest. by injection Hrest as <- _.
    + eapply grows_trans; [done|by eapply IH].
  - eapply grows_trans; [done|by eapply IH].
Qed.

Lemma gittufKeys_empty : gittufKeys ∅.
Proof. apply map_Forall_empty. Qed.

(** C9.  A pass through the switch leaves the keys of gittufRefsTips in the
    map, and when they all were names under [refs/gittuf/] before the pass
    they all are after it; so are all the keys of the map that [handleCurl]
    returns. *)
Theorem gittuf_refs_tips_keys
    (env : list event → action → option error)
    (mapRange : list event → gmap string string → list (string * string))
    (packetEncode : string → string) :
  (∀ s command stdin out tr st tr',
     dispatch env mapRange packetEncode s command stdin out tr = Ok st tr' →
     dom (gittufRefsTips s) ⊆ dom (gittufRefsTips (stepSession st))
     ∧ (gittufKeys (gittufRefsTips s) →
        gittufKeys (gittufRefsTips (stepSession st))))
  ∧ (∀ remoteName url stdin out tips isPush tr',
       handleCurl env mapRange packetEncode remoteName url stdin out []
       = Ok (Some (tips, isPush)) tr' →
       ∀ refName oid, tips !! refName = Some oid →
                      Go.HasPrefix refName gittufRefPrefix = true).
Proof.
  split.
  - intros s command stdin out tr st tr' [Hk Hd]%dispatch_grows. done.
  - intros remoteName url stdin out tips isPush tr' H.
    unfold handleCurl, translate, shutdown in H.
    apply bind_ok_inv in H as ([s|] & tr1 & Htr & Hend); [|by rewrite ret_run in Hend].
    apply bind_ok_inv in Htr as (? & tr0 & _ & Hloop).
    apply mainLoop_grows in Hloop as [Hkeys _].
    ok_inv. intros refName oid Hlook.
    by apply (Hkeys gittufKeys_empty refName oid).
Qed.

Lemma gittuf_refs_tips_keys_witness :
  Go.HasPrefix "refs/gittuf/reference-state-log" gittufRefPrefix = true.
Proof.
  pose proof (gittuf_refs_tips_keys quiet rangeSorted pktLine) as [_ H].
  apply (H "origin" "https://example.com/repo"
           ["list for-push" +:+ LF]
           ["abc refs/gittuf/reference-state-log" +:+ LF; flushPkt]
           {["refs/gittuf/reference-state-log" := "abc"]} false
           [Event HelperStdoutPipe None;
            Event HelperStdinPipe None;
            Event (HelperStart "origin" "https://example.com/repo") None;
            toChild ("list for-push" +:+ LF);
            toController ("abc refs/gittuf/reference-state-log" +:+ LF);
            toController flushPkt;
            Event HelperStdInClose None;
            Event HelperStdOutClose None;
            Event HelperWait None]
           eq_refl "refs/gittuf/reference-state-log" "abc").
  vm_compute. reflexivity.
Defined.

(** ** The main loop ends *)

Lemma pushBatch_stdin env tips cmds command stdin tr r tr' :
  pushBatch env tips cmds command stdin tr = Ok r tr' →
  length r.2 ≤ length stdin.
Proof.
  revert cmds command tr. induction stdin as [|c stdin IH];
    intros cmds command tr; cbn [pushBatch]; intros H; ok_inv; cbn; try lia.
  apply IH in H. lia.
Qed.

Lemma packfileDrain_stdin env stdin out tr exit tr' :
  packfileDrain env stdin out tr = Ok exit tr' →
  match exit with
  | PackfileBreak stdin' _ => length stdin' ≤ length stdin
  | PackfileGoto _ stdin' _ => length stdin' < length stdin
  end.
Proof.
  revert tr. induction out as [|o out IH]; intros tr; cbn [packfileDrain];
    intros H; ok_inv; [lia| |by eapply IH].
  destruct stdin as [|c stdin]; ok_inv; cbn; lia.
Qed.

Lemma dispatch_stdin env mapRange packetEncode s command stdin out tr st tr' :
  dispatch env mapRange packetEncode s command stdin out tr = Ok st tr' →
  match st with
  | Next _ stdin' _ => length stdin' ≤ length stdin
  | Rescan _ _ stdin' _ => length stdin' < length stdin
  end.
Proof.
  unfold dispatch, dispatchStart, dispatchServiceRouter, dispatchLsRefs,
    dispatchRequestingWants.
  intros H. destruct (currentState s); ok_inv;
    repeat match goal with
      | H : packfileDrain _ _ _ _ = Ok _ _ |- _ => apply packfileDrain_stdin in H
      | H : pushBatch _ _ _ _ _ _ = Ok _ _ |- _ => apply pushBatch_stdin in H
      | H : match ?x with PackfileBreak _ _ => _ | PackfileGoto _ _ _ => _ end _
            = Ok _ _ |- _ => destruct x
      end; ok_inv; cbn in *; lia.
Qed.

Lemma mainLoop_ends env mapRange packetEncode fuel s scanned stdin out tr tr' :
  length (pending scanned stdin) < fuel →
  mainLoop env mapRange packetEncode fuel s scanned stdin out tr ≠ Ok None tr'.
Proof.
  revert s scanned stdin out tr.
  induction fuel as [|fuel IH]; intros s scanned stdin out tr Hfuel; [lia|].
  cbn [mainLoop].
  destruct (scan scanned stdin) as [[command stdin1]|] eqn:Hscan; [|done].
  assert (length (pending scanned stdin) = S (length stdin1)) as Hlen.
  { destruct scanned; [by injection Hscan as _ <-|].
    destruct stdin; [done|]. by injection Hscan as _ <-. }
  intros (st & tr1 & Hstep & Hrest)%bind_ok_inv.
  apply dispatch_stdin in Hstep.
  destruct st as [s1 stdin2 out2|s1 c2 stdin2 out2].
  - destruct (decide (currentState s1 = packfileDone)); [done|].
    revert Hrest. apply IH. cbn [pending]. lia.
  - revert Hrest. apply IH. cbn [pending length]. lia.
Qed.

(** With the fuel [handleCurl] gives it, the main loop reaches its end. *)
Lemma translate_ends env mapRange packetEncode remoteName url stdin out tr tr' :
  translate env mapRange packetEncode remoteName url stdin out tr ≠ Ok None tr'.
Proof.
  unfold translate. intros (? & tr1 & _ & Hloop)%bind_ok_inv.
  revert Hloop. apply mainLoop_ends. cbn [pending]. lia.
Qed.

(** ** The shutdown *)

Lemma follows_actions {A : Type} (P : action → Prop) (r : result A) :
  follows P [] r → Forall (λ ev, P (act ev)) (history r).
Proof.
  intros [a evs _ HP|evs _ HP|e evs a _ HP Ha]; cbn [history app]; [done..|].
  apply Forall_app. split; [done|]. by constructor.
Qed.

(** C8, as it is stated, fails.  The claim that the child's stdin and stdout
    are closed and the child is waited for on every exit path fails on the paths that return an error
    during the translation: here the first write to the child fails, and the
    handler returns the error without any action of the shutdown. *)
Lemma error_path_skips_shutdown :
  handleCurl (failing isHelperStdInWrite "broken pipe") rangeSorted pktLine
    "origin" "https://example.com/repo" ["capabilities" +:+ LF] [] []
  = Err "broken pipe"
      [Event HelperStdoutPipe None;
       Event HelperStdinPipe None;
       Event (HelperStart "origin" "https://example.com/repo") None;
       Event (HelperStdInWrite ("capabilities" +:+ LF)) (Some "broken pipe")]
  ∧ Forall (λ ev, isShutdown (act ev) = false)
      (history
         (handleCurl (failing isHelperStdInWrite "broken pipe") rangeSorted
            pktLine "origin" "https://example.com/repo"
            ["capabilities" +:+ LF] [] [])).
Proof. split; [reflexivity|]. vm_compute. repeat constructor. Qed.

(** C8, amended.  The actions before the end of the main loop are none of the
    shutdown.  When the main loop ends without an error, the child's stdin is
    closed, then its stdout, then the child is waited for, each only if the
    one before succeeded; when all three succeed the handler returns the pair
    of gittufRefsTips and isPush, and otherwise the error of the one that
    failed, that of the wait for a child that exited with a failure.  When
    the translation returns an error or panics, so does the handler, with no
    action of the shutdown. *)
Theorem shutdown_after_main_loop
    (env : list event → action → option error)
    (mapRange : list event → gmap string string → list (string * string))
    (packetEncode : string → string)
    (remoteName url : string) (stdin out : list string) :
  let run := handleCurl env mapRange packetEncode remoteName url stdin out [] in
  let before := translate env mapRange packetEncode remoteName url stdin out [] in
  Forall (λ ev, isShutdown (act ev) = false) (history before)
  ∧ match before with
    | Ok (Some s) tr =>
        run = Ok (Some (gittufRefsTips s, isPush s))
                (tr ++ [Event HelperStdInClose None;
                        Event HelperStdOutClose None;
                        Event HelperWait None])
        ∨ (∃ e, run = Err e (tr ++ [Event HelperStdInClose (Some e)]))
        ∨ (∃ e, run = Err e (tr ++ [Event HelperStdInClose None;
                                    Event HelperStdOutClose (Some e)]))
        ∨ (∃ e, run = Err e (tr ++ [Event HelperStdInClose None;
                                    Event HelperStdOutClose None;
                                    Event HelperWait (Some e)]))
    | Ok None _ => False
    | Err e tr => run = Err e tr
    | Panic tr => run = Panic tr
    end.
Proof.
  intros run before. split.
  - apply (follows_actions translating). apply translate_disciplined.
  - subst run. unfold handleCurl. rewrite bind_run. fold before.
    pose proof (translate_ends env mapRange packetEncode remoteName url stdin out [])
      as Hends. fold before in Hends.
    destruct before as [[s|] tr|e tr|tr]; [|by destruct (Hends tr)|done..].
    unfold shutdown. rewrite !bind_run.
    destruct (perform_cases env HelperStdInClose tr) as [[_ ->]|(e & _ & ->)];
      cbv beta iota; rewrite ?bind_run; [|right; left; by exists e].
    destruct (perform_cases env HelperStdOutClose (tr ++ [Event HelperStdInClose None]))
      as [[_ ->]|(e & _ & ->)]; cbv beta iota; rewrite ?bind_run;
      [|right; right; left; exists e; by rewrite <-app_assoc].
    destruct (perform_cases env HelperWait
                ((tr ++ [Event HelperStdInClose None])
                   ++ [Event HelperStdOutClose None]))
      as [[_ ->]|(e & _ & ->)]; cbv beta iota.
    + left. rewrite !ret_run. by rewrite <-!app_assoc.
    + right; right; right. exists e. by rewrite <-!app_assoc.
Qed.

(** ** The answer to ls-refs *)

Lemma IndexByte_bound (s : string) (c : ascii) :
  (-1 ≤ Go.IndexByte s c < Z.of_nat (String.length s))%Z.
Proof.
  induction s as [|x s IH]; cbn [Go.IndexByte String.length]; [lia|].
  destruct (Ascii.eqb x c); [lia|].
  destruct (Z.ltb_spec (Go.IndexByte s c) 0); lia.
Qed.

Lemma sliceTo_in_range (n : nat) (s : string) :
  n ≤ String.length s → is_Some (Go.sliceTo n s).
Proof.
  revert s. induction n as [|n IH]; intros s Hn; cbn [Go.sliceTo]; [by eexists|].
  destruct s as [|c s]; cbn [String.length] in Hn; [lia|].
  destruct (IH s) as [t ->]; [lia|]. by eexists.
Qed.

Lemma sliceFrom_in_range (n : nat) (s : string) :
  is_Some (Go.sliceFrom n s) ↔ n ≤ String.length s.
Proof.
  revert s. induction n as [|n IH]; intros s; cbn [Go.sliceFrom].
  - split; [lia|by eexists].
  - destruct s as [|c s]; cbn [String.length].
    + split; [by intros [? [=]]|lia].
    + rewrite IH. lia.
Qed.

(** The text is there exactly when the packet has its four bytes of length:
    the slice at the NUL byte is always in range. *)
Lemma advertisedText_in_range (output : string) :
  is_Some (advertisedText output) ↔ 4 ≤ String.length output.
Proof.
  rewrite <-sliceFrom_in_range. unfold advertisedText.
  destruct (Go.sliceFrom 4 output) as [payload|]; cbn; [|done].
  split; [by eexists|intros _].
  destruct (Z.ltb_spec 0 (Go.IndexByte (Go.TrimSpace payload) "000")); [|by eexists].
  apply sliceTo_in_range.
  pose proof (IndexByte_bound (Go.TrimSpace payload) "000"). lia.
Qed.

(** A packet of the ls-refs answer that is neither flush-pkt nor
    response-end-pkt makes the drain panic exactly when it is shorter than its
    length prefix or its text has no space. *)
Lemma recordAdvertisedRef_panics output tips tr :
  output ≠ flushPkt → output ≠ endOfReadPkt →
  recordAdvertisedRef output tips tr = Panic tr
  ↔ match advertisedText output with
     | None => True
     | Some refAd => " "%char ∉ chars refAd
     end.
Proof.
  intros Hflush Hend. unfold recordAdvertisedRef, advertisedText, slice, index.
  rewrite (proj2 (Equal_false _ _) Hflush), (proj2 (Equal_false _ _) Hend).
  cbn [negb andb].
  destruct (Go.sliceFrom 4 output) as [payload|]; cbn; [|done].
  run_quiet.
  destruct (Z.ltb_spec 0 (Go.IndexByte (Go.TrimSpace payload) "000")) as [Hi|Hi].
  - destruct (Go.sliceTo _ _) as [refAd|]; [|done]. run_quiet.
    rewrite <-Split_second.
    pose proof (Split_nonempty refAd " ").
    destruct (Go.Split refAd " ") as [|oid [|refName pieces]]; [done|..]; cbn.
    + split; [by intros _ [? [=]]|done].
    + run_quiet. destruct (Go.HasPrefix refName gittufRefPrefix); run_quiet;
        (split; [done|intros Hno; destruct Hno; by eexists]).
  - run_quiet. rewrite <-Split_second.
    pose proof (Split_nonempty (Go.TrimSpace payload) " ").
    destruct (Go.Split (Go.TrimSpace payload) " ") as [|oid [|refName pieces]];
      [done|..]; cbn.
    + split; [by intros _ [? [=]]|done].
    + run_quiet. destruct (Go.HasPrefix refName gittufRefPrefix); run_quiet;
        (split; [done|intros Hno; destruct Hno; by eexists]).
Qed.

(** C6, where it fails.  The drain of the ls-refs answer reads the second
    space-separated part of every packet that is neither the flush-pkt nor
    the response-end-pkt without a test of the length, which the loop over the
    [list for-push] answer has.  On a delim-pkt, which has no such part, the
    handler panics, index out of range, before the packet is handed on. *)
Theorem ls_refs_response_out_of_range :
  handleCurl quiet rangeSorted pktLine "origin" "https://example.com/repo"
    ["stateless-connect git-upload-pack" +:+ LF;
     "0014command=ls-refs" +:+ LF;
     flushPkt]
    [flushPkt; "0001"; flushPkt; endOfReadPkt] []
  = Panic
      [Event HelperStdoutPipe None;
       Event HelperStdinPipe None;
       Event (HelperStart "origin" "https://example.com/repo") None;
       toChild ("stateless-connect git-upload-pack" +:+ LF);
       toController flushPkt;
       toChild ("0014command=ls-refs" +:+ LF);
       toChild ("001cref-prefix refs/gittuf/" +:+ LF);
       toChild flushPkt].
Proof. vm_compute. reflexivity. Qed.

(** The same packet in the answer to [list for-push] is handed on. *)
Example list_for_push_response_guarded :
  listForPushResponse quiet ["0001"; flushPkt] ∅ []
  = Ok (∅, []) [toController "0001"; toController flushPkt].
Proof. vm_compute. reflexivity. Qed.

(** On an answer of well-formed advertisements the drain hands every packet
    on, records the gittuf ref, and ends with the response-end-pkt. *)
Example ls_refs_response_recorded :
  lsRefsResponseDrain quiet
    ["0018abc refs/heads/main" +:+ LF;
     "001babd refs/gittuf/policy" +:+ LF;
     flushPkt; endOfReadPkt; "0008NAK" +:+ LF] ∅ []
  = Ok ({["refs/gittuf/policy" := "abd"]}, ["0008NAK" +:+ LF])
      [toController ("0018abc refs/heads/main" +:+ LF);
       toController ("001babd refs/gittuf/policy" +:+ LF);
       toController flushPkt;
       toController endOfReadPkt].
Proof. vm_compute. reflexivity. Qed.

(** * Further properties of the handler *)

(** ** What reaches the controller comes from the child *)

Lemma stdoutWrites_app (evs1 evs2 : list event) :
  stdoutWrites (evs1 ++ evs2) = stdoutWrites evs1 ++ stdoutWrites evs2.
Proof. unfold stdoutWrites. apply omap_app. Qed.

Lemma childWrites_app (evs1 evs2 : list event) :
  childWrites (evs1 ++ evs2) = childWrites evs1 ++ childWrites evs2.
Proof. unfold childWrites. apply omap_app. Qed.

Lemma copies_ret {A : Type} (out : list string) (rest : A → list string) (a : A) :
  rest a = out → copiesFrom out rest (mret a).
Proof.
  intros Hrest tr. exists []. rewrite ret_run, app_nil_r. split; [done|].
  exists []. by rewrite Hrest.
Qed.

Lemma copies_panic {A : Type} (out : list string) (rest : A → list string) :
  copiesFrom out rest panic.
Proof.
  intros tr. exists []. unfold panic. cbn [history]. rewrite app_nil_r.
  split; [done|apply sublist_nil_l].
Qed.

Lemma copies_bind {A B : Type} (out : list string) (rest1 : A → list string)
    (rest2 : B → list string) (m : M A) (g : A → M B) :
  copiesFrom out rest1 m → (∀ a, copiesFrom (rest1 a) rest2 (g a)) →
  copiesFrom out rest2 (m ≫= g).
Proof.
  intros Hm Hg tr. rewrite bind_run.
  destruct (Hm tr) as (evs1 & Hh1 & H1).
  destruct (m tr) as [a tr1|e tr1|tr1]; cbn [history] in Hh1; subst tr1;
    [|by exists evs1..].
  destruct H1 as (used1 & -> & Hsub1).
  destruct (Hg a (tr ++ evs1)) as (evs2 & Hh2 & H2).
  exists (evs1 ++ evs2). rewrite Hh2, <-app_assoc. split; [done|].
  rewrite stdoutWrites_app.
  destruct (g a (tr ++ evs1)) as [b tr2|e tr2|tr2].
  - destruct H2 as (used2 & -> & Hsub2). exists (used1 ++ used2).
    rewrite <-app_assoc. split; [done|by apply sublist_app].
  - by apply sublist_app.
  - by apply sublist_app.
Qed.

Lemma copies_skip {A : Type} (o : string) (out : list string)
    (rest : A → list string) (f : M A) :
  copiesFrom out rest f → copiesFrom (o :: out) rest f.
Proof.
  intros Hf tr. destruct (Hf tr) as (evs & Hh & H). exists evs. split; [done|].
  destruct (f tr) as [a tr1|e tr1|tr1]; [|by apply sublist_cons..].
  destruct H as (used & -> & Hsub). exists (o :: used).
  split; [done|by apply sublist_cons].
Qed.

Lemma copies_write env (o : string) (out : list string) :
  copiesFrom (o :: out) (λ _ : (), out) (perform env (StdoutWrite o)).
Proof.
  intros tr. destruct (perform_cases env (StdoutWrite o) tr) as [[_ ->]|(e & _ & ->)];
    eexists [_]; (split; [done|]); cbn.
  - exists [o]. split; [done|]. apply sublist_skip, sublist_nil_l.
  - apply sublist_skip, sublist_nil_l.
Qed.

Lemma copies_silent env (a : action) (out : list string) :
  (∀ p, a ≠ StdoutWrite p) →
  copiesFrom out (λ _ : (), out) (perform env a).
Proof.
  intros Ha tr.
  assert (∀ f, stdoutWrites [Event a f] = []) as Hnone
    by (intros f; destruct a; try done; by destruct (Ha p)).
  destruct (perform_cases env a tr) as [[_ ->]|(e & _ & ->)];
    eexists [_]; (split; [done|]); rewrite Hnone.
  - by exists [].
  - apply sublist_nil_l.
Qed.

Lemma copies_sublist {A : Type} (out : list string) (rest : A → list string)
    (f : M A) (tr : list event) :
  copiesFrom out rest f →
  ∃ evs, history (f tr) = tr ++ evs ∧ stdoutWrites evs `sublist_of` out.
Proof.
  intros Hf. destruct (Hf tr) as (evs & Hh & H). exists evs. split; [done|].
  destruct (f tr) as [a tr1|e tr1|tr1]; [|done..].
  destruct H as (used & -> & Hsub). by apply sublist_inserts_r.
Qed.

Lemma copies_quietly {A : Type} (out : list string) (f : M A) :
  (∀ tr, history (f tr) = tr) → copiesFrom out (λ _, out) f.
Proof.
  intros Hf tr. exists []. rewrite app_nil_r. split; [done|].
  destruct (f tr); [by exists []|apply sublist_nil_l..].
Qed.

Lemma index_history l i tr : history (index l i tr) = tr.
Proof. unfold index. by destruct (l !! i). Qed.

Lemma slice_history o tr : history (slice o tr) = tr.
Proof. unfold slice. by destruct o. Qed.

(** One step of a proof that a computation copies from the child. *)
Ltac copies_step :=
  first
    [ assumption
    | apply copies_panic
    | apply copies_ret; reflexivity
    | eapply copies_bind; [apply copies_write|intros ?]
    | eapply copies_bind;
      [apply copies_silent; intros ?; discriminate|intros ?]
    | eapply copies_bind;
      [apply copies_quietly; first [apply index_history | apply slice_history]
      |intros ?]
    | apply copies_silent; intros ?; discriminate
    | match goal with
      | |- copiesFrom _ _ (if ?b then _ else _) => destruct b
      | |- copiesFrom _ _ (match ?x with _ => _ end) => destruct x
      end ].

Section CopiesFromChild.

Variable env : list event → action → option error.
Variable mapRange : list event → gmap string string → list (string * string).
Variable packetEncode : string → string.

Lemma forwardUntilFlush_copies out :
  copiesFrom out (λ rest, rest) (forwardUntilFlush env out).
Proof.
  induction out as [|o out IH]; cbn [forwardUntilFlush]; repeat copies_step.
Qed.

Lemma listForPushResponse_copies out tips :
  copiesFrom out snd (listForPushResponse env out tips).
Proof.
  revert tips. induction out as [|o out IH]; intros tips;
    cbn [listForPushResponse]; repeat copies_step. apply IH.
Qed.

Lemma pushReport_copies out : copiesFrom out (λ rest, rest) (pushReport env out).
Proof.
  induction out as [|o out IH]; cbn [pushReport]; [repeat copies_step|].
  destruct (negb (Go.Contains o gittufRefPrefix)).
  - repeat copies_step.
  - apply copies_skip.
    eapply copies_bind; [by apply (copies_ret out (λ _, out))|intros ?].
    repeat copies_step.
Qed.

Lemma lsRefsResponseDrain_copies out tips :
  copiesFrom out snd (lsRefsResponseDrain env out tips).
Proof.
  revert tips. induction out as [|o out IH]; intros tips;
    cbn [lsRefsResponseDrain]; [repeat copies_step|].
  eapply copies_bind;
    [apply copies_quietly, recordAdvertisedRef_history|intros tips'].
  repeat copies_step. apply IH.
Qed.

Lemma packfileDrain_copies stdin out :
  copiesFrom out exitOut (packfileDrain env stdin out).
Proof.
  induction out as [|o out IH]; cbn [packfileDrain]; repeat copies_step.
Qed.

Lemma recordAndForward_copies out tips c :
  copiesFrom out (λ _, out) (recordAndForward env tips c).
Proof.
  unfold recordAndForward.
  eapply (copies_bind out (λ _, out)); [|intros ?; repeat copies_step].
  repeat copies_step.
Qed.

Lemma forwardPushCommands_copies out tips cmds :
  copiesFrom out (λ _, out) (forwardPushCommands env tips cmds).
Proof.
  induction cmds as [|c cmds IH]; cbn [forwardPushCommands]; [repeat copies_step|].
  eapply copies_bind; [apply recordAndForward_copies|by intros ?].
Qed.

Lemma endPushBatch_copies out tips cmds :
  copiesFrom out (λ _, out) (endPushBatch env tips cmds).
Proof.
  unfold endPushBatch.
  eapply copies_bind; [apply forwardPushCommands_copies|intros ?].
  eapply (copies_bind out (λ _, out)); [|intros ?]; repeat copies_step.
Qed.

Lemma pushBatch_copies out tips cmds command stdin :
  copiesFrom out (λ _, out) (pushBatch env tips cmds command stdin).
Proof.
  revert cmds command. induction stdin as [|c stdin IH]; intros cmds command;
    cbn [pushBatch];
    (destruct (Go.Equal command LF);
     [eapply copies_bind; [apply endPushBatch_copies|intros ?];
      repeat copies_step|]).
  - repeat copies_step.
  - apply IH.
Qed.

Lemma writeWants_copies out entries :
  copiesFrom out (λ _, out) (writeWants env packetEncode entries).
Proof.
  induction entries as [|[k v] entries IH]; cbn [writeWants]; repeat copies_step.
Qed.

Lemma dispatch_copies s command stdin out :
  copiesFrom out stepOut (dispatch env mapRange packetEncode s command stdin out).
Proof.
  unfold dispatch. destruct (currentState s).
  - unfold dispatchStart.
    destruct (Go.HasPrefix command "stateless-connect").
    { repeat copies_step.
      eapply copies_bind; [apply forwardUntilFlush_copies|intros ?].
      repeat copies_step. }
    destruct (Go.HasPrefix command "list for-push").
    { repeat copies_step.
      eapply copies_bind; [apply listForPushResponse_copies|intros ?].
      repeat copies_step. }
    destruct (Go.HasPrefix command "push").
    { eapply copies_bind; [apply pushBatch_copies|intros ?].
      eapply copies_bind; [apply pushReport_copies|intros ?].
      repeat copies_step. }
    repeat copies_step.
    eapply copies_bind; [apply forwardUntilFlush_copies|intros ?].
    repeat copies_step.
  - unfold dispatchServiceRouter. repeat copies_step.
  - unfold dispatchLsRefs.
    eapply copies_bind with (rest1 := λ _, out); [repeat copies_step|intros s'].
    repeat copies_step.
    eapply copies_bind; [apply lsRefsResponseDrain_copies|intros ?].
    repeat copies_step.
  - repeat copies_step.
  - unfold dispatchRequestingWants.
    eapply copies_bind with (rest1 := λ _, out); [|intros s'].
    { destruct (Go.Equal command flushPkt); [|repeat copies_step]. cbn [negb].
      eapply copies_bind;
        [apply copies_quietly; by intros ?|intros entries].
      eapply copies_bind; [apply writeWants_copies|intros ?].
      repeat copies_step. }
    repeat copies_step.
    eapply copies_bind; [apply packfileDrain_copies|intros exit].
    destruct exit; repeat copies_step.
  - repeat copies_step.
  - repeat copies_step.
Qed.

Lemma mainLoop_copies fuel s scanned stdin out tr :
  ∃ evs,
    history (mainLoop env mapRange packetEncode fuel s scanned stdin out tr)
    = tr ++ evs
    ∧ stdoutWrites evs `sublist_of` out.
Proof.
  revert s scanned stdin out tr.
  induction fuel as [|fuel IH]; intros s scanned stdin out tr; cbn [mainLoop].
  { exists []. rewrite ret_run, app_nil_r. split; [done|apply sublist_nil_l]. }
  destruct (scan scanned stdin) as [[command stdin1]|].
  2:{ exists []. rewrite ret_run, app_nil_r. split; [done|apply sublist_nil_l]. }
  rewrite bind_run.
  destruct (dispatch_copies s command stdin1 out tr) as (evs1 & Hh1 & H1).
  destruct (dispatch env mapRange packetEncode s command stdin1 out tr)
    as [st tr1|e tr1|tr1]; cbn [history] in Hh1; subst tr1; [|by exists evs1..].
  destruct H1 as (used & -> & Hsub1).
  assert (∀ r : result (option session),
            (∃ evs2, history r = (tr ++ evs1) ++ evs2
                     ∧ stdoutWrites evs2 `sublist_of` stepOut st) →
            ∃ evs, history r = tr ++ evs
                   ∧ stdoutWrites evs `sublist_of` used ++ stepOut st) as Hjoin.
  { intros r (evs2 & -> & Hsub2). exists (evs1 ++ evs2).
    rewrite <-app_assoc, stdoutWrites_app. split; [done|by apply sublist_app]. }
  apply Hjoin.
  destruct st as [s1 stdin2 out2|s1 c2 stdin2 out2]; cbn [stepOut]; [|apply IH].
  destruct (decide (currentState s1 = packfileDone)); [|apply IH].
  exists []. rewrite ret_run, app_nil_r. split; [done|apply sublist_nil_l].
Qed.

Lemma sublist_copies {A : Type} (out : list string) (f : M A) :
  (∀ tr, ∃ evs, history (f tr) = tr ++ evs ∧ stdoutWrites evs `sublist_of` out) →
  copiesFrom out (λ _, []) f.
Proof.
  intros Hf tr. destruct (Hf tr) as (evs & Hh & Hsub). exists evs. split; [done|].
  destruct (f tr); [|done..]. exists out. by rewrite app_nil_r.
Qed.

Lemma handleCurl_copies remoteName url stdin out :
  copiesFrom out (λ _, [])
    (handleCurl env mapRange packetEncode remoteName url stdin out).
Proof.
  unfold handleCurl, translate, startHelper, shutdown.
  eapply (copies_bind out (λ _, [])).
  - eapply (copies_bind out (λ _, out)); [repeat copies_step|intros ?].
    apply sublist_copies. intros tr. apply mainLoop_copies.
  - intros [s|]; [|repeat copies_step].
    eapply (copies_bind [] (λ _, [])); [|intros ?]; repeat copies_step.
Qed.

End CopiesFromChild.

(** X1.  Whatever fails, the packets that a run of the handler writes to the
    controller are packets of the child's output, in the order in which the
    child sent them: none is made up, written twice or out of order. *)
Theorem controller_receives_child_packets
    (env : list event → action → option error)
    (mapRange : list event → gmap string string → list (string * string))
    (packetEncode : string → string)
    (remoteName url : string) (stdin helperOut : list string) :
  stdoutWrites
    (history (handleCurl env mapRange packetEncode remoteName url stdin helperOut []))
  `sublist_of` helperOut.
Proof.
  destruct (copies_sublist helperOut (λ _, [])
              (handleCurl env mapRange packetEncode remoteName url stdin helperOut)
              []) as (evs & Hh & Hsub); [apply handleCurl_copies|].
  rewrite Hh. exact Hsub.
Qed.

(** ** What reaches the child *)

#[local] Set Warnings "-clear-no-such-hyp".

Lemma follows_bind {A B : Type} (P : action → Prop) (m : M A) (g : A → M B) tr :
  follows P tr (m tr) →
  (∀ a tr', m tr = Ok a tr' → follows P tr' (g a tr')) →
  follows P tr ((m ≫= g) tr).
Proof.
  rewrite bind_run.
  destruct (m tr) as [a tr1|e tr1|tr1]; intros Hm Hg;
    [|inversion Hm; subst; by constructor..].
  specialize (Hg a tr1 eq_refl).
  inversion Hm as [a' evs Hc HP|?|?]; subst.
  destruct Hg as [b evs' Hc' HP'|evs' Hc' HP'|e evs' a'' Hc' HP' Ha''];
    rewrite <-?app_assoc.
  - apply follows_ok; by apply Forall_app.
  - apply follows_panic; by apply Forall_app.
  - rewrite (app_assoc evs). apply follows_err; [by apply Forall_app..|done].
Qed.

Section TokensDiscipline.

Variable env : list event → action → option error.
Variable mapRange : list event → gmap string string → list (string * string).
Variable packetEncode : string → string.
Variable P : action → Prop.
Hypothesis P_controller : ∀ p, P (StdoutWrite p).
Hypothesis P_record : ∀ dstRef srcRef, P (RslRecord dstRef srcRef).

(** The line feed at the end of a push batch is the one that was read. *)
Lemma pushBatch_tokens_disciplined tips cmds command stdin :
  (∀ c, c ∈ cmds ++ command :: stdin → P (HelperStdInWrite c)) →
  P (HelperStdInWrite rslPushCommand) →
  disciplined P (pushBatch env tips cmds command stdin).
Proof.
  intros Hcmds Hrsl. revert cmds command Hcmds.
  induction stdin as [|c stdin IH]; intros cmds command Hcmds; cbn [pushBatch];
    (destruct (Go.Equal command LF) eqn:Hlf;
     [apply Equal_true in Hlf as ->;
      apply disciplined_bind;
      [apply endPushBatch_disciplined; auto;
       [intros c' Hc'|]; apply Hcmds; set_solver
      |intros _; apply disciplined_ret]|]).
  - apply disciplined_ret.
  - apply IH. intros c' Hc'. apply Hcmds. rewrite <-app_assoc in Hc'. done.
Qed.

Lemma dispatch_tokens_disciplined s command stdin out :
  (∀ c, c ∈ command :: stdin ++ pushCommands s → P (HelperStdInWrite c)) →
  P (HelperStdInWrite (packetEncode gittufRefPrefixCommand)) →
  P (HelperStdInWrite rslPushCommand) →
  (∀ tip, P (HelperStdInWrite (wantPacket packetEncode tip))) →
  disciplined P (dispatch env mapRange packetEncode s command stdin out).
Proof.
  intros Htokens Hprefix Hrsl Hwants.
  destruct (decide (currentState s = start
                    ∧ Go.HasPrefix command "stateless-connect" = false
                    ∧ Go.HasPrefix command "list for-push" = false
                    ∧ Go.HasPrefix command "push" = true))
    as [(Hst & H1 & H2 & H3)|Hother].
  - unfold dispatch, dispatchStart. rewrite Hst, H1, H2, H3.
    apply disciplined_bind.
    + apply pushBatch_tokens_disciplined; [|done].
      intros c Hc. apply Htokens. cbn [pushCommands withIsPush] in Hc.
      rewrite app_comm_cons. apply elem_of_app.
      apply elem_of_app in Hc as [Hc|Hc]; auto.
    + intros r. apply disciplined_bind; [by apply pushReport_disciplined|].
      intros ?. apply disciplined_ret.
  - assert (P (HelperStdInWrite command)) as Hcommand
      by (apply Htokens; set_solver).
    pose proof (forwardUntilFlush_disciplined env P P_controller).
    pose proof (listForPushResponse_disciplined env P P_controller).
    pose proof (lsRefsResponseDrain_disciplined env P P_controller).
    pose proof (packfileDrain_disciplined env P P_controller).
    unfold dispatch. destruct (currentState s) eqn:Hst.
    + unfold dispatchStart.
      destruct (Go.HasPrefix command "stateless-connect") eqn:Hsc; [discipline|].
      destruct (Go.HasPrefix command "list for-push") eqn:Hlist; [discipline|].
      destruct (Go.HasPrefix command "push") eqn:Hpush; [|discipline].
      by destruct Hother.
    + unfold dispatchServiceRouter. discipline.
    + unfold dispatchLsRefs. discipline.
    + discipline.
    + unfold dispatchRequestingWants.
      destruct (Go.Equal command flushPkt); [|discipline].
      apply disciplined_bind; [|intros ?; discipline].
      cbn [negb]. apply disciplined_bind; [apply disciplined_rangeMap|].
      intros entries. apply disciplined_bind; [|intros ?; discipline].
      by apply writeWants_disciplined.
    + discipline.
    + discipline.
Qed.

End TokensDiscipline.

Lemma pushBatch_leaves env tips cmds command stdin tr r tr' :
  pushBatch env tips cmds command stdin tr = Ok r tr' →
  ∀ c, c ∈ r.2 ++ r.1 → c ∈ cmds ++ command :: stdin.
Proof.
  revert cmds command tr. induction stdin as [|c0 stdin IH];
    intros cmds command tr; cbn [pushBatch]; intros H c; ok_inv; cbn.
  - set_solver.
  - set_solver.
  - set_solver.
  - intros Hc. apply (IH _ _ _ H) in Hc. rewrite <-app_assoc in Hc. done.
Qed.

Lemma packfileDrain_leaves env stdin out tr exit tr' :
  packfileDrain env stdin out tr = Ok exit tr' →
  match exit with
  | PackfileBreak stdin' _ => stdin' ⊆ stdin
  | PackfileGoto command stdin' _ => command :: stdin' ⊆ stdin
  end.
Proof.
  revert tr. induction out as [|o out IH]; intros tr; cbn [packfileDrain];
    intros H; ok_inv; [done| |by eapply IH].
  destruct stdin as [|c stdin]; ok_inv; cbn; set_solver.
Qed.

Lemma dispatch_leaves env mapRange packetEncode s command stdin out tr st tr' :
  dispatch env mapRange packetEncode s command stdin out tr = Ok st tr' →
  stepTokens st ⊆ command :: stdin ++ pushCommands s.
Proof.
  unfold dispatch, dispatchStart, dispatchServiceRouter, dispatchLsRefs,
    dispatchRequestingWants.
  intros H. destruct (currentState s); ok_inv;
    repeat match goal with
      | H : packfileDrain _ _ _ _ = Ok _ _ |- _ => apply packfileDrain_leaves in H
      | H : pushBatch _ _ _ _ _ _ = Ok _ _ |- _ =>
          pose proof (pushBatch_leaves _ _ _ _ _ _ _ _ H); clear H
      | H : match ?x with PackfileBreak _ _ => _ | PackfileGoto _ _ _ => _ end _
            = Ok _ _ |- _ => destruct x
      end; ok_inv;
    repeat match goal with
      | |- context [if ?b then _ else _] => destruct b
      end; cbn in *; set_solver.
Qed.

Section RunDiscipline.

Variable env : list event → action → option error.
Variable mapRange : list event → gmap string string → list (string * string).
Variable packetEncode : string → string.
Variable tokens : list string.

Lemma fromTokens_other (a : action) :
  (∀ p, a ≠ HelperStdInWrite p) → fromTokens packetEncode tokens a.
Proof. intros Ha p ->. by destruct (Ha p). Qed.

Lemma mainLoop_fromTokens fuel s scanned stdin out tr :
  pending scanned stdin ++ pushCommands s ⊆ tokens →
  follows (fromTokens packetEncode tokens) tr
    (mainLoop env mapRange packetEncode fuel s scanned stdin out tr).
Proof.
  revert s scanned stdin out tr.
  induction fuel as [|fuel IH]; intros s scanned stdin out tr Hsub;
    cbn [mainLoop]; [apply disciplined_ret|].
  destruct (scan scanned stdin) as [[command stdin1]|] eqn:Hscan;
    [|apply disciplined_ret].
  assert (pending scanned stdin = command :: stdin1) as Hpend.
  { destruct scanned; [by injection Hscan as <- <-|].
    destruct stdin; [done|]. by injection Hscan as <- <-. }
  rewrite Hpend in Hsub.
  apply follows_bind.
  - apply dispatch_tokens_disciplined.
    + intros p. by apply fromTokens_other.
    + intros dst src. by apply fromTokens_other.
    + intros c Hc p [= <-]. left. by apply Hsub.
    + intros p [= <-]. right. by left.
    + intros p [= <-]. right. right. by left.
    + intros tip p [= <-]. right. right. right. by exists tip.
  - intros st tr1 Hstep. apply dispatch_leaves in Hstep.
    destruct st as [s1 stdin2 out2|s1 c2 stdin2 out2]; cbn [stepTokens] in Hstep.
    + destruct (decide (currentState s1 = packfileDone)); [apply disciplined_ret|].
      apply IH. cbn [pending]. set_solver.
    + apply IH. cbn [pending]. set_solver.
Qed.

Lemma handleCurl_fromTokens remoteName url stdin out :
  stdin ⊆ tokens →
  follows (fromTokens packetEncode tokens) []
    (handleCurl env mapRange packetEncode remoteName url stdin out []).
Proof.
  intros Hsub. unfold handleCurl, translate, startHelper, shutdown.
  assert (∀ a, (∀ p, a ≠ HelperStdInWrite p) →
               disciplined (fromTokens packetEncode tokens) (perform env a))
    as Hperf by (intros a Ha; by apply disciplined_perform, fromTokens_other).
  apply follows_bind.
  - apply follows_bind.
    + apply disciplined_bind; [by apply Hperf|intros _].
      apply disciplined_bind; [by apply Hperf|intros _]. by apply Hperf.
    + intros _ tr1 _. apply mainLoop_fromTokens. cbn [pending pushCommands].
      rewrite app_nil_r. done.
  - intros [s|] tr1 _; [|apply disciplined_ret].
    apply disciplined_bind; [|intros ?; apply disciplined_ret].
    apply disciplined_bind; [by apply Hperf|intros _].
    apply disciplined_bind; [by apply Hperf|intros _].
    apply disciplined_bind; [by apply Hperf|intros _]. apply disciplined_ret.
Qed.

End RunDiscipline.

(** X2.  Whatever fails, a packet that a run of the handler writes to the
    child is a token it read from the controller, handed on as it is, or one
    of the three things the handler adds: the ref-prefix packet, the push of
    the reference state log, a want packet. *)
Theorem child_receives_tokens_or_additions
    (env : list event → action → option error)
    (mapRange : list event → gmap string string → list (string * string))
    (packetEncode : string → string)
    (remoteName url : string) (stdin helperOut : list string) (p : string) :
  p ∈ childWrites
        (history (handleCurl env mapRange packetEncode remoteName url stdin
                    helperOut [])) →
  p ∈ stdin
  ∨ p = packetEncode gittufRefPrefixCommand
  ∨ p = rslPushCommand
  ∨ ∃ tip, p = wantPacket packetEncode tip.
Proof.
  intros Hin.
  pose proof (handleCurl_fromTokens env mapRange packetEncode stdin
                remoteName url stdin helperOut (reflexivity _)) as Hrun.
  apply (follows_actions (fromTokens packetEncode stdin)) in Hrun.
  unfold childWrites in Hin. apply list_elem_of_omap in Hin as (ev & Hev & Hact).
  rewrite Forall_forall in Hrun. specialize (Hrun ev Hev).
  destruct (act ev) as [| | |q| | | | |] eqn:Ha; try done.
  injection Hact as ->. by apply (Hrun p).
Qed.

Lemma child_receives_tokens_or_additions_witness :
  "001cref-prefix refs/gittuf/" +:+ LF
  ∈ ["stateless-connect git-upload-pack" +:+ LF;
     "0014command=ls-refs" +:+ LF; flushPkt]
  ∨ "001cref-prefix refs/gittuf/" +:+ LF = pktLine gittufRefPrefixCommand
  ∨ "001cref-prefix refs/gittuf/" +:+ LF = rslPushCommand
  ∨ ∃ tip, "001cref-prefix refs/gittuf/" +:+ LF = wantPacket pktLine tip.
Proof.
  apply (child_receives_tokens_or_additions quiet rangeSorted pktLine
           "origin" "https://example.com/repo"
           ["stateless-connect git-upload-pack" +:+ LF;
            "0014command=ls-refs" +:+ LF; flushPkt]
           [flushPkt; endOfReadPkt]
           ("001cref-prefix refs/gittuf/" +:+ LF)).
  apply list_elem_of_In. vm_compute. tauto.
Defined.

(** ** Where the handler can panic *)

Lemma safe_ret {A : Type} (a : A) : safe (mret a).
Proof. intros tr tr'. by rewrite ret_run. Qed.

Lemma safe_perform env a : safe (perform env a).
Proof. intros tr tr'. unfold perform. by destruct (env tr a). Qed.

Lemma safe_bind {A B : Type} (m : M A) (g : A → M B) :
  safe m → (∀ a, safe (g a)) → safe (m ≫= g).
Proof.
  intros Hm Hg tr tr'. rewrite bind_run.
  destruct (m tr) as [a tr1|e tr1|tr1] eqn:Hrun; [apply Hg|done|].
  by destruct (Hm tr tr1).
Qed.

Lemma safe_rangeMap mapRange m : safe (rangeMap mapRange m).
Proof. by intros tr tr'. Qed.

(** One step of a proof that a computation does not panic. *)
Ltac safe_step :=
  first
    [ assumption
    | apply safe_ret
    | apply safe_perform
    | apply safe_rangeMap
    | apply safe_bind; [|intros ?]
    | match goal with
      | |- safe (if ?b then _ else _) => destruct b
      | |- safe (match ?x with _ => _ end) => destruct x
      end ].

Section Safety.

Variable env : list event → action → option error.
Variable mapRange : list event → gmap string string → list (string * string).
Variable packetEncode : string → string.

Lemma forwardUntilFlush_safe out : safe (forwardUntilFlush env out).
Proof. induction out as [|o out IH]; cbn [forwardUntilFlush]; repeat safe_step. Qed.

Lemma listForPushResponse_safe out tips : safe (listForPushResponse env out tips).
Proof.
  revert tips. induction out as [|o out IH]; intros tips;
    cbn [listForPushResponse]; repeat safe_step. apply IH.
Qed.

Lemma pushReport_safe out : safe (pushReport env out).
Proof. induction out as [|o out IH]; cbn [pushReport]; repeat safe_step. Qed.

Lemma packfileDrain_safe stdin out : safe (packfileDrain env stdin out).
Proof. induction out as [|o out IH]; cbn [packfileDrain]; repeat safe_step. Qed.

Lemma writeWants_safe entries : safe (writeWants env packetEncode entries).
Proof.
  induction entries as [|[k v] entries IH]; cbn [writeWants]; repeat safe_step.
Qed.

Lemma forwardPushCommands_safe cmds : safe (forwardPushCommands env ∅ cmds).
Proof.
  induction cmds as [|c cmds IH]; cbn [forwardPushCommands]; [apply safe_ret|].
  apply safe_bind; [|by intros ?].
  intros tr tr'. rewrite recordAndForward_run.
  rewrite (proj2 (gittufEnabled_false ∅)) by done. apply safe_perform.
Qed.

Lemma pushBatch_safe cmds command stdin : safe (pushBatch env ∅ cmds command stdin).
Proof.
  revert cmds command. induction stdin as [|c stdin IH]; intros cmds command;
    cbn [pushBatch];
    (destruct (Go.Equal command LF);
     [unfold endPushBatch; repeat safe_step; apply forwardPushCommands_safe|]).
  - apply safe_ret.
  - apply IH.
Qed.

End Safety.

(** X5.  Whatever fails, a pass through the switch panics in three situations
    only: on a stateless-connect command that has no space after trimming,
    and so no service name; in a push batch when gittufRefsTips is not empty;
    and in the drain of the ls-refs answer, after the flush-pkt of the
    request.  Every other pass returns or fails with an error. *)
Theorem panics_in_three_places_only
    (env : list event → action → option error)
    (mapRange : list event → gmap string string → list (string * string))
    (packetEncode : string → string)
    (s : session) (command : string) (stdin out : list string)
    (tr tr' : list event) :
  dispatch env mapRange packetEncode s command stdin out tr = Panic tr' →
  (currentState s = start
   ∧ Go.HasPrefix command "stateless-connect" = true
   ∧ " "%char ∉ chars (Go.TrimSpace command))
  ∨ (currentState s = start
     ∧ Go.HasPrefix command "push" = true
     ∧ gittufRefsTips s ≠ ∅)
  ∨ (currentState s = lsRefs ∧ command = flushPkt).
Proof.
  pose proof (forwardUntilFlush_safe env) as Hfw.
  pose proof (listForPushResponse_safe env) as Hlist.
  pose proof (pushReport_safe env) as Hrep.
  pose proof (packfileDrain_safe env) as Hpack.
  pose proof (writeWants_safe env packetEncode) as Hwants.
  assert (∀ f : M step, safe f → f tr = Panic tr' → False) as Hsafe
    by (intros f Hf Hrun; by destruct (Hf tr tr')).
  assert (∀ cmds c0 l, safe (pushBatch env ∅ cmds c0 l)) as Hbatch
    by apply pushBatch_safe.
  unfold dispatch. destruct (currentState s) eqn:Hst.
  - unfold dispatchStart.
    destruct (Go.HasPrefix command "stateless-connect") eqn:Hsc.
    { unfold index.
      destruct (Go.Split (Go.TrimSpace command) " " !! 1) as [svc|] eqn:Hsvc.
      - intros []%Hsafe. repeat first [apply Hfw | safe_step].
      - intros _. left. split; [done|]. split; [done|].
        intros Hin%Split_second. rewrite Hsvc in Hin. by destruct Hin. }
    destruct (Go.HasPrefix command "list for-push").
    { intros []%Hsafe. repeat first [apply Hlist | safe_step]. }
    destruct (Go.HasPrefix command "push") eqn:Hpush.
    { destruct (decide (gittufRefsTips s = ∅)) as [Hemp|Hne]; [|by auto].
      intros []%Hsafe. cbn [gittufRefsTips pushCommands withIsPush].
      rewrite Hemp. repeat first [apply Hbatch | apply Hrep | safe_step]. }
    intros []%Hsafe. repeat first [apply Hfw | safe_step].
  - intros []%Hsafe. unfold dispatchServiceRouter. repeat safe_step.
  - destruct (decide (command = flushPkt)) as [->|Hne]; [by auto|].
    unfold dispatchLsRefs.
    rewrite (proj2 (Equal_false command flushPkt)) by done.
    rewrite bind_run, ret_run, bind_run.
    destruct (perform_cases env (HelperStdInWrite command) tr)
      as [[_ ->]|(e & _ & ->)]; [|done].
    destruct (decide (currentState s = lsRefsResponse)); [congruence|done].
  - intros []%Hsafe. apply safe_ret.
  - intros []%Hsafe. unfold dispatchRequestingWants.
    repeat first [apply Hwants | apply Hpack | safe_step].
  - intros []%Hsafe. apply safe_ret.
  - intros []%Hsafe. apply safe_ret.
Qed.

Lemma panics_in_three_places_only_witness :
  (currentState initialSession = start
   ∧ Go.HasPrefix ("stateless-connect" +:+ LF) "stateless-connect" = true
   ∧ " "%char ∉ chars (Go.TrimSpace ("stateless-connect" +:+ LF)))
  ∨ (currentState initialSession = start
     ∧ Go.HasPrefix ("stateless-connect" +:+ LF) "push" = true
     ∧ gittufRefsTips initialSession ≠ ∅)
  ∨ (currentState initialSession = lsRefs
     ∧ "stateless-connect" +:+ LF = flushPkt).
Proof.
  apply (panics_in_three_places_only quiet rangeSorted pktLine initialSession
           ("stateless-connect" +:+ LF) [] [] [] []).
  reflexivity.
Defined.

(** ** The commands of the top-level menu *)

(** X3.  A stateless-connect command with a service name, nothing failing, is
    written to the child as it is; the child's first answer is copied to the
    controller up to and including the first flush-pkt; and the session goes
    to the service router with the second space-separated part of the
    trimmed command as its service. *)
Theorem stateless_connect_enters_service_router
    (mapRange : list event → gmap string string → list (string * string))
    (packetEncode : string → string)
    (s : session) (command svc : string) (stdin ps rest : list string)
    (tr : list event) :
  currentState s = start →
  Go.HasPrefix command "stateless-connect" = true →
  Go.Split (Go.TrimSpace command) " " !! 1 = Some svc →
  flushPkt ∉ ps →
  dispatch quiet mapRange packetEncode s command stdin (ps ++ flushPkt :: rest) tr
  = Ok (Next (withState serviceRouter (withService svc s)) stdin rest)
       (tr ++ toChild command :: map toController (ps ++ [flushPkt])).
Proof.
  intros Hst Hsc Hsvc Hps. unfold dispatch, dispatchStart, index.
  rewrite Hst, Hsc, Hsvc. run_quiet.
  rewrite forwardUntilFlush_quiet, throughFlush_app, afterFlush_app by done.
  run_quiet. by rewrite <-app_assoc.
Qed.

Lemma stateless_connect_enters_service_router_witness :
  dispatch quiet rangeSorted pktLine initialSession
    ("stateless-connect git-upload-pack" +:+ LF) ["0014command=ls-refs" +:+ LF]
    (["000eversion 2" +:+ LF] ++ flushPkt :: []) []
  = Ok (Next (withState serviceRouter (withService "git-upload-pack" initialSession))
          ["0014command=ls-refs" +:+ LF] [])
       ([] ++ toChild ("stateless-connect git-upload-pack" +:+ LF)
           :: map toController (["000eversion 2" +:+ LF] ++ [flushPkt])).
Proof.
  apply (stateless_connect_enters_service_router rangeSorted pktLine
           initialSession ("stateless-connect git-upload-pack" +:+ LF)
           "git-upload-pack" ["0014command=ls-refs" +:+ LF]
           ["000eversion 2" +:+ LF] [] []); try reflexivity.
  intros H. apply list_elem_of_In in H. vm_compute in H. intuition discriminate.
Defined.

Lemma listForPushResponse_quiet (out : list string) tips (tr : list event) :
  listForPushResponse quiet out tips tr
  = Ok (foldl (λ t o, recordListedRef o t) tips (throughFlush out), afterFlush out)
       (tr ++ map toController (throughFlush out)).
Proof.
  revert tips tr. induction out as [|o out IH]; intros tips tr;
    cbn [listForPushResponse throughFlush afterFlush].
  - by rewrite ret_run, app_nil_r.
  - run_quiet. destruct (Go.Equal o flushPkt).
    + by rewrite ret_run.
    + rewrite IH, <-app_assoc. done.
Qed.

Lemma recordListedRef_cases output tips :
  (listsGittufRef output = false ∧ recordListedRef output tips = tips)
  ∨ (listsGittufRef output = true
     ∧ ∃ refName oid, recordListedRef output tips = <[refName := oid]> tips).
Proof.
  unfold recordListedRef, listsGittufRef.
  pose proof (Split_nonempty (Go.TrimSpace output) " ").
  destruct (Go.Split (Go.TrimSpace output) " ") as [|oid [|refName pieces]];
    [done|by left|]. cbn.
  destruct (Go.HasPrefix refName gittufRefPrefix); [right|left]; eauto.
Qed.

Lemma foldl_recordListedRef_empty lines tips :
  foldl (λ t o, recordListedRef o t) tips lines = ∅
  ↔ tips = ∅ ∧ Forall (λ o, listsGittufRef o = false) lines.
Proof.
  revert tips. induction lines as [|o lines IH]; intros tips; cbn [foldl].
  - split; [by intros ->|by intros [-> _]].
  - rewrite IH.
    destruct (recordListedRef_cases o tips) as [[Hno ->]|(Hyes & name & oid & ->)].
    + split; [intros [-> Hall]; by split; [|constructor]
             |intros [-> Hall]; split; [done|by inversion Hall]].
    + split; [by intros [?%insert_non_empty _]|].
      intros [_ Hall]. inversion Hall; congruence.
Qed.

(** X4.  A list for-push command, nothing failing, is written to the child as
    it is, and the child's answer is copied to the controller up to and
    including the first flush-pkt; the session stays at the top-level menu.
    After it the remote counts as gittuf-enabled, gittufRefsTips being not
    empty, exactly when it did before or a line of the answer advertises a
    name under [refs/gittuf/]. *)
Theorem list_for_push_detects_gittuf
    (mapRange : list event → gmap string string → list (string * string))
    (packetEncode : string → string)
    (s : session) (command : string) (stdin ps rest : list string)
    (tr : list event) :
  currentState s = start →
  Go.HasPrefix command "stateless-connect" = false →
  Go.HasPrefix command "list for-push" = true →
  flushPkt ∉ ps →
  ∃ tips,
    dispatch quiet mapRange packetEncode s command stdin (ps ++ flushPkt :: rest) tr
    = Ok (Next (withTips tips s) stdin rest)
         (tr ++ toChild command :: map toController (ps ++ [flushPkt]))
    ∧ (tips ≠ ∅ ↔ gittufRefsTips s ≠ ∅ ∨ Exists (λ o, listsGittufRef o = true) ps).
Proof.
  intros Hst Hsc Hlist Hps.
  exists (foldl (λ t o, recordListedRef o t) (gittufRefsTips s) (ps ++ [flushPkt])).
  split.
  - unfold dispatch, dispatchStart. rewrite Hst, Hsc, Hlist. run_quiet.
    rewrite listForPushResponse_quiet, throughFlush_app, afterFlush_app by done.
    run_quiet. cbn [fst snd]. by rewrite <-app_assoc.
  - rewrite foldl_recordListedRef_empty, Forall_app.
    assert (Forall (λ o, listsGittufRef o = false) [flushPkt]) as Hflush
      by (by repeat constructor).
    split.
    + intros Hnot.
      destruct (decide (gittufRefsTips s = ∅)) as [Hemp|Hne]; [right|by left].
      destruct (decide (Exists (λ o, listsGittufRef o = true) ps)) as [|Hnone];
        [done|].
      destruct Hnot. split; [done|]. split; [|done].
      apply Forall_forall. intros o Ho. apply not_true_iff_false. intros Hyes.
      apply Hnone, Exists_exists. eauto.
    + intros [Hne|Hex] (Hemp & Hall & _); [done|].
      apply Exists_exists in Hex as (o & Ho & Hyes).
      rewrite Forall_forall in Hall. specialize (Hall o Ho). congruence.
Qed.

Lemma list_for_push_detects_gittuf_witness :
  ∃ tips,
    dispatch quiet rangeSorted pktLine initialSession ("list for-push" +:+ LF) []
      (["abc refs/gittuf/policy" +:+ LF] ++ flushPkt :: []) []
    = Ok (Next (withTips tips initialSession) [] [])
         ([] ++ toChild ("list for-push" +:+ LF)
             :: map toController (["abc refs/gittuf/policy" +:+ LF] ++ [flushPkt]))
    ∧ (tips ≠ ∅
       ↔ gittufRefsTips initialSession ≠ ∅
         ∨ Exists (λ o, listsGittufRef o = true) ["abc refs/gittuf/policy" +:+ LF]).
Proof.
  apply (list_for_push_detects_gittuf rangeSorted pktLine initialSession
           ("list for-push" +:+ LF) [] ["abc refs/gittuf/policy" +:+ LF] [] []);
    try reflexivity.
  intros H. apply list_elem_of_In in H. vm_compute in H. intuition discriminate.
Defined.

(** ** The service router *)

Lemma dispatchServiceRouter_unrouted mapRange packetEncode s command stdin out tr :
  currentState s = serviceRouter → routed s command = false →
  dispatch quiet mapRange packetEncode s command stdin out tr
  = Ok (Next (withPacketMode true s) stdin out) (tr ++ [toChild command]).
Proof.
  intros Hst Hroute. unfold dispatch, dispatchServiceRouter. rewrite Hst.
  unfold routed in Hroute. cbn [service withPacketMode].
  destruct (Go.Equal (service s) gitUploadPack); [|by run_quiet].
  cbn [andb] in Hroute. apply orb_false_iff in Hroute as [-> ->]. by run_quiet.
Qed.

(** X6.  In the service router, nothing failing, the packets that do not name
    ls-refs or fetch for git-upload-pack, so every packet of another service,
    are written to the child as they are and the loop stays in the router:
    nothing of the child's answer is read, and nothing is written to the
    controller. *)
Theorem service_router_hands_on
    (mapRange : list event → gmap string string → list (string * string))
    (packetEncode : string → string)
    (fuel : nat) (s : session) (stdin out : list string) (tr : list event) :
  currentState s = serviceRouter →
  length stdin < fuel →
  Forall (λ c, routed s c = false) stdin →
  mainLoop quiet mapRange packetEncode fuel s None stdin out tr
  = Ok (Some (if stdin is [] then s else withPacketMode true s))
       (tr ++ map toChild stdin).
Proof.
  revert fuel s tr.
  induction stdin as [|c stdin IH]; intros fuel s tr Hst Hfuel Hall.
  - destruct fuel; [cbn in Hfuel; lia|]. cbn. by rewrite app_nil_r.
  - destruct fuel as [|fuel]; [cbn in Hfuel; lia|]. cbn [length] in Hfuel.
    apply Forall_cons in Hall as [Hc Hall].
    rewrite mainLoop_step, bind_run, dispatchServiceRouter_unrouted by done.
    cbn [currentState withPacketMode].
    destruct (decide (currentState s = packfileDone)); [congruence|].
    rewrite IH; [|done|lia|done].
    rewrite <-app_assoc. cbn [map app]. by destruct stdin.
Qed.

Lemma service_router_hands_on_witness :
  mainLoop quiet rangeSorted pktLine 3
    (withService "git-receive-pack" (withState serviceRouter initialSession))
    None ["0014command=ls-refs" +:+ LF; flushPkt] ["0008NAK" +:+ LF] []
  = Ok (Some (withPacketMode true
                (withService "git-receive-pack"
                   (withState serviceRouter initialSession))))
       ([] ++ map toChild ["0014command=ls-refs" +:+ LF; flushPkt]).
Proof.
  apply (service_router_hands_on rangeSorted pktLine 3
           (withService "git-receive-pack" (withState serviceRouter initialSession))
           ["0014command=ls-refs" +:+ LF; flushPkt] ["0008NAK" +:+ LF] []).
  - reflexivity.
  - cbn. lia.
  - repeat constructor.
Defined.

(** ** The packfile *)

Lemma packfileDrain_quiet_end stdin ps rest tr :
  endOfReadPkt ∉ ps →
  packfileDrain quiet stdin (ps ++ endOfReadPkt :: rest) tr
  = Ok (afterResponseEnd stdin rest)
       (tr ++ map toController (ps ++ [endOfReadPkt])).
Proof.
  revert tr. induction ps as [|p ps IH]; intros tr Hps;
    cbn [app packfileDrain]; run_quiet.
  - rewrite (proj2 (Equal_true endOfReadPkt endOfReadPkt)) by done.
    unfold afterResponseEnd. destruct stdin as [|c stdin]; [done|].
    by destruct (String.length c =? 0).
  - apply not_elem_of_cons in Hps as [Hne Hps].
    rewrite (proj2 (Equal_false p endOfReadPkt)) by congruence.
    rewrite IH by done. by rewrite <-app_assoc.
Qed.

Lemma packfileDrain_quiet_eof stdin out tr :
  endOfReadPkt ∉ out →
  packfileDrain quiet stdin out tr
  = Ok (PackfileBreak stdin []) (tr ++ map toController out).
Proof.
  revert tr. induction out as [|p out IH]; intros tr Hout;
    cbn [packfileDrain]; run_quiet.
  - by rewrite app_nil_r.
  - apply not_elem_of_cons in Hout as [Hne Hout].
    rewrite (proj2 (Equal_false p endOfReadPkt)) by congruence.
    rewrite IH by done. by rewrite <-app_assoc.
Qed.

(** X7.  The answer to a fetch, nothing failing, is copied to the controller
    packet by packet.  At the first response-end-pkt the copy stops and one
    more token is read from the controller: when there is none, or it is
    empty, the loop over the packets is left for good; otherwise the token is
    the first command of a follow-up batch.  When the child's output ends
    with no response-end-pkt all of it is copied, and stdin is not read. *)
Theorem packfile_copied_to_controller
    (stdin out : list string) (tr : list event) :
  (∀ ps rest,
     out = ps ++ endOfReadPkt :: rest → endOfReadPkt ∉ ps →
     packfileDrain quiet stdin out tr
     = Ok (afterResponseEnd stdin rest)
          (tr ++ map toController (ps ++ [endOfReadPkt])))
  ∧ (endOfReadPkt ∉ out →
     packfileDrain quiet stdin out tr
     = Ok (PackfileBreak stdin []) (tr ++ map toController out)).
Proof.
  split.
  - intros ps rest -> Hps. by apply packfileDrain_quiet_end.
  - apply packfileDrain_quiet_eof.
Qed.

Lemma packfile_copied_to_controller_witness :
  packfileDrain quiet ["0011want abc" +:+ LF]
    (["PACK"] ++ endOfReadPkt :: ["0008NAK" +:+ LF]) []
  = Ok (afterResponseEnd ["0011want abc" +:+ LF] ["0008NAK" +:+ LF])
       ([] ++ map toController (["PACK"] ++ [endOfReadPkt])).
Proof.
  apply (packfile_copied_to_controller ["0011want abc" +:+ LF]
           (["PACK"] ++ endOfReadPkt :: ["0008NAK" +:+ LF]) []).
  - reflexivity.
  - intros H. apply list_elem_of_In in H. vm_compute in H. intuition discriminate.
Defined.

(** ** The push flag *)

Lemma push_prefix_alone (command : string) :
  Go.HasPrefix command "push" = true →
  Go.HasPrefix command "stateless-connect" = false
  ∧ Go.HasPrefix command "list for-push" = false.
Proof.
  destruct command as [|c command]; [done|]. cbn.
  destruct (Ascii.eqb_spec c "p"); [subst; done|done].
Qed.

Lemma dispatch_isPush env mapRange packetEncode s command stdin out tr st tr' :
  dispatch env mapRange packetEncode s command stdin out tr = Ok st tr' →
  (isPush s = true → isPush (stepSession st) = true)
  ∧ (isPush (stepSession st) = true →
     isPush s = true ∨ Go.HasPrefix command "push" = true)
  ∧ (currentState s = start → Go.HasPrefix command "push" = true →
     isPush (stepSession st) = true).
Proof.
  unfold dispatch, dispatchStart, dispatchServiceRouter, dispatchLsRefs,
    dispatchRequestingWants.
  intros H. destruct (currentState s) eqn:Hst.
  1:{ destruct (Go.HasPrefix command "push") eqn:Hpush.
      - destruct (push_prefix_alone command Hpush) as [Hsc Hlist].
        rewrite Hsc, Hlist in H. ok_inv. cbn. auto.
      - ok_inv; cbn; (split; [done|split; [auto|congruence]]). }
  all: ok_inv;
    repeat match goal with
      | H : match ?x with PackfileBreak _ _ => _ | PackfileGoto _ _ _ => _ end _
            = Ok _ _ |- _ => destruct x
      end; ok_inv;
    repeat match goal with
      | |- context [if ?b then _ else _] => destruct b
      end; cbn; (split; [done|split; [auto|done]]).
Qed.

Lemma mainLoop_isPush env mapRange packetEncode tokens fuel s scanned stdin out
    tr s' tr' :
  pending scanned stdin ++ pushCommands s ⊆ tokens →
  mainLoop env mapRange packetEncode fuel s scanned stdin out tr = Ok (Some s') tr' →
  (isPush s = true → isPush s' = true)
  ∧ (isPush s' = true →
     isPush s = true ∨ ∃ c, c ∈ tokens ∧ Go.HasPrefix c "push" = true).
Proof.
  revert s scanned stdin out tr.
  induction fuel as [|fuel IH]; intros s scanned stdin out tr Hsub;
    cbn [mainLoop]; [by rewrite ret_run|].
  destruct (scan scanned stdin) as [[command stdin1]|] eqn:Hscan;
    [|rewrite ret_run; intros [= <- _]; auto].
  assert (pending scanned stdin = command :: stdin1) as Hpend.
  { destruct scanned; [by injection Hscan as <- <-|].
    destruct stdin; [done|]. by injection Hscan as <- <-. }
  rewrite Hpend in Hsub.
  intros (st & tr1 & Hstep & Hrest)%bind_ok_inv.
  pose proof (dispatch_leaves _ _ _ _ _ _ _ _ _ _ Hstep) as Hleft.
  apply dispatch_isPush in Hstep as (Hup & Hdown & _).
  assert (isPush (stepSession st) = true →
          isPush s = true ∨ ∃ c, c ∈ tokens ∧ Go.HasPrefix c "push" = true)
    as Hdown'.
  { intros [?|Hpush]%Hdown; [by left|right]. exists command. split; [|done].
    apply Hsub. set_solver. }
  destruct st as [s1 stdin2 out2|s1 c2 stdin2 out2];
    cbn [stepSession stepTokens] in *.
  - destruct (decide (currentState s1 = packfileDone)).
    + rewrite ret_run in Hrest. injection Hrest as <- _. auto.
    + apply IH in Hrest as [Hup1 Hdown1]; [|cbn [pending]; set_solver].
      split; [auto|]. intros [?|?]%Hdown1; auto.
  - apply IH in Hrest as [Hup1 Hdown1]; [|cbn [pending]; set_solver].
    split; [auto|]. intros [?|?]%Hdown1; auto.
Qed.

(** X8.  Whatever fails, when [handleCurl] returns the push flag set, a
    token of stdin starts with [push]; and when the first token of stdin
    starts with [push], every run that returns has the flag set. *)
Theorem is_push_reflects_push_command
    (env : list event → action → option error)
    (mapRange : list event → gmap string string → list (string * string))
    (packetEncode : string → string)
    (remoteName url : string) (stdin helperOut : list string)
    (tips : gmap string string) (isPush' : bool) (tr' : list event) :
  handleCurl env mapRange packetEncode remoteName url stdin helperOut []
  = Ok (Some (tips, isPush')) tr' →
  (isPush' = true → ∃ c, c ∈ stdin ∧ Go.HasPrefix c "push" = true)
  ∧ (∀ c rest, stdin = c :: rest → Go.HasPrefix c "push" = true →
               isPush' = true).
Proof.
  unfold handleCurl, translate, shutdown. intros H.
  apply bind_ok_inv in H as ([s|] & tr1 & Htr & Hend); [|by rewrite ret_run in Hend].
  apply bind_ok_inv in Htr as (? & tr0 & _ & Hloop).
  ok_inv. split.
  - apply (mainLoop_isPush _ _ _ stdin) in Hloop as [_ Hdown];
      [|cbn [pending pushCommands]; by rewrite app_nil_r].
    intros [Hno|Hyes]%Hdown; [done|done].
  - intros c rest -> Hpush. revert Hloop. rewrite mainLoop_step.
    intros (st & tr2 & Hstep & Hrest)%bind_ok_inv.
    apply dispatch_isPush in Hstep as (_ & _ & Hset).
    specialize (Hset eq_refl Hpush).
    destruct st as [s1 stdin2 out2|s1 c2 stdin2 out2]; cbn [stepSession] in Hset.
    + destruct (decide (currentState s1 = packfileDone)).
      * rewrite ret_run in Hrest. by injection Hrest as <- _.
      * apply (mainLoop_isPush _ _ _ (stdin2 ++ pushCommands s1)) in Hrest
          as [Hup _]; [by apply Hup|done].
    + apply (mainLoop_isPush _ _ _ (c2 :: stdin2 ++ pushCommands s1)) in Hrest
        as [Hup _]; [by apply Hup|done].
Qed.

Lemma is_push_reflects_push_command_witness :
  (true = true → ∃ c, c ∈ ["push a:b" +:+ LF; LF]
                      ∧ Go.HasPrefix c "push" = true)
  ∧ (∀ c rest, ["push a:b" +:+ LF; LF] = c :: rest →
               Go.HasPrefix c "push" = true → true = true).
Proof.
  apply (is_push_reflects_push_command quiet rangeSorted pktLine
           "origin" "https://example.com/repo" ["push a:b" +:+ LF; LF] [flushPkt]
           ∅ true
           [Event HelperStdoutPipe None;
            Event HelperStdinPipe None;
            Event (HelperStart "origin" "https://example.com/repo") None;
            toChild ("push a:b" +:+ LF); toChild LF; toController flushPkt;
            Event HelperStdInClose None;
            Event HelperStdOutClose None;
            Event HelperWait None]).
  vm_compute. reflexivity.
Defined.

(** ** The loop ends *)

(** X9.  On every input the main loop comes to its end within one pass per
    token of stdin and one more: the run of [handleCurl] returns a pair,
    fails with an error or panics, and never stops for lack of passes. *)
Theorem handle_curl_ends
    (env : list event → action → option error)
    (mapRange : list event → gmap string string → list (string * string))
    (packetEncode : string → string)
    (remoteName url : string) (stdin helperOut : list string)
    (tr tr' : list event) :
  handleCurl env mapRange packetEncode remoteName url stdin helperOut tr
  ≠ Ok None tr'
  ∧ ∀ s scanned out fuel,
      length (pending scanned stdin) < fuel →
      mainLoop env mapRange packetEncode fuel s scanned stdin out tr ≠ Ok None tr'.
Proof.
  split; [|intros; by apply mainLoop_ends].
  unfold handleCurl. intros ([s|] & tr1 & Htr & Hend)%bind_ok_inv.
  - apply bind_ok_inv in Hend as (r & tr2 & _ & Hret).
    by rewrite ret_run in Hret.
  - by apply translate_ends in Htr.
Qed.

(** ** The packets of the ls-refs answer *)

Lemma recordAdvertisedRef_result output tips tr :
  (∃ tips', recordAdvertisedRef output tips tr = Ok tips' tr)
  ∨ recordAdvertisedRef output tips tr = Panic tr.
Proof.
  unfold recordAdvertisedRef, slice, index.
  repeat first
    [ rewrite bind_run
    | rewrite ret_run
    | match goal with
      | |- context [if ?b then _ else _] => destruct b
      | |- context [match ?x with Some _ => _ | None => _ end] => destruct x
      end
    | by right
    | left; by eexists ].
Qed.

Lemma recordAdvertisedRef_advertises output tips tr :
  advertises output → ∃ tips', recordAdvertisedRef output tips tr = Ok tips' tr.
Proof.
  intros Hadv.
  destruct (recordAdvertisedRef_result output tips tr) as [|Hpanic]; [done|].
  destruct (decide (output = flushPkt)) as [->|Hflush]; [by eexists|].
  destruct (decide (output = endOfReadPkt)) as [->|Hend]; [by eexists|].
  apply recordAdvertisedRef_panics in Hpanic; [|done..].
  destruct Hadv as [?|[?|(refAd & Htext & Hin)]]; [done..|].
  by rewrite Htext in Hpanic.
Qed.

Lemma recordAdvertisedRef_other output tips tr :
  ¬ advertises output → recordAdvertisedRef output tips tr = Panic tr.
Proof.
  intros Hnot.
  assert (output ≠ flushPkt) as Hflush by (intros ->; apply Hnot; by left).
  assert (output ≠ endOfReadPkt) as Hend
    by (intros ->; apply Hnot; right; by left).
  apply recordAdvertisedRef_panics; [done..|].
  destruct (advertisedText output) as [refAd|] eqn:Htext; [|done].
  intros Hin. apply Hnot. right. right. eauto.
Qed.

(** X10.  The drain of the ls-refs answer does not panic, whatever fails,
    when every packet is a flush-pkt, a response-end-pkt, or has at least its
    four bytes of length and, after them, trimmed and cut at a NUL byte past
    its first byte, a text with a space in it.  On the first packet that is
    none of these, the packets before it copied and nothing failing, it
    panics: the packet is not written to the controller. *)
Theorem ls_refs_drain_needs_advertisements
    (env : list event → action → option error)
    (out : list string) (tips : gmap string string) (tr : list event) :
  (Forall advertises out →
   ∀ tr', lsRefsResponseDrain env out tips tr ≠ Panic tr')
  ∧ (∀ pre p post,
       out = pre ++ p :: post → Forall advertises pre → endOfReadPkt ∉ pre →
       ¬ advertises p →
       lsRefsResponseDrain quiet out tips tr
       = Panic (tr ++ map toController pre)).
Proof.
  split.
  - intros Hall. revert tips tr.
    induction Hall as [|o out Ho _ IH]; intros tips tr tr';
      cbn [lsRefsResponseDrain]; [done|].
    rewrite bind_run.
    destruct (recordAdvertisedRef_advertises o tips tr Ho) as [tips' ->].
    rewrite bind_run.
    destruct (perform_cases env (StdoutWrite o) tr) as [[_ ->]|(e & _ & ->)];
      [|done].
    destruct (Go.Equal o endOfReadPkt); [done|apply IH].
  - intros pre p post -> Hpre Hend Hp. revert tips tr.
    induction Hpre as [|o pre Ho _ IH]; intros tips tr;
      cbn [app lsRefsResponseDrain]; rewrite bind_run.
    + rewrite recordAdvertisedRef_other by done. by rewrite app_nil_r.
    + apply not_elem_of_cons in Hend as [Hne Hend].
      destruct (recordAdvertisedRef_advertises o tips tr Ho) as [tips' ->].
      run_quiet. rewrite (proj2 (Equal_false o endOfReadPkt)) by congruence.
      rewrite IH by done. by rewrite <-app_assoc.
Qed.

Lemma ls_refs_drain_needs_advertisements_witness :
  lsRefsResponseDrain quiet (["0018abc refs/heads/main" +:+ LF] ++ "0001" :: [])
    ∅ []
  = Panic ([] ++ map toController ["0018abc refs/heads/main" +:+ LF]).
Proof.
  pose proof (ls_refs_drain_needs_advertisements quiet
                (["0018abc refs/heads/main" +:+ LF] ++ "0001" :: []) ∅ [])
    as [_ Hpanic].
  apply (Hpanic ["0018abc refs/heads/main" +:+ LF] "0001" []).
  - reflexivity.
  - constructor; [|constructor]. right. right.
    exists "abc refs/heads/main". split; [reflexivity|].
    apply list_elem_of_In. vm_compute. tauto.
  - intros H. apply list_elem_of_In in H. vm_compute in H. intuition discriminate.
  - intros [H|[H|(refAd & Htext & Hin)]]; [discriminate H..|].
    vm_compute in Htext. injection Htext as <-.
    apply list_elem_of_In in Hin. vm_compute in Hin. tauto.
Defined.

(** ** The entries of gittufRefsTips *)

Lemma Split_pieces (s : string) (sep : ascii) (piece : string) :
  piece ∈ Go.Split s sep → sep ∉ chars piece.
Proof.
  revert piece. induction s as [|c s IH]; intros piece; cbn [Go.Split].
  - intros ->%list_elem_of_singleton. apply not_elem_of_nil.
  - destruct (Ascii.eqb_spec c sep) as [->|Hne].
    + intros [->|Hin]%elem_of_cons; [apply not_elem_of_nil|by apply IH].
    + pose proof (Split_nonempty s sep).
      destruct (Go.Split s sep) as [|first pieces]; [done|].
      intros [->|Hin]%elem_of_cons.
      * cbn [chars]. apply not_elem_of_cons. split; [congruence|].
        apply IH. apply elem_of_cons. by left.
      * apply IH. apply elem_of_cons. by right.
Qed.

Lemma advertisedPair_no_space refName oid :
  advertisedPair refName oid →
  (" "%char ∉ chars refName) ∧ (" "%char ∉ chars oid).
Proof.
  intros (text & Hname & Hoid).
  split; eapply Split_pieces, list_elem_of_lookup_2; done.
Qed.

Lemma recordListedRef_pairs output tips :
  map_Forall advertisedPair tips →
  map_Forall advertisedPair (recordListedRef output tips).
Proof.
  intros Hall. unfold recordListedRef.
  destruct (2 <=? _); [|done].
  destruct (_ !! 1) as [refName|] eqn:Hname; [|done].
  destruct (_ !! 0) as [oid|] eqn:Hoid; [|done].
  destruct (Go.HasPrefix refName gittufRefPrefix); [|done].
  apply map_Forall_insert_2; [|done]. by eexists.
Qed.

Lemma recordAdvertisedRef_pairs output tips tr tips' tr' :
  recordAdvertisedRef output tips tr = Ok tips' tr' →
  map_Forall advertisedPair tips → map_Forall advertisedPair tips'.
Proof.
  unfold recordAdvertisedRef. intros H Hall. ok_inv; try done;
    (apply map_Forall_insert_2; [by eexists|done]).
Qed.

Lemma listForPushResponse_pairs env out tips tr r tr' :
  listForPushResponse env out tips tr = Ok r tr' →
  map_Forall advertisedPair tips → map_Forall advertisedPair r.1.
Proof.
  revert tips tr. induction out as [|o out IH]; intros tips tr;
    cbn [listForPushResponse]; intros H Hall; ok_inv; cbn.
  - done.
  - by apply recordListedRef_pairs.
  - eapply IH; [done|by apply recordListedRef_pairs].
Qed.

Lemma lsRefsResponseDrain_pairs env out tips tr r tr' :
  lsRefsResponseDrain env out tips tr = Ok r tr' →
  map_Forall advertisedPair tips → map_Forall advertisedPair r.1.
Proof.
  revert tips tr. induction out as [|o out IH]; intros tips tr;
    cbn [lsRefsResponseDrain]; intros H Hall; ok_inv; cbn.
  - done.
  - by eapply recordAdvertisedRef_pairs.
  - eapply IH; [done|by eapply recordAdvertisedRef_pairs].
Qed.

Lemma dispatch_pairs env mapRange packetEncode s command stdin out tr st tr' :
  dispatch env mapRange packetEncode s command stdin out tr = Ok st tr' →
  map_Forall advertisedPair (gittufRefsTips s) →
  map_Forall advertisedPair (gittufRefsTips (stepSession st)).
Proof.
  unfold dispatch, dispatchStart, dispatchServiceRouter, dispatchLsRefs,
    dispatchRequestingWants.
  intros H Hall. destruct (currentState s); ok_inv;
    repeat match goal with
      | H : match ?x with PackfileBreak _ _ => _ | PackfileGoto _ _ _ => _ end _
            = Ok _ _ |- _ => destruct x
      end; ok_inv; cbn;
    try done;
    try (by eapply listForPushResponse_pairs);
    try (by eapply lsRefsResponseDrain_pairs).
  repeat match goal with |- context [if ?b then _ else _] => destruct b end; done.
Qed.

Lemma mainLoop_pairs env mapRange packetEncode fuel s scanned stdin out tr s' tr' :
  mainLoop env mapRange packetEncode fuel s scanned stdin out tr = Ok (Some s') tr' →
  map_Forall advertisedPair (gittufRefsTips s) →
  map_Forall advertisedPair (gittufRefsTips s').
Proof.
  revert s scanned stdin out tr.
  induction fuel as [|fuel IH]; intros s scanned stdin out tr; cbn [mainLoop];
    [by rewrite ret_run|].
  destruct (scan scanned stdin) as [[command stdin1]|];
    [|rewrite ret_run; by intros [= <- _]].
  intros (st & tr1 & Hstep & Hrest)%bind_ok_inv Hall.
  apply dispatch_pairs in Hstep; [|done].
  destruct st as [s1 stdin2 out2|s1 c2 stdin2 out2]; cbn [stepSession] in Hstep.
  - destruct (decide (currentState s1 = packfileDone)).
    + rewrite ret_run in Hrest. by injection Hrest as <- _.
    + by eapply IH.
  - by eapply IH.
Qed.

(** X11.  Whatever fails, every entry of the map that [handleCurl] returns
    holds a ref name and an oid that were the second and the first
    space-separated part of one line of the child: neither has a space in
    it. *)
Theorem returned_tips_have_no_space
    (env : list event → action → option error)
    (mapRange : list event → gmap string string → list (string * string))
    (packetEncode : string → string)
    (remoteName url : string) (stdin helperOut : list string)
    (tips : gmap string string) (isPush' : bool) (tr' : list event)
    (refName oid : string) :
  handleCurl env mapRange packetEncode remoteName url stdin helperOut []
  = Ok (Some (tips, isPush')) tr' →
  tips !! refName = Some oid →
  advertisedPair refName oid
  ∧ (" "%char ∉ chars refName) ∧ (" "%char ∉ chars oid).
Proof.
  unfold handleCurl, translate, shutdown. intros H Hlook.
  apply bind_ok_inv in H as ([s|] & tr1 & Htr & Hend); [|by rewrite ret_run in Hend].
  apply bind_ok_inv in Htr as (? & tr0 & _ & Hloop).
  apply mainLoop_pairs in Hloop; [|apply map_Forall_empty].
  ok_inv. specialize (Hloop refName oid Hlook).
  split; [done|by apply advertisedPair_no_space].
Qed.

Lemma returned_tips_have_no_space_witness :
  advertisedPair "refs/gittuf/reference-state-log" "abc"
  ∧ (" "%char ∉ chars "refs/gittuf/reference-state-log")
  ∧ (" "%char ∉ chars "abc").
Proof.
  apply (returned_tips_have_no_space quiet rangeSorted pktLine
           "origin" "https://example.com/repo"
           ["list for-push" +:+ LF]
           ["abc refs/gittuf/reference-state-log" +:+ LF; flushPkt]
           {["refs/gittuf/reference-state-log" := "abc"]} false
           [Event HelperStdoutPipe None;
            Event HelperStdinPipe None;
            Event (HelperStart "origin" "https://example.com/repo") None;
            toChild ("list for-push" +:+ LF);
            toController ("abc refs/gittuf/reference-state-log" +:+ LF);
            toController flushPkt;
            Event HelperStdInClose None;
            Event HelperStdOutClose None;
            Event HelperWait None]).
  - vm_compute. reflexivity.
  - vm_compute. reflexivity.
Defined.

Lemma recordAdvertisedRef_run output tips tr refName oid :
  output ≠ flushPkt → output ≠ endOfReadPkt →
  advertisedRef output = Some (refName, oid) →
  recordAdvertisedRef output tips tr
  = Ok (if Go.HasPrefix refName gittufRefPrefix then <[refName := oid]> tips
        else tips) tr.
Proof.
  intros Hflush Hend. unfold advertisedRef, recordAdvertisedRef, advertisedText,
    slice, index.
  rewrite (proj2 (Equal_false _ _) Hflush), (proj2 (Equal_false _ _) Hend).
  cbn [negb andb].
  destruct (Go.sliceFrom 4 output) as [payload|]; cbn; [|done].
  run_quiet.
  destruct (Z.ltb_spec 0 (Go.IndexByte (Go.TrimSpace payload) "000")) as [Hi|Hi].
  - destruct (Go.sliceTo _ _) as [refAd|]; cbn; [|done]. run_quiet.
    destruct (Go.Split refAd " " !! 1) as [name|]; cbn; [|done].
    destruct (Go.Split refAd " " !! 0) as [o|]; cbn; [|done].
    intros [= -> ->]. run_quiet.
    destruct (Go.HasPrefix refName gittufRefPrefix); by run_quiet.
  - cbn. run_quiet.
    destruct (Go.Split (Go.TrimSpace payload) " " !! 1) as [name|]; cbn; [|done].
    destruct (Go.Split (Go.TrimSpace payload) " " !! 0) as [o|]; cbn; [|done].
    intros [= -> ->]. run_quiet.
    destruct (Go.HasPrefix refName gittufRefPrefix); by run_quiet.
Qed.

(** X12.  The drain of an ls-refs answer whose packets up to the first
    response-end-pkt can all be taken, nothing failing, copies these packets
    and the response-end-pkt to the controller, in order, and leaves the
    packets after it unread.  The map it yields has the keys it had and the
    name of every gittuf ref that a packet other than the flush-pkt
    advertises. *)
Theorem ls_refs_answer_copied_and_recorded
    (ps rest : list string) (tips : gmap string string) (tr : list event) :
  Forall advertises ps →
  endOfReadPkt ∉ ps →
  ∃ tips',
    lsRefsResponseDrain quiet (ps ++ endOfReadPkt :: rest) tips tr
    = Ok (tips', rest) (tr ++ map toController (ps ++ [endOfReadPkt]))
    ∧ dom tips ⊆ dom tips'
    ∧ ∀ output refName oid,
        output ∈ ps → output ≠ flushPkt →
        advertisedRef output = Some (refName, oid) →
        Go.HasPrefix refName gittufRefPrefix = true →
        refName ∈ dom tips'.
Proof.
  intros Hall. revert tips tr.
  induction Hall as [|o ps Ho _ IH]; intros tips tr Hend;
    cbn [app lsRefsResponseDrain].
  - exists tips. run_quiet.
    rewrite (proj2 (Equal_true endOfReadPkt endOfReadPkt)) by done.
    split; [done|]. split; [done|]. by intros ? ? ? ?%elem_of_nil.
  - apply not_elem_of_cons in Hend as [Hne Hend].
    rewrite bind_run.
    destruct (recordAdvertisedRef_advertises o tips tr Ho) as [tips1 Hrec].
    rewrite Hrec. run_quiet.
    rewrite (proj2 (Equal_false o endOfReadPkt)) by congruence.
    change (Event (StdoutWrite o) None) with (toController o).
    destruct (IH tips1 (tr ++ [toController o]) Hend) as (tips' & -> & Hdom & Hrefs).
    exists tips'. rewrite <-app_assoc. split; [done|].
    pose proof (recordAdvertisedRef_grows _ _ _ _ _ Hrec) as [_ Hdom1].
    split; [set_solver|].
    intros output refName oid [->|Hin]%elem_of_cons Hflush Hadv Hpre;
      [|by eapply Hrefs].
    rewrite (recordAdvertisedRef_run o tips tr refName oid) in Hrec by congruence.
    rewrite Hpre in Hrec. injection Hrec as <-.
    apply Hdom. rewrite dom_insert_L. set_solver.
Qed.

Lemma ls_refs_answer_copied_and_recorded_witness :
  ∃ tips',
    lsRefsResponseDrain quiet
      (["001babd refs/gittuf/policy" +:+ LF; flushPkt] ++ endOfReadPkt :: []) ∅ []
    = Ok (tips', [])
         ([] ++ map toController
                  (["001babd refs/gittuf/policy" +:+ LF; flushPkt] ++ [endOfReadPkt]))
    ∧ dom (∅ : gmap string string) ⊆ dom tips'
    ∧ ∀ output refName oid,
        output ∈ ["001babd refs/gittuf/policy" +:+ LF; flushPkt] →
        output ≠ flushPkt →
        advertisedRef output = Some (refName, oid) →
        Go.HasPrefix refName gittufRefPrefix = true →
        refName ∈ dom tips'.
Proof.
  apply (ls_refs_answer_copied_and_recorded
           ["001babd refs/gittuf/policy" +:+ LF; flushPkt] [] ∅ []).
  - constructor; [|constructor; [by left|constructor]]. right. right.
    exists "abd refs/gittuf/policy". split; [reflexivity|].
    apply list_elem_of_In. vm_compute. tauto.
  - intros H. apply list_elem_of_In in H. vm_compute in H. intuition discriminate.
Defined.

(** ** A fetch, from the wants to the end of the loop *)

Lemma mainLoop_wants_flush mapRange packetEncode fuel s rest out tr :
  currentState s = requestingWants →
  mainLoop quiet mapRange packetEncode (S fuel) s None (flushPkt :: rest) out tr
  = (exit ← packfileDrain quiet rest out;
     match exit with
     | PackfileGoto command' stdin' out' =>
         mainLoop quiet mapRange packetEncode fuel
           (withState requestingWants s) (Some command') stdin' out'
     | PackfileBreak _ _ => mret (Some (withState packfileDone s))
     end)
      (tr ++ map toChild
               (map (wantPacket packetEncode) (mapRange tr (gittufRefsTips s)).*2
                  ++ [flushPkt])).
Proof.
  intros Hst. rewrite mainLoop_step, bind_run.
  unfold dispatch, dispatchRequestingWants. rewrite Hst.
  rewrite (proj2 (Equal_true flushPkt flushPkt)) by done.
  cbn [negb]. unfold rangeMap. run_quiet. rewrite writeWants_quiet. run_quiet.
  cbn [withState currentState].
  destruct (decide (packfileIncoming = packfileIncoming)) as [_|]; [|done].
  rewrite !map_app, <-!app_assoc. cbn [map app]. run_quiet.
  destruct (packfileDrain _ _ _ _) as [[stdin' out'|c' stdin' out'] tr1|e tr1|tr1];
    [| |done..]; run_quiet; cbn [withState currentState]; [|done].
  destruct (decide (packfileDone = packfileDone)); done.
Qed.

(** X13.  A fetch with one batch of wants, nothing failing: the packets of the
    batch go to the child, then a want for every entry of gittufRefsTips,
    then the flush-pkt; the child's answer is copied to the controller up to
    and including the response-end-pkt, or all of it when there is none; and
    when there is no further token on stdin, or an empty one, or the answer
    had no response-end-pkt, the main loop ends in the state packfileDone:
    what is left of stdin is not handed on. *)
Theorem fetch_runs_to_packfile_done
    (mapRange : list event → gmap string string → list (string * string))
    (packetEncode : string → string)
    (fuel : nat) (s : session) (ps more packs : list string) (tr : list event) :
  (∀ h m, mapRange h m ≡ₚ map_to_list m) →
  currentState s = requestingWants →
  flushPkt ∉ ps →
  endOfReadPkt ∉ packs →
  ∃ tips : list string,
    tips ≡ₚ (map_to_list (gittufRefsTips s)).*2
    ∧ (∀ rest,
         afterResponseEnd more rest = PackfileBreak (tail more) rest →
         mainLoop quiet mapRange packetEncode (length ps + S fuel) s None
           (ps ++ flushPkt :: more) (packs ++ endOfReadPkt :: rest) tr
         = Ok (Some (withState packfileDone s))
              (tr ++ map toChild
                       (ps ++ map (wantPacket packetEncode) tips ++ [flushPkt])
                  ++ map toController (packs ++ [endOfReadPkt])))
    ∧ mainLoop quiet mapRange packetEncode (length ps + S fuel) s None
        (ps ++ flushPkt :: more) packs tr
      = Ok (Some (withState packfileDone s))
           (tr ++ map toChild
                    (ps ++ map (wantPacket packetEncode) tips ++ [flushPkt])
               ++ map toController packs).
Proof.
  intros Hperm Hst Hps Hpacks.
  exists (mapRange (tr ++ map toChild ps) (gittufRefsTips s)).*2.
  split; [by rewrite Hperm|].
  split.
  - intros rest Hbreak.
    rewrite mainLoop_requestingWants_forward, mainLoop_wants_flush by done.
    rewrite bind_run, packfileDrain_quiet_end, Hbreak by done.
    rewrite ret_run, !map_app, <-!app_assoc. done.
  - rewrite mainLoop_requestingWants_forward, mainLoop_wants_flush by done.
    rewrite bind_run, packfileDrain_quiet_eof by done.
    rewrite ret_run, !map_app, <-!app_assoc. done.
Qed.

Lemma fetch_runs_to_packfile_done_witness :
  ∃ tips : list string,
    tips ≡ₚ (map_to_list (gittufRefsTips fetchSession)).*2
    ∧ (∀ rest,
         afterResponseEnd [] rest = PackfileBreak (tail []) rest →
         mainLoop quiet rangeSorted pktLine (length ["000ewant cafe" +:+ LF] + 1)
           fetchSession None (["000ewant cafe" +:+ LF] ++ flushPkt :: [])
           (["PACK"] ++ endOfReadPkt :: rest) []
         = Ok (Some (withState packfileDone fetchSession))
              ([] ++ map toChild
                       (["000ewant cafe" +:+ LF]
                          ++ map (wantPacket pktLine) tips ++ [flushPkt])
                  ++ map toController (["PACK"] ++ [endOfReadPkt])))
    ∧ mainLoop quiet rangeSorted pktLine (length ["000ewant cafe" +:+ LF] + 1)
        fetchSession None (["000ewant cafe" +:+ LF] ++ flushPkt :: []) ["PACK"] []
      = Ok (Some (withState packfileDone fetchSession))
           ([] ++ map toChild
                    (["000ewant cafe" +:+ LF]
                       ++ map (wantPacket pktLine) tips ++ [flushPkt])
               ++ map toController ["PACK"]).
Proof.
  apply (fetch_runs_to_packfile_done rangeSorted pktLine 0 fetchSession
           ["000ewant cafe" +:+ LF] [] ["PACK"] []).
  - intros h m. reflexivity.
  - reflexivity.
  - intros H. apply list_elem_of_In in H. vm_compute in H. intuition discriminate.
  - intros H. apply list_elem_of_In in H. vm_compute in H. intuition discriminate.
Defined.

(** ** A remote without gittuf refs *)

Lemma bind_panic_inv {A B : Type} (m : M A) (g : A → M B) tr tr' :
  (m ≫= g) tr = Panic tr' →
  m tr = Panic tr' ∨ ∃ a tr1, m tr = Ok a tr1 ∧ g a tr1 = Panic tr'.
Proof.
  rewrite bind_run. destruct (m tr) as [a tr1|e tr1|tr1]; [eauto|done|].
  intros [= ->]. by left.
Qed.

Lemma startHelper_safe env remoteName url : safe (startHelper env remoteName url).
Proof. unfold startHelper. repeat safe_step. Qed.

Lemma shutdown_safe env s : safe (r ← shutdown env s; mret (Some r)).
Proof. unfold shutdown. repeat safe_step. Qed.

Lemma listForPushResponse_plain env out tr r tr' :
  Forall (λ o, listsGittufRef o = false) out →
  listForPushResponse env out ∅ tr = Ok r tr' → r.1 = ∅.
Proof.
  revert tr. induction out as [|o out IH]; intros tr Hall;
    cbn [listForPushResponse]; intros H.
  - by ok_inv.
  - inversion Hall as [|? ? Ho Hall']; subst.
    destruct (recordListedRef_cases o ∅) as [[_ Heq]|[Hyes _]]; [|congruence].
    rewrite Heq in H. ok_inv; [done|]. by eapply IH.
Qed.

Section PlainRemote.

Variable env : list event → action → option error.
Variable mapRange : list event → gmap string string → list (string * string).
Variable packetEncode : string → string.
Variable tokens : list string.

Lemma forwardPushCommands_plain cmds :
  cmds ⊆ tokens → disciplined (plain tokens) (forwardPushCommands env ∅ cmds).
Proof.
  induction cmds as [|c cmds IH]; intros Hsub; cbn [forwardPushCommands];
    [apply disciplined_ret|].
  apply disciplined_bind; [|intros _; apply IH; set_solver].
  unfold recordAndForward. rewrite (proj2 (gittufEnabled_false ∅)) by done.
  apply disciplined_bind; [apply disciplined_ret|intros _].
  apply disciplined_perform. cbn. set_solver.
Qed.

Lemma pushBatch_plain cmds command stdin :
  cmds ++ command :: stdin ⊆ tokens →
  disciplined (plain tokens) (pushBatch env ∅ cmds command stdin).
Proof.
  revert cmds command.
  induction stdin as [|c stdin IH]; intros cmds command Hsub; cbn [pushBatch];
    (destruct (Go.Equal command LF) eqn:Hlf;
     [apply Equal_true in Hlf as ->;
      apply disciplined_bind; [|intros _; apply disciplined_ret];
      unfold endPushBatch; rewrite (proj2 (gittufEnabled_false ∅)) by done;
      apply disciplined_bind; [apply forwardPushCommands_plain; set_solver|intros _];
      apply disciplined_bind; [apply disciplined_ret|intros _];
      apply disciplined_perform; cbn; set_solver|]).
  - apply disciplined_ret.
  - apply IH. by rewrite <-app_assoc.
Qed.

(** At the top-level menu, on a command other than stateless-connect and with
    an empty map, a pass adds nothing of its own. *)
Lemma dispatch_plain s command stdin out :
  currentState s = start →
  Go.HasPrefix command "stateless-connect" = false →
  gittufRefsTips s = ∅ →
  command :: stdin ++ pushCommands s ⊆ tokens →
  disciplined (plain tokens) (dispatch env mapRange packetEncode s command stdin out).
Proof.
  intros Hst Hsc Htips Hsub.
  assert (∀ p, plain tokens (StdoutWrite p)) as Hout by done.
  assert (plain tokens (HelperStdInWrite command)) as Hcommand
    by (cbn; set_solver).
  pose proof (forwardUntilFlush_disciplined env _ Hout).
  pose proof (listForPushResponse_disciplined env _ Hout).
  pose proof (pushReport_disciplined env _ Hout).
  unfold dispatch, dispatchStart. rewrite Hst, Hsc.
  destruct (Go.HasPrefix command "list for-push"); [discipline|].
  destruct (Go.HasPrefix command "push"); [|discipline].
  apply disciplined_bind; [|intros ?; discipline].
  cbn [gittufRefsTips pushCommands withIsPush]. rewrite Htips.
  apply pushBatch_plain. set_solver.
Qed.

Lemma dispatch_plain_safe s command stdin out :
  currentState s = start →
  Go.HasPrefix command "stateless-connect" = false →
  gittufRefsTips s = ∅ →
  safe (dispatch env mapRange packetEncode s command stdin out).
Proof.
  intros Hst Hsc Htips.
  pose proof (forwardUntilFlush_safe env) as Hfw.
  pose proof (listForPushResponse_safe env) as Hlist.
  pose proof (pushReport_safe env) as Hrep.
  unfold dispatch, dispatchStart. rewrite Hst, Hsc.
  destruct (Go.HasPrefix command "list for-push");
    [repeat first [apply Hlist | safe_step]|].
  destruct (Go.HasPrefix command "push");
    [|repeat first [apply Hfw | safe_step]].
  cbn [gittufRefsTips pushCommands withIsPush]. rewrite Htips.
  apply safe_bind; [apply pushBatch_safe|intros ?].
  repeat first [apply Hrep | safe_step].
Qed.

(** Such a pass stays at the top-level menu, with an empty map. *)
Lemma dispatch_plain_state s command stdin out tr st tr' :
  currentState s = start →
  Go.HasPrefix command "stateless-connect" = false →
  gittufRefsTips s = ∅ →
  Forall (λ o, listsGittufRef o = false) out →
  dispatch env mapRange packetEncode s command stdin out tr = Ok st tr' →
  (∃ s' stdin' out', st = Next s' stdin' out')
  ∧ currentState (stepSession st) = start
  ∧ gittufRefsTips (stepSession st) = ∅
  ∧ Forall (λ o, listsGittufRef o = false) (stepOut st).
Proof.
  intros Hst Hsc Htips Hall Hstep.
  assert (Forall (λ o, listsGittufRef o = false) (stepOut st)) as Hrest.
  { destruct (dispatch_copies env mapRange packetEncode s command stdin out tr)
      as (evs & _ & Hused).
    rewrite Hstep in Hused. destruct Hused as (used & -> & _).
    by apply Forall_app in Hall as [_ ?]. }
  revert Hstep. unfold dispatch, dispatchStart. rewrite Hst, Hsc. intros Hstep.
  ok_inv; cbn [stepSession currentState gittufRefsTips withTips
                 withPushCommands withIsPush]; (split; [by eauto|]);
    (split; [done|]); (split; [|done]); [|done..].
  rewrite Htips in *. eapply listForPushResponse_plain; [exact Hall|eassumption].
Qed.

Lemma mainLoop_plain fuel s scanned stdin out tr :
  Forall (λ c, Go.HasPrefix c "stateless-connect" = false) tokens →
  pending scanned stdin ++ pushCommands s ⊆ tokens →
  currentState s = start →
  gittufRefsTips s = ∅ →
  Forall (λ o, listsGittufRef o = false) out →
  follows (plain tokens) tr
    (mainLoop env mapRange packetEncode fuel s scanned stdin out tr)
  ∧ (∀ tr', mainLoop env mapRange packetEncode fuel s scanned stdin out tr
            ≠ Panic tr')
  ∧ (∀ s' tr', mainLoop env mapRange packetEncode fuel s scanned stdin out tr
               = Ok (Some s') tr' → gittufRefsTips s' = ∅).
Proof.
  intros Htokens. revert s scanned stdin out tr.
  induction fuel as [|fuel IH]; intros s scanned stdin out tr Hsub Hst Htips Hall;
    rewrite mainLoop_pending.
  { cbn [mainLoop]. rewrite ret_run.
    split; [apply disciplined_ret|]. split; [done|]. by intros s' tr'. }
  destruct (pending scanned stdin) as [|command stdin1].
  { cbn [mainLoop scan]. rewrite ret_run.
    split; [apply disciplined_ret|]. split; [done|]. by intros s' tr' [= <- _]. }
  assert (Go.HasPrefix command "stateless-connect" = false) as Hsc.
  { rewrite Forall_forall in Htokens. apply Htokens, Hsub. set_solver. }
  rewrite mainLoop_step.
  set (k := λ st : step,
         match st with
         | Rescan s' command' stdin' out' =>
             mainLoop env mapRange packetEncode fuel s' (Some command') stdin' out'
         | Next s' stdin' out' =>
             if decide (currentState s' = packfileDone) then mret (Some s')
             else mainLoop env mapRange packetEncode fuel s' None stdin' out'
         end).
  assert (∀ st tr1,
            dispatch env mapRange packetEncode s command stdin1 out tr = Ok st tr1 →
            follows (plain tokens) tr1 (k st tr1)
            ∧ (∀ tr', k st tr1 ≠ Panic tr')
            ∧ (∀ s' tr', k st tr1 = Ok (Some s') tr' → gittufRefsTips s' = ∅))
    as Hcont.
  { intros st tr1 Hstep.
    pose proof (dispatch_leaves _ _ _ _ _ _ _ _ _ _ Hstep) as Hleft.
    apply dispatch_plain_state in Hstep
      as ((s1 & stdin2 & out2 & ->) & Hst1 & Htips1 & Hall1); [|done..].
    cbn [stepSession stepOut stepTokens] in *. unfold k.
    destruct (decide (currentState s1 = packfileDone)); [congruence|].
    apply IH; [|done..]. cbn [pending]. set_solver. }
  split; [|split].
  - apply follows_bind; [by apply dispatch_plain|]. intros st tr1. apply Hcont.
  - intros tr' [Hpanic|(st & tr1 & Hstep & Hpanic)]%bind_panic_inv.
    + by apply dispatch_plain_safe in Hpanic.
    + apply Hcont in Hstep as (_ & Hsafe & _). by destruct (Hsafe tr').
  - intros s' tr' (st & tr1 & Hstep & Hend)%bind_ok_inv.
    apply Hcont in Hstep as (_ & _ & Hres). by eapply Hres.
Qed.

End PlainRemote.

(** X14.  Whatever fails, a run in which no token of stdin starts with
    [stateless-connect] and no packet of the child's output advertises a
    name under [refs/gittuf/] adds nothing of its own: it runs no gittuf rsl
    record, every packet it writes to the child is a token of stdin, it does
    not panic, and the map it returns is empty. *)
Theorem plain_remote_passed_through
    (env : list event → action → option error)
    (mapRange : list event → gmap string string → list (string * string))
    (packetEncode : string → string)
    (remoteName url : string) (stdin helperOut : list string) :
  Forall (λ c, Go.HasPrefix c "stateless-connect" = false) stdin →
  Forall (λ o, listsGittufRef o = false) helperOut →
  (∀ ev, ev ∈ history (handleCurl env mapRange packetEncode remoteName url
                         stdin helperOut []) →
         isRslRecord (act ev) = false)
  ∧ (∀ p, p ∈ childWrites
                (history (handleCurl env mapRange packetEncode remoteName url
                            stdin helperOut [])) →
          p ∈ stdin)
  ∧ (∀ tr', handleCurl env mapRange packetEncode remoteName url stdin helperOut []
            ≠ Panic tr')
  ∧ (∀ tips isPush' tr',
       handleCurl env mapRange packetEncode remoteName url stdin helperOut []
       = Ok (Some (tips, isPush')) tr' →
       tips = ∅).
Proof.
  intros Hstdin Hout.
  assert (∀ a, isShutdown a = true ∨ (∃ n u, a = HelperStart n u)
               ∨ a = HelperStdoutPipe ∨ a = HelperStdinPipe →
               disciplined (plain stdin) (perform env a)) as Hperf.
  { intros a Ha. apply disciplined_perform.
    destruct Ha as [?|[(n & u & ->)|[->| ->]]]; [|done..]. by destruct a. }
  assert (pending None stdin ++ pushCommands initialSession ⊆ stdin)
    as Hsub by (cbn [pending pushCommands initialSession]; by rewrite app_nil_r).
  assert (follows (plain stdin) []
            (handleCurl env mapRange packetEncode remoteName url stdin helperOut []))
    as Hrun.
  { unfold handleCurl, translate, startHelper, shutdown.
    apply follows_bind.
    - apply follows_bind.
      + apply disciplined_bind; [apply Hperf; auto|intros _].
        apply disciplined_bind; [apply Hperf; auto|intros _].
        apply Hperf; eauto.
      + intros _ tr1 _. by apply mainLoop_plain; [|exact Hsub|..].
    - intros [s|] tr1 _; [|apply disciplined_ret].
      apply disciplined_bind; [|intros ?; apply disciplined_ret].
      apply disciplined_bind; [apply Hperf; auto|intros _].
      apply disciplined_bind; [apply Hperf; auto|intros _].
      apply disciplined_bind; [apply Hperf; auto|intros _]. apply disciplined_ret. }
  apply follows_actions in Hrun. rewrite Forall_forall in Hrun.
  split; [|split; [|split]].
  - intros ev Hev. specialize (Hrun ev Hev). by destruct (act ev).
  - intros p Hin. unfold childWrites in Hin.
    apply list_elem_of_omap in Hin as (ev & Hev & Hact).
    specialize (Hrun ev Hev).
    destruct (act ev) as [| | |q| | | | |] eqn:Ha; try done.
    by injection Hact as ->.
  - intros tr'. unfold handleCurl, translate.
    intros [[Hpanic|(? & tr1 & _ & Hpanic)]%bind_panic_inv
           |([s|] & tr1 & _ & Hpanic)]%bind_panic_inv.
    + by apply startHelper_safe in Hpanic.
    + by eapply mainLoop_plain in Hpanic; [|done|exact Hsub|..].
    + by apply shutdown_safe in Hpanic.
    + by rewrite ret_run in Hpanic.
  - intros tips isPush' tr'. unfold handleCurl, translate, shutdown.
    intros ([s|] & tr1 & Hloop & Hend)%bind_ok_inv; [|by rewrite ret_run in Hend].
    apply bind_ok_inv in Hloop as (? & tr0 & _ & Hloop).
    ok_inv.
    by eapply mainLoop_plain in Hloop; [|done|exact Hsub|..].
Qed.

Lemma plain_remote_passed_through_witness :
  (∀ ev, ev ∈ history (handleCurl quiet rangeSorted pktLine
                         "origin" "https://example.com/repo"
                         ["list for-push" +:+ LF; "push a:b" +:+ LF; LF]
                         ["abc refs/heads/main" +:+ LF; flushPkt;
                          "ok refs/heads/main" +:+ LF; flushPkt] []) →
         isRslRecord (act ev) = false)
  ∧ (∀ p, p ∈ childWrites
                (history (handleCurl quiet rangeSorted pktLine
                            "origin" "https://example.com/repo"
                            ["list for-push" +:+ LF; "push a:b" +:+ LF; LF]
                            ["abc refs/heads/main" +:+ LF; flushPkt;
                             "ok refs/heads/main" +:+ LF; flushPkt] [])) →
          p ∈ ["list for-push" +:+ LF; "push a:b" +:+ LF; LF])
  ∧ (∀ tr', handleCurl quiet rangeSorted pktLine
              "origin" "https://example.com/repo"
              ["list for-push" +:+ LF; "push a:b" +:+ LF; LF]
              ["abc refs/heads/main" +:+ LF; flushPkt;
               "ok refs/heads/main" +:+ LF; flushPkt] []
            ≠ Panic tr')
  ∧ (∀ tips isPush' tr',
       handleCurl quiet rangeSorted pktLine
         "origin" "https://example.com/repo"
         ["list for-push" +:+ LF; "push a:b" +:+ LF; LF]
         ["abc refs/heads/main" +:+ LF; flushPkt;
          "ok refs/heads/main" +:+ LF; flushPkt] []
       = Ok (Some (tips, isPush')) tr' →
       tips = ∅).
Proof.
  apply (plain_remote_passed_through quiet rangeSorted pktLine
           "origin" "https://example.com/repo"
           ["list for-push" +:+ LF; "push a:b" +:+ LF; LF]
           ["abc refs/heads/main" +:+ LF; flushPkt;
            "ok refs/heads/main" +:+ LF; flushPkt]);
    repeat (constructor; [vm_compute; reflexivity|]); constructor.
Defined.

(** ** Push batches, one after the other *)

Lemma childWrites_of_controller (evs : list event) :
  Forall (λ ev, ∃ p, act ev = StdoutWrite p) evs → childWrites evs = [].
Proof.
  induction 1 as [|ev evs [p Hp] _ IH]; [done|].
  unfold childWrites in *. cbn. by rewrite Hp.
Qed.

Lemma pushReport_events env out tr :
  ∃ evs, history (pushReport env out tr) = tr ++ evs
         ∧ Forall (λ ev, ∃ p, act ev = StdoutWrite p) evs.
Proof.
  apply (follows_events (λ a, ∃ p, a = StdoutWrite p)).
  apply pushReport_disciplined. by eexists.
Qed.

(** Lines 181-188: when stdin ends before the blank line, the commands are
    buffered and nothing else is done. *)
Lemma pushBatch_unterminated env tips cmds command stdin tr :
  LF ∉ command :: stdin →
  pushBatch env tips cmds command stdin tr = Ok (cmds ++ command :: stdin, []) tr.
Proof.
  revert cmds command.
  induction stdin as [|c stdin IH]; intros cmds command [Hne Hnot]%not_elem_of_cons;
    cbn [pushBatch]; rewrite (proj2 (Equal_false command LF)) by congruence.
  - done.
  - rewrite IH by done. by rewrite <-app_assoc.
Qed.

Lemma pushBatch_writes env tips cmds command cs rest tr r tr' :
  LF ∉ command :: cs →
  pushBatch env tips cmds command (cs ++ LF :: rest) tr = Ok r tr' →
  r = (cmds ++ command :: cs, rest)
  ∧ ∃ evs,
      tr' = tr ++ evs
      ∧ childWrites evs
        = (cmds ++ command :: cs)
            ++ (if decide (tips = ∅) then [] else [rslPushCommand]) ++ [LF].
Proof.
  revert cmds command.
  induction cs as [|c cs IH]; intros cmds command [Hne Hnot]%not_elem_of_cons;
    cbn [app]; rewrite pushBatch_next by congruence.
  - rewrite pushBatch_end. unfold endPushBatch. intros H. ok_inv.
    all: repeat match goal with
           | H : perform _ _ _ = Ok _ _ |- _ => apply perform_ok_inv in H as ->
           | H : forwardPushCommands _ _ _ _ = Ok _ _ |- _ =>
               apply forwardPushCommands_ok in H as (evs & -> & Hc & _)
           | H : gittufEnabled _ = true |- _ => apply gittufEnabled_true in H
           | H : gittufEnabled _ = false |- _ => apply gittufEnabled_false in H
           end; (split; [done|]).
    + exists (evs ++ [toChild rslPushCommand; toChild LF]).
      rewrite <-!app_assoc. split; [done|].
      rewrite childWrites_app, Hc, <-app_assoc. by destruct (decide (tips = ∅)).
    + exists (evs ++ [toChild LF]). rewrite <-!app_assoc. split; [done|].
      rewrite childWrites_app, Hc, <-app_assoc. by destruct (decide (tips = ∅)).
  - intros Hrun%IH; [|done].
    replace ((cmds ++ [command]) ++ c :: cs)
      with (cmds ++ command :: c :: cs) in Hrun by (by rewrite <-app_assoc).
    exact Hrun.
Qed.

(** A pass over a push batch that goes through: the buffer keeps the
    batch. *)
Lemma dispatch_push_ok env mapRange packetEncode s command cs rest out tr st tr' :
  currentState s = start →
  Go.HasPrefix command "push" = true →
  LF ∉ command :: cs →
  dispatch env mapRange packetEncode s command (cs ++ LF :: rest) out tr
  = Ok st tr' →
  ∃ out' evs,
    st = Next (withPushCommands (pushCommands s ++ command :: cs)
                 (withIsPush true s)) rest out'
    ∧ tr' = tr ++ evs
    ∧ childWrites evs
      = (pushCommands s ++ command :: cs)
          ++ (if decide (gittufRefsTips s = ∅) then [] else [rslPushCommand])
          ++ [LF].
Proof.
  intros Hst Hpush Hnot. destruct (push_prefix_alone _ Hpush) as [Hsc Hlist].
  unfold dispatch, dispatchStart. rewrite Hst, Hsc, Hlist, Hpush.
  intros (r & tr1 & Hbatch & (out' & tr2 & Hrep & Hret)%bind_ok_inv)%bind_ok_inv.
  rewrite ret_run in Hret. injection Hret as <- <-.
  apply pushBatch_writes in Hbatch as [-> (evs1 & -> & Hc1)]; [|done].
  destruct (pushReport_events env out (tr ++ evs1)) as (evs2 & Hh & Hall).
  rewrite Hrep in Hh. cbn [history] in Hh. subst tr2.
  exists out', (evs1 ++ evs2). rewrite <-app_assoc. split; [done|]. split; [done|].
  rewrite childWrites_app, (childWrites_of_controller evs2), app_nil_r by done.
  exact Hc1.
Qed.

(** X15.  The buffer of push commands is never emptied: whatever fails, in a
    run that returns, the pass over a second push batch writes to the child
    the commands of the first batch again, before its own, and then the push
    of the reference state log, when gittufRefsTips is not empty, and the
    line feed. *)
Theorem later_push_batch_resends_earlier
    (env : list event → action → option error)
    (mapRange : list event → gmap string string → list (string * string))
    (packetEncode : string → string)
    (fuel : nat) (s : session) (c1 c2 : string) (cs1 cs2 rest out : list string)
    (tr : list event) (s' : session) (tr' : list event) :
  currentState s = start →
  Go.HasPrefix c1 "push" = true →
  Go.HasPrefix c2 "push" = true →
  LF ∉ c1 :: cs1 →
  LF ∉ c2 :: cs2 →
  mainLoop env mapRange packetEncode fuel s None
    ((c1 :: cs1) ++ LF :: (c2 :: cs2) ++ LF :: rest) out tr
  = Ok (Some s') tr' →
  ∃ evs1 evs2 evs3,
    tr' = tr ++ evs1 ++ evs2 ++ evs3
    ∧ childWrites evs1
      = (pushCommands s ++ c1 :: cs1)
          ++ (if decide (gittufRefsTips s = ∅) then [] else [rslPushCommand])
          ++ [LF]
    ∧ childWrites evs2
      = (pushCommands s ++ (c1 :: cs1) ++ c2 :: cs2)
          ++ (if decide (gittufRefsTips s = ∅) then [] else [rslPushCommand])
          ++ [LF].
Proof.
  intros Hst Hp1 Hp2 Hn1 Hn2. cbn [app].
  destruct fuel as [|fuel]; [by intros [=]|].
  rewrite mainLoop_step.
  intros (st & tr1 & Hstep & Hloop)%bind_ok_inv.
  apply dispatch_push_ok in Hstep as (out1 & evs1 & -> & -> & Hc1); [|done..].
  cbn [currentState withPushCommands withIsPush] in Hloop. rewrite Hst in Hloop.
  destruct (decide (start = packfileDone)); [done|].
  destruct fuel as [|fuel]; [by injection Hloop|].
  rewrite mainLoop_step in Hloop.
  apply bind_ok_inv in Hloop as (st & tr2 & Hstep & Hloop).
  apply dispatch_push_ok in Hstep as (out2 & evs2 & -> & -> & Hc2); [|done..].
  cbn [pushCommands gittufRefsTips withPushCommands withIsPush] in Hc2.
  cbn [currentState withPushCommands withIsPush] in Hloop. rewrite Hst in Hloop.
  destruct (decide (start = packfileDone)); [done|].
  match type of Hloop with
  | mainLoop _ _ _ _ ?s2 _ _ _ _ = _ =>
      destruct (mainLoop_copies env mapRange packetEncode fuel s2 None rest out2
                  ((tr ++ evs1) ++ evs2)) as (evs3 & Hh & _)
  end.
  rewrite Hloop in Hh. cbn [history] in Hh. subst tr'.
  exists evs1, evs2, evs3. split; [by rewrite <-!app_assoc|]. split; [done|].
  rewrite Hc2. f_equal. by rewrite <-app_assoc.
Qed.

Lemma later_push_batch_resends_earlier_witness :
  ∃ evs1 evs2 evs3,
    [toChild ("push a:b" +:+ LF); toChild LF; toController flushPkt;
     toChild ("push a:b" +:+ LF); toChild ("push c:d" +:+ LF); toChild LF;
     toController flushPkt]
    = [] ++ evs1 ++ evs2 ++ evs3
    ∧ childWrites evs1
      = (pushCommands initialSession ++ ("push a:b" +:+ LF) :: [])
          ++ (if decide (gittufRefsTips initialSession = ∅) then []
              else [rslPushCommand])
          ++ [LF]
    ∧ childWrites evs2
      = (pushCommands initialSession
           ++ (("push a:b" +:+ LF) :: []) ++ ("push c:d" +:+ LF) :: [])
          ++ (if decide (gittufRefsTips initialSession = ∅) then []
              else [rslPushCommand])
          ++ [LF].
Proof.
  apply (later_push_batch_resends_earlier quiet rangeSorted pktLine 3
           initialSession ("push a:b" +:+ LF) ("push c:d" +:+ LF) [] [] []
           [flushPkt; flushPkt] []
           (withPushCommands ["push a:b" +:+ LF; "push c:d" +:+ LF]
              (withIsPush true initialSession))).
  - reflexivity.
  - reflexivity.
  - reflexivity.
  - intros H. apply list_elem_of_In in H. vm_compute in H. intuition discriminate.
  - intros H. apply list_elem_of_In in H. vm_compute in H. intuition discriminate.
  - vm_compute. reflexivity.
Defined.

(** X16.  A push batch that stdin ends before its blank line is not handed
    on: whatever fails, the pass writes nothing to the child and runs no
    gittuf rsl record, its only actions being writes of the child's push
    report to the controller; when it returns, the commands are in the
    buffer and stdin is used up. *)
Theorem unterminated_push_batch_is_dropped
    (env : list event → action → option error)
    (mapRange : list event → gmap string string → list (string * string))
    (packetEncode : string → string)
    (s : session) (command : string) (stdin out : list string) (tr : list event) :
  currentState s = start →
  Go.HasPrefix command "push" = true →
  LF ∉ command :: stdin →
  ∃ evs,
    history (dispatch env mapRange packetEncode s command stdin out tr) = tr ++ evs
    ∧ Forall (λ ev, ∃ p, act ev = StdoutWrite p) evs
    ∧ ∀ st tr',
        dispatch env mapRange packetEncode s command stdin out tr = Ok st tr' →
        ∃ out',
          st = Next (withPushCommands (pushCommands s ++ command :: stdin)
                       (withIsPush true s)) [] out'.
Proof.
  intros Hst Hpush Hnot. destruct (push_prefix_alone _ Hpush) as [Hsc Hlist].
  unfold dispatch, dispatchStart. rewrite Hst, Hsc, Hlist, Hpush.
  rewrite bind_run, pushBatch_unterminated, bind_run by done.
  destruct (pushReport_events env out tr) as (evs & Hh & Hall).
  exists evs.
  destruct (pushReport env out tr) as [out' tr1|e tr1|tr1]; cbn [history] in *;
    (split; [done|]); (split; [done|]); [|done..].
  rewrite ret_run. intros st tr' [= <- _]. by eexists.
Qed.

Lemma unterminated_push_batch_is_dropped_witness :
  ∃ evs,
    history (dispatch quiet rangeSorted pktLine initialSession
               ("push a:b" +:+ LF) ["push c:d" +:+ LF] [flushPkt] [])
    = [] ++ evs
    ∧ Forall (λ ev, ∃ p, act ev = StdoutWrite p) evs
    ∧ ∀ st tr',
        dispatch quiet rangeSorted pktLine initialSession
          ("push a:b" +:+ LF) ["push c:d" +:+ LF] [flushPkt] []
        = Ok st tr' →
        ∃ out',
          st = Next (withPushCommands
                       (pushCommands initialSession
                          ++ ("push a:b" +:+ LF) :: ["push c:d" +:+ LF])
                       (withIsPush true initialSession)) [] out'.
Proof.
  apply (unterminated_push_batch_is_dropped quiet rangeSorted pktLine
           initialSession ("push a:b" +:+ LF) ["push c:d" +:+ LF] [flushPkt] []).
  - reflexivity.
  - reflexivity.
  - intros H. apply list_elem_of_In in H. vm_compute in H. intuition discriminate.
Defined.
